(** * Platform game: a shallow embedding of [platformgame.js]

    The simulation core of the side-scrolling platformer (entities,
    collision resolution, the orchestrator tick and its lifecycle
    commands) is transcribed class by class.  Every JavaScript method
    becomes a function on an immutable record; a method that mutates
    objects it was handed (the player defeating enemies, the tick
    collecting collectibles) returns the updated objects.

    Numbers.  JavaScript numbers are modelled by exact rationals [Q]
    (0.6 is [6 # 10]); rounding of IEEE doubles is not modelled.  The
    counters that the program only ever moves by whole steps (health,
    timers, score, level) are integers [Z]. *)

From Stdlib Require Import ZArith QArith Qminmax Qround Lqa Lia.
From Stdlib Require Import Bool List String.
From stdpp Require Import gmap strings.
Import ListNotations.

Open Scope Q_scope.

(** ** Comparisons of numbers *)

(** [a < b] as a boolean test. *)
Definition Qlt_bool (a b : Q) : bool :=
  (Qnum a * QDen b <? Qnum b * QDen a)%Z.

(** [forEach] over an array whose elements the callback mutates while
    it also updates state captured from the enclosing scope: the
    callback maps the captured state and one element to their new
    values, elements are visited in order. *)
Fixpoint forEach {S A : Type} (f : S -> A -> S * A) (s : S) (l : list A)
  : S * list A :=
  match l with
  | [] => (s, [])
  | a :: l' =>
      let '(s1, a1) := f s a in
      let '(s2, l2) := forEach f s1 l' in
      (s2, a1 :: l2)
  end.

(** ** Entity: the abstract base class *)

Module Entity.

Record t : Type := mk {
  x : Q;
  y : Q;
  width : Q;
  height : Q;
  color : string;
  active : bool
}.

(** [constructor(x, y, width, height, color)] *)
Definition new (x y width height : Q) (color : string) : t :=
  mk x y width height color true.

Definition with_x (v : Q) (e : t) : t :=
  mk v (y e) (width e) (height e) (color e) (active e).
Definition with_y (v : Q) (e : t) : t :=
  mk (x e) v (width e) (height e) (color e) (active e).
Definition with_color (v : string) (e : t) : t :=
  mk (x e) (y e) (width e) (height e) v (active e).
Definition with_active (v : bool) (e : t) : t :=
  mk (x e) (y e) (width e) (height e) (color e) v.

(** [collidesWith(other)] *)
Definition collidesWith (this other : t) : bool :=
  active this &&
  active other &&
  Qlt_bool (x this) (x other + width other) &&
  Qlt_bool (x other) (x this + width this) &&
  Qlt_bool (y this) (y other + height other) &&
  Qlt_bool (y other) (y this + height this).

Definition getCenterX (this : t) : Q := x this + width this / 2.
Definition getCenterY (this : t) : Q := y this + height this / 2.

End Entity.

(** ** Platform *)

Module Platform.

Record t : Type := mk {
  entity : Entity.t;
  moving : bool;
  moveRange : Q;
  moveSpeed : Q;
  startX : Q;
  direction : Q
}.

Definition x (p : t) : Q := Entity.x (entity p).
Definition y (p : t) : Q := Entity.y (entity p).
Definition width (p : t) : Q := Entity.width (entity p).
Definition height (p : t) : Q := Entity.height (entity p).

(** [constructor(x, y, width, height, moving, moveRange, moveSpeed)] *)
Definition new (x y width height : Q) (moving : bool)
    (moveRange moveSpeed : Q) : t :=
  mk (Entity.new x y width height "#795548") moving moveRange moveSpeed x 1.

(** A static platform: the constructor's default arguments. *)
Definition static (x y width height : Q) : t :=
  new x y width height false 0 0.

Definition with_x (v : Q) (p : t) : t :=
  mk (Entity.with_x v (entity p)) (moving p) (moveRange p) (moveSpeed p)
     (startX p) (direction p).
Definition with_direction (v : Q) (p : t) : t :=
  mk (entity p) (moving p) (moveRange p) (moveSpeed p) (startX p) v.

(** [update()] *)
Definition update (this : t) : t :=
  if moving this then
    let this := with_x (x this + moveSpeed this * direction this) this in
    if Qle_bool (startX this + moveRange this) (x this) then
      with_direction (-1) (with_x (startX this + moveRange this) this)
    else if Qle_bool (x this) (startX this) then
      with_direction 1 (with_x (startX this) this)
    else this
  else this.

End Platform.

(** ** Enemy *)

Module Enemy.

Record t : Type := mk {
  entity : Entity.t;
  velocityX : Q;
  velocityY : Q;
  gravity : Q;
  patrolStart : Q;
  patrolEnd : Q;
  direction : Q;
  defeated : bool;
  defeatTimer : Z;
  (** set by the orchestrator once the defeat bonus has been paid;
      absent (falsy) until then *)
  scoreGiven : bool
}.

Definition x (e : t) : Q := Entity.x (entity e).
Definition y (e : t) : Q := Entity.y (entity e).
Definition width (e : t) : Q := Entity.width (entity e).
Definition height (e : t) : Q := Entity.height (entity e).
Definition active (e : t) : bool := Entity.active (entity e).

(** [constructor(x, y, patrolStart, patrolEnd)] *)
Definition new (x y patrolStart patrolEnd : Q) : t :=
  mk (Entity.new x y 35 35 "#F44336") 2 0 0.6 patrolStart patrolEnd 1
     false 0 false.

Definition with_entity (v : Entity.t) (e : t) : t :=
  mk v (velocityX e) (velocityY e) (gravity e) (patrolStart e)
     (patrolEnd e) (direction e) (defeated e) (defeatTimer e) (scoreGiven e).
Definition with_x (v : Q) (e : t) : t :=
  with_entity (Entity.with_x v (entity e)) e.
Definition with_y (v : Q) (e : t) : t :=
  with_entity (Entity.with_y v (entity e)) e.
Definition with_active (v : bool) (e : t) : t :=
  with_entity (Entity.with_active v (entity e)) e.
Definition with_color (v : string) (e : t) : t :=
  with_entity (Entity.with_color v (entity e)) e.
Definition with_velocityY (v : Q) (e : t) : t :=
  mk (entity e) (velocityX e) v (gravity e) (patrolStart e)
     (patrolEnd e) (direction e) (defeated e) (defeatTimer e) (scoreGiven e).
Definition with_direction (v : Q) (e : t) : t :=
  mk (entity e) (velocityX e) (velocityY e) (gravity e) (patrolStart e)
     (patrolEnd e) v (defeated e) (defeatTimer e) (scoreGiven e).
Definition with_defeated (v : bool) (e : t) : t :=
  mk (entity e) (velocityX e) (velocityY e) (gravity e) (patrolStart e)
     (patrolEnd e) (direction e) v (defeatTimer e) (scoreGiven e).
Definition with_defeatTimer (v : Z) (e : t) : t :=
  mk (entity e) (velocityX e) (velocityY e) (gravity e) (patrolStart e)
     (patrolEnd e) (direction e) (defeated e) v (scoreGiven e).
Definition with_scoreGiven (v : bool) (e : t) : t :=
  mk (entity e) (velocityX e) (velocityY e) (gravity e) (patrolStart e)
     (patrolEnd e) (direction e) (defeated e) (defeatTimer e) v.

(** The callback of [checkPlatformCollisions]: one platform. *)
Definition landOn (this : t) (platform : Platform.t) : t :=
  if Entity.collidesWith (entity this) (Platform.entity platform) then
    if Qlt_bool 0 (velocityY this) &&
       Qle_bool (y this + height this - velocityY this)
                (Platform.y platform + 5)
    then with_velocityY 0 (with_y (Platform.y platform - height this) this)
    else this
  else this.

(** [checkPlatformCollisions(platforms)] *)
Definition checkPlatformCollisions (this : t) (platforms : list Platform.t)
  : t :=
  fold_left landOn platforms this.

(** [update(platforms)] *)
Definition update (platforms : list Platform.t) (this : t) : t :=
  if defeated this then
    let this := with_defeatTimer (defeatTimer this + 1) this in
    if (30 <? defeatTimer this)%Z then with_active false this else this
  else
    let this := with_velocityY (velocityY this + gravity this) this in
    let this := with_x (x this + velocityX this * direction this) this in
    let this := with_y (y this + velocityY this) this in
    let this := checkPlatformCollisions this platforms in
    if Qle_bool (x this) (patrolStart this) then
      with_direction 1 (with_x (patrolStart this) this)
    else if Qle_bool (patrolEnd this) (x this + width this) then
      with_direction (-1) (with_x (patrolEnd this - width this) this)
    else this.

(** [defeat()] *)
Definition defeat (this : t) : t :=
  with_color "#FFCDD2" (with_defeated true this).

End Enemy.

(** ** Player *)

Module Player.

Record t : Type := mk {
  entity : Entity.t;
  velocityX : Q;
  velocityY : Q;
  speed : Q;
  jumpPower : Q;
  gravity : Q;
  isOnGround : bool;
  health : Z;
  maxHealth : Z;
  invincible : bool;
  invincibleTimer : Z;
  doubleJumpAvailable : bool;
  hasDoubleJump : bool
}.

Definition x (p : t) : Q := Entity.x (entity p).
Definition y (p : t) : Q := Entity.y (entity p).
Definition width (p : t) : Q := Entity.width (entity p).
Definition height (p : t) : Q := Entity.height (entity p).
Definition active (p : t) : bool := Entity.active (entity p).

(** [constructor(x, y)] *)
Definition new (x y : Q) : t :=
  mk (Entity.new x y 40 40 "#4CAF50") 0 0 6 15 0.6 false 5 5 false 0
     false false.

Definition with_entity (v : Entity.t) (p : t) : t :=
  mk v (velocityX p) (velocityY p) (speed p) (jumpPower p) (gravity p)
     (isOnGround p) (health p) (maxHealth p) (invincible p)
     (invincibleTimer p) (doubleJumpAvailable p) (hasDoubleJump p).
Definition with_x (v : Q) (p : t) : t :=
  with_entity (Entity.with_x v (entity p)) p.
Definition with_y (v : Q) (p : t) : t :=
  with_entity (Entity.with_y v (entity p)) p.
Definition with_active (v : bool) (p : t) : t :=
  with_entity (Entity.with_active v (entity p)) p.
Definition with_velocityX (v : Q) (p : t) : t :=
  mk (entity p) v (velocityY p) (speed p) (jumpPower p) (gravity p)
     (isOnGround p) (health p) (maxHealth p) (invincible p)
     (invincibleTimer p) (doubleJumpAvailable p) (hasDoubleJump p).
Definition with_velocityY (v : Q) (p : t) : t :=
  mk (entity p) (velocityX p) v (speed p) (jumpPower p) (gravity p)
     (isOnGround p) (health p) (maxHealth p) (invincible p)
     (invincibleTimer p) (doubleJumpAvailable p) (hasDoubleJump p).
Definition with_isOnGround (v : bool) (p : t) : t :=
  mk (entity p) (velocityX p) (velocityY p) (speed p) (jumpPower p)
     (gravity p) v (health p) (maxHealth p) (invincible p)
     (invincibleTimer p) (doubleJumpAvailable p) (hasDoubleJump p).
Definition with_health (v : Z) (p : t) : t :=
  mk (entity p) (velocityX p) (velocityY p) (speed p) (jumpPower p)
     (gravity p) (isOnGround p) v (maxHealth p) (invincible p)
     (invincibleTimer p) (doubleJumpAvailable p) (hasDoubleJump p).
Definition with_invincible (v : bool) (p : t) : t :=
  mk (entity p) (velocityX p) (velocityY p) (speed p) (jumpPower p)
     (gravity p) (isOnGround p) (health p) (maxHealth p) v
     (invincibleTimer p) (doubleJumpAvailable p) (hasDoubleJump p).
Definition with_invincibleTimer (v : Z) (p : t) : t :=
  mk (entity p) (velocityX p) (velocityY p) (speed p) (jumpPower p)
     (gravity p) (isOnGround p) (health p) (maxHealth p) (invincible p)
     v (doubleJumpAvailable p) (hasDoubleJump p).
Definition with_doubleJumpAvailable (v : bool) (p : t) : t :=
  mk (entity p) (velocityX p) (velocityY p) (speed p) (jumpPower p)
     (gravity p) (isOnGround p) (health p) (maxHealth p) (invincible p)
     (invincibleTimer p) v (hasDoubleJump p).
Definition with_hasDoubleJump (v : bool) (p : t) : t :=
  mk (entity p) (velocityX p) (velocityY p) (speed p) (jumpPower p)
     (gravity p) (isOnGround p) (health p) (maxHealth p) (invincible p)
     (invincibleTimer p) (doubleJumpAvailable p) v.

(** The callback of [checkPlatformCollisions]: one platform. *)
Definition hitPlatform (this : t) (platform : Platform.t) : t :=
  if Entity.collidesWith (entity this) (Platform.entity platform) then
    if Qlt_bool 0 (velocityY this) &&
       Qle_bool (y this + height this - velocityY this)
                (Platform.y platform + 5)
    then
      with_isOnGround true
        (with_velocityY 0
           (with_y (Platform.y platform - height this) this))
    else if Qlt_bool (velocityY this) 0 &&
            Qle_bool (Platform.y platform + Platform.height platform)
                     (y this - velocityY this)
    then
      with_velocityY 0
        (with_y (Platform.y platform + Platform.height platform) this)
    else if Qlt_bool 0 (velocityX this) then
      with_velocityX 0 (with_x (Platform.x platform - width this) this)
    else if Qlt_bool (velocityX this) 0 then
      with_velocityX 0
        (with_x (Platform.x platform + Platform.width platform) this)
    else this
  else this.

(** [checkPlatformCollisions(platforms)] *)
Definition checkPlatformCollisions (this : t) (platforms : list Platform.t)
  : t :=
  fold_left hitPlatform platforms this.

(** [takeDamage()] *)
Definition takeDamage (this : t) : t :=
  if negb (invincible this) then
    let this := with_health (health this - 1) this in
    let this := with_invincible true this in
    let this := with_invincibleTimer 90 this in
    if (health this <=? 0)%Z then with_active false this else this
  else this.

(** [heal(amount)] *)
Definition heal (amount : Z) (this : t) : t :=
  with_health (Z.min (maxHealth this) (health this + amount)) this.

(** The callback of [checkEnemyCollisions]: one enemy. *)
Definition hitEnemy (this : t) (enemy : Enemy.t) : t * Enemy.t :=
  if Entity.collidesWith (entity this) (Enemy.entity enemy) then
    if Qlt_bool 0 (velocityY this) &&
       Qle_bool (y this + height this - velocityY this)
                (Enemy.y enemy + 10)
    then (with_velocityY (-10) this, Enemy.defeat enemy)
    else (takeDamage this, enemy)
  else (this, enemy).

(** [checkEnemyCollisions(enemies)] *)
Definition checkEnemyCollisions (this : t) (enemies : list Enemy.t)
  : t * list Enemy.t :=
  if invincible this then (this, enemies)
  else forEach hitEnemy this enemies.

(** [constrainToBounds()] *)
Definition constrainToBounds (this : t) : t :=
  let this :=
    if Qlt_bool (x this) 0 then with_velocityX 0 (with_x 0 this)
    else this in
  let this :=
    if Qlt_bool 2400 (x this + width this)
    then with_velocityX 0 (with_x (2400 - width this) this)
    else this in
  if Qlt_bool 600 (y this)
  then with_active false (with_health 0 this)
  else this.

(** The tail of [update]: the invincibility countdown. *)
Definition tickInvincibility (this : t) : t :=
  if invincible this then
    let this := with_invincibleTimer (invincibleTimer this - 1) this in
    if (invincibleTimer this <=? 0)%Z then with_invincible false this
    else this
  else this.

(** The head of [update], up to the enemy check: gravity, the
    displacement, platform collisions and the refill of the
    double-jump charge on landing. *)
Definition move (this : t) (platforms : list Platform.t) : t :=
  let this := with_velocityY (velocityY this + gravity this) this in
  let this := with_x (x this + velocityX this) this in
  let this := with_y (y this + velocityY this) this in
  let wasOnGround := isOnGround this in
  let this := with_isOnGround false this in
  let this := checkPlatformCollisions this platforms in
  if isOnGround this && negb wasOnGround
  then with_doubleJumpAvailable true this
  else this.

(** [update(platforms, enemies)] *)
Definition update (this : t) (platforms : list Platform.t)
    (enemies : list Enemy.t) : t * list Enemy.t :=
  let this := move this platforms in
  let '(this, enemies) := checkEnemyCollisions this enemies in
  let this := constrainToBounds this in
  (tickInvincibility this, enemies).

(** [moveLeft()], [moveRight()], [stop()] *)
Definition moveLeft (this : t) : t := with_velocityX (- speed this) this.
Definition moveRight (this : t) : t := with_velocityX (speed this) this.
Definition stop (this : t) : t := with_velocityX 0 this.

(** [jump()] *)
Definition jump (this : t) : t :=
  if isOnGround this then
    with_isOnGround false (with_velocityY (- jumpPower this) this)
  else if hasDoubleJump this && doubleJumpAvailable this then
    with_doubleJumpAvailable false
      (with_velocityY (- jumpPower this) this)
  else this.

End Player.

(** ** Collectible *)

Module Collectible.

(** The four tags [createCollectibles] passes as [type]. *)
Inductive kind : Type := coin | star | heart | doublejump.

Record t : Type := mk {
  entity : Entity.t;
  type : kind;
  collected : bool;
  rotation : Q;
  bobOffset : Q;
  bobSpeed : Q;
  value : Z
}.

(** The value and colour branches of the constructor. *)
Definition valueOf (type : kind) : Z :=
  match type with
  | coin => 10
  | star => 50
  | heart => 0
  | doublejump => 100
  end.

Definition colorOf (type : kind) : string :=
  match type with
  | coin => "#FFD700"
  | star => "#FF6B6B"
  | heart => "#E91E63"
  | doublejump => "#2196F3"
  end.

(** [constructor(x, y, type)] *)
Definition new (x y : Q) (type : kind) : t :=
  mk (Entity.new x y 25 25 (colorOf type)) type false 0 0 0.1
     (valueOf type).

Section Animation.

(** [Math.sin], supplied by the host. *)
Variable Math_sin : Q -> Q.

(** [update()] *)
Definition update (this : t) : t :=
  if negb (collected this) then
    let rotation := rotation this + 0.1 in
    mk (entity this) (type this) (collected this) rotation
       (Math_sin (rotation * 2) * 5) (bobSpeed this) (value this)
  else this.

End Animation.

(** [collect()]: the collectible afterwards and the returned
    [{ type, value }]. *)
Definition collect (this : t) : t * (kind * Z) :=
  (mk (Entity.with_active false (entity this)) (type this) true
      (rotation this) (bobOffset this) (bobSpeed this) (value this),
   (type this, value this)).

End Collectible.

(** ** Game: the orchestrator *)

Module Game.

Record t : Type := mk {
  canvas_width : Q;
  canvas_height : Q;
  cameraX : Q;
  levelWidth : Q;
  player : Player.t;
  platforms : list Platform.t;
  enemies : list Enemy.t;
  collectibles : list Collectible.t;
  score : Z;
  highScore : Z;
  level : Z;
  keys : gmap string bool;
  isRunning : bool;
  gameOver : bool;
  gameWon : bool
}.

Definition with_player (v : Player.t) (g : t) : t :=
  mk (canvas_width g) (canvas_height g) (cameraX g) (levelWidth g) v
     (platforms g) (enemies g) (collectibles g) (score g) (highScore g)
     (level g) (keys g) (isRunning g) (gameOver g) (gameWon g).
Definition with_platforms (v : list Platform.t) (g : t) : t :=
  mk (canvas_width g) (canvas_height g) (cameraX g) (levelWidth g)
     (player g) v (enemies g) (collectibles g) (score g) (highScore g)
     (level g) (keys g) (isRunning g) (gameOver g) (gameWon g).
Definition with_enemies (v : list Enemy.t) (g : t) : t :=
  mk (canvas_width g) (canvas_height g) (cameraX g) (levelWidth g)
     (player g) (platforms g) v (collectibles g) (score g) (highScore g)
     (level g) (keys g) (isRunning g) (gameOver g) (gameWon g).
Definition with_collectibles (v : list Collectible.t) (g : t) : t :=
  mk (canvas_width g) (canvas_height g) (cameraX g) (levelWidth g)
     (player g) (platforms g) (enemies g) v (score g) (highScore g)
     (level g) (keys g) (isRunning g) (gameOver g) (gameWon g).
Definition with_cameraX (v : Q) (g : t) : t :=
  mk (canvas_width g) (canvas_height g) v (levelWidth g)
     (player g) (platforms g) (enemies g) (collectibles g) (score g)
     (highScore g) (level g) (keys g) (isRunning g) (gameOver g)
     (gameWon g).
Definition with_score (v : Z) (g : t) : t :=
  mk (canvas_width g) (canvas_height g) (cameraX g) (levelWidth g)
     (player g) (platforms g) (enemies g) (collectibles g) v
     (highScore g) (level g) (keys g) (isRunning g) (gameOver g)
     (gameWon g).
Definition with_highScore (v : Z) (g : t) : t :=
  mk (canvas_width g) (canvas_height g) (cameraX g) (levelWidth g)
     (player g) (platforms g) (enemies g) (collectibles g) (score g) v
     (level g) (keys g) (isRunning g) (gameOver g) (gameWon g).
Definition with_level (v : Z) (g : t) : t :=
  mk (canvas_width g) (canvas_height g) (cameraX g) (levelWidth g)
     (player g) (platforms g) (enemies g) (collectibles g) (score g)
     (highScore g) v (keys g) (isRunning g) (gameOver g) (gameWon g).
Definition with_keys (v : gmap string bool) (g : t) : t :=
  mk (canvas_width g) (canvas_height g) (cameraX g) (levelWidth g)
     (player g) (platforms g) (enemies g) (collectibles g) (score g)
     (highScore g) (level g) v (isRunning g) (gameOver g) (gameWon g).
Definition with_isRunning (v : bool) (g : t) : t :=
  mk (canvas_width g) (canvas_height g) (cameraX g) (levelWidth g)
     (player g) (platforms g) (enemies g) (collectibles g) (score g)
     (highScore g) (level g) (keys g) v (gameOver g) (gameWon g).
Definition with_gameOver (v : bool) (g : t) : t :=
  mk (canvas_width g) (canvas_height g) (cameraX g) (levelWidth g)
     (player g) (platforms g) (enemies g) (collectibles g) (score g)
     (highScore g) (level g) (keys g) (isRunning g) v (gameWon g).
Definition with_gameWon (v : bool) (g : t) : t :=
  mk (canvas_width g) (canvas_height g) (cameraX g) (levelWidth g)
     (player g) (platforms g) (enemies g) (collectibles g) (score g)
     (highScore g) (level g) (keys g) (isRunning g) (gameOver g) v.

(** [createPlatforms()] *)
Definition createPlatforms : list Platform.t :=
  [ (* ground sections *)
    Platform.static 0 550 400 50;
    Platform.static 500 550 400 50;
    Platform.static 1000 550 400 50;
    Platform.static 1500 550 400 50;
    Platform.static 2000 550 400 50;
    (* low platforms *)
    Platform.static 150 450 200 20;
    Platform.static 450 400 150 20;
    Platform.static 700 450 180 20;
    Platform.static 1000 420 200 20;
    Platform.static 1300 450 150 20;
    Platform.static 1600 400 200 20;
    Platform.static 1900 450 180 20;
    Platform.static 2150 420 200 20;
    (* mid platforms *)
    Platform.static 100 300 150 20;
    Platform.static 350 280 120 20;
    Platform.static 600 300 160 20;
    Platform.static 900 250 180 20;
    Platform.static 1200 300 150 20;
    Platform.static 1500 280 140 20;
    Platform.static 1800 300 160 20;
    Platform.static 2100 250 150 20;
    (* high platforms *)
    Platform.static 200 150 120 20;
    Platform.static 500 180 140 20;
    Platform.static 800 150 120 20;
    Platform.static 1100 130 150 20;
    Platform.static 1400 150 130 20;
    Platform.static 1700 180 140 20;
    Platform.static 2000 150 120 20;
    (* moving platforms *)
    Platform.new 400 350 100 15 true 100 2;
    Platform.new 1000 200 100 15 true 150 2;
    Platform.new 1600 250 100 15 true 120 2;
    (* final platform (goal) *)
    Platform.static 2200 100 200 30 ].

(** [createEnemies()] *)
Definition createEnemies : list Enemy.t :=
  [ (* ground enemies *)
    Enemy.new 200 510 0 380;
    Enemy.new 550 510 500 880;
    Enemy.new 1050 510 1000 1380;
    Enemy.new 1550 510 1500 1880;
    Enemy.new 2050 510 2000 2380;
    (* platform enemies *)
    Enemy.new 160 410 150 330;
    Enemy.new 460 360 450 580;
    Enemy.new 1010 380 1000 1180;
    Enemy.new 1610 360 1600 1780;
    (* mid-level enemies *)
    Enemy.new 110 260 100 230;
    Enemy.new 910 210 900 1060;
    Enemy.new 1510 240 1500 1620 ].

(** [createCollectibles()] *)
Definition createCollectibles : list Collectible.t :=
  map (fun i : Z =>
         Collectible.new (200 + inject_Z i * 70)
                         (500 - inject_Z (i mod 3) * 150)
                         Collectible.coin)
      (map Z.of_nat (seq 0 30))
  ++ [ Collectible.new 230 110 Collectible.star;
       Collectible.new 680 260 Collectible.star;
       Collectible.new 1130 90 Collectible.star;
       Collectible.new 1730 140 Collectible.star;
       Collectible.new 2030 110 Collectible.star;
       Collectible.new 400 360 Collectible.heart;
       Collectible.new 1000 210 Collectible.heart;
       Collectible.new 1800 310 Collectible.heart;
       Collectible.new 800 110 Collectible.doublejump;
       Collectible.new 2280 50 Collectible.star ].

(** [initLevel()] *)
Definition initLevel (this : t) : t :=
  let this := with_player (Player.new 100 100) this in
  let this := with_platforms createPlatforms this in
  let this := with_enemies createEnemies this in
  let this := with_collectibles createCollectibles this in
  let this := with_gameOver false this in
  let this := with_gameWon false this in
  with_cameraX 0 this.

(** [constructor(canvasId)]: the fields as they are when the
    constructor returns.  The collections it first sets to [null] and
    [[]] are the ones [initLevel] installs. *)
Definition new : t :=
  mk 800 600 0 2400 (Player.new 100 100) createPlatforms createEnemies
     createCollectibles 0 0 1 ∅ false false false.

(** A key is down when [keys[name]] is truthy. *)
Definition pressed (keys : gmap string bool) (name : string) : bool :=
  default false (keys !! name).

(** [handleInput()] *)
Definition handleInput (this : t) : t :=
  if gameOver this || gameWon this then this
  else if pressed (keys this) "ArrowLeft" then
    with_player (Player.moveLeft (player this)) this
  else if pressed (keys this) "ArrowRight" then
    with_player (Player.moveRight (player this)) this
  else with_player (Player.stop (player this)) this.

(** [updateCamera()] *)
Definition updateCamera (this : t) : t :=
  let targetX := Player.x (player this) - canvas_width this / 3 in
  with_cameraX
    (Qmax 0 (Qmin targetX (levelWidth this - canvas_width this))) this.

(** The enemy-scoring callback of [update]. *)
Definition awardDefeat (score : Z) (enemy : Enemy.t) : Z * Enemy.t :=
  if Enemy.defeated enemy && negb (Enemy.scoreGiven enemy)
  then ((score + 50)%Z, Enemy.with_scoreGiven true enemy)
  else (score, enemy).

(** The two terminal checks that close [update]. *)
Definition checkGameOver (this : t) : t :=
  if negb (Player.active (player this)) then
    let this := with_gameOver true this in
    if (highScore this <? score this)%Z
    then with_highScore (score this) this else this
  else this.

Definition checkWin (this : t) : t :=
  if Qlt_bool 2250 (Player.x (player this)) then
    let this := with_gameWon true this in
    if (highScore this <? score this)%Z
    then with_highScore (score this) this else this
  else this.

(** [String.prototype.repeat(count)] applied to a one-glyph string, as
    the number of glyphs of the result.  A negative count throws a
    [RangeError]. *)
Definition String_repeat (count : Z) : option nat :=
  if (count <? 0)%Z then None else Some (Z.to_nat count).

(** What [renderUI()] computes before it draws: the progress
    percentage, and the run of full hearts followed by the run of
    empty ones.  Drawing changes nothing of the game. *)
Definition progress (this : t) : Z :=
  Qfloor (Player.x (player this) / levelWidth this * 100).

Definition hearts (this : t) : option (nat * nat) :=
  match String_repeat (Player.health (player this)) with
  | None => None
  | Some full =>
      match String_repeat (Player.maxHealth (player this) -
                           Player.health (player this)) with
      | None => None
      | Some empty => Some (full, empty)
      end
  end.

Section Tick.

Variable Math_sin : Q -> Q.

(** The collectible callback of [update]; the captured state is the
    player and the score. *)
Definition pickUp (s : Player.t * Z) (collectible : Collectible.t)
  : (Player.t * Z) * Collectible.t :=
  let '(player, score) := s in
  let collectible := Collectible.update Math_sin collectible in
  if negb (Collectible.collected collectible) &&
     Entity.collidesWith (Player.entity player)
                         (Collectible.entity collectible)
  then
    let '(collectible, (type, value)) :=
      Collectible.collect collectible in
    match type with
    | Collectible.heart => ((Player.heal 1 player, score), collectible)
    | Collectible.doublejump =>
        ((Player.with_hasDoubleJump true player, (score + value)%Z),
         collectible)
    | _ => ((player, (score + value)%Z), collectible)
    end
  else (s, collectible).

(** The blocks of [update], in source order.  First the player,
    against the platforms and enemies as the previous tick left
    them; the enemies come back with the defeats of this tick. *)
Definition updatePlayer (this : t) : t :=
  let '(p, es) :=
    Player.update (player this) (platforms this) (enemies this) in
  with_enemies es (with_player p this).

Definition updatePlatforms (this : t) : t :=
  with_platforms (map Platform.update (platforms this)) this.

Definition updateEnemies (this : t) : t :=
  with_enemies (map (Enemy.update (platforms this)) (enemies this)) this.

Definition updateCollectibles (this : t) : t :=
  let '((p, sc), cs) :=
    forEach pickUp (player this, score this) (collectibles this) in
  with_collectibles cs (with_score sc (with_player p this)).

Definition awardDefeats (this : t) : t :=
  let '(sc, es) := forEach awardDefeat (score this) (enemies this) in
  with_enemies es (with_score sc this).

(** [update()] *)
Definition update (this : t) : t :=
  if gameOver this || gameWon this then this
  else
    let this := handleInput this in
    let this := updatePlayer this in
    let this := updatePlatforms this in
    let this := updateEnemies this in
    let this := updateCollectibles this in
    let this := awardDefeats this in
    let this := updateCamera this in
    let this := checkGameOver this in
    checkWin this.

(** [gameLoop()]: one animation frame.  Rendering reads the state
    and changes nothing; re-scheduling is the arrival of the next
    frame. *)
Definition gameLoop (this : t) : t :=
  if negb (isRunning this) then this else update this.

(** [start()] *)
Definition start (this : t) : t :=
  if isRunning this then this
  else gameLoop (with_isRunning true this).

(** [stop()] *)
Definition stop (this : t) : t := with_isRunning false this.

(** [reset()] *)
Definition reset (this : t) : t :=
  let this := stop this in
  let this := with_score 0 this in
  let this := with_level 1 this in
  let this := initLevel this in
  start this.

(** [handleKeyDown(e)] with [e.key = key] *)
Definition handleKeyDown (key : string) (this : t) : t :=
  let this := with_keys (<[key := true]> (keys this)) this in
  let this :=
    if (String.eqb key " " || String.eqb key "ArrowUp")
       && negb (gameOver this) && negb (gameWon this)
    then with_player (Player.jump (player this)) this
    else this in
  if String.eqb key "r" || String.eqb key "R" then reset this
  else this.

(** [handleKeyUp(e)] with [e.key = key] *)
Definition handleKeyUp (key : string) (this : t) : t :=
  with_keys (<[key := false]> (keys this)) this.

(** What the host can do to a game: deliver a key event, run an
    animation frame, or press one of the page's buttons. *)
Inductive event : Type :=
| KeyDown (key : string)
| KeyUp (key : string)
| Frame
| StartButton
| StopButton
| ResetButton.

Definition step (this : t) (e : event) : t :=
  match e with
  | KeyDown key => handleKeyDown key this
  | KeyUp key => handleKeyUp key this
  | Frame => gameLoop this
  | StartButton => start this
  | StopButton => stop this
  | ResetButton => reset this
  end.

Definition run (this : t) (events : list event) : t :=
  fold_left step events this.

(** The states a game can be in: those some sequence of events
    leads to from the freshly constructed game. *)
Inductive reachable : t -> Prop :=
| reachable_new : reachable new
| reachable_step g e : reachable g -> reachable (step g e).

End Tick.

End Game.

(** * Vocabulary of the properties *)

(** A stand-in for [Math.sin] in the concrete runs below.  The sine
    only feeds the bob offset of collectibles, which nothing but the
    renderer reads. *)
Definition still : Q -> Q := fun _ => 0.


(** ** Sequences of calls on a player

    The methods of [Player] that change it, as calls that can follow
    one another in any order.  [UnlockDoubleJump] is the assignment
    [player.hasDoubleJump = true] the orchestrator makes from outside. *)

Module Calls.

Inductive call : Type :=
| Update (platforms : list Platform.t) (enemies : list Enemy.t)
| TakeDamage
| Heal (amount : Z)
| Jump
| MoveLeft
| MoveRight
| Stop
| UnlockDoubleJump.

Definition apply (p : Player.t) (c : call) : Player.t :=
  match c with
  | Update platforms enemies => fst (Player.update p platforms enemies)
  | TakeDamage => Player.takeDamage p
  | Heal amount => Player.heal amount p
  | Jump => Player.jump p
  | MoveLeft => Player.moveLeft p
  | MoveRight => Player.moveRight p
  | Stop => Player.stop p
  | UnlockDoubleJump => Player.with_hasDoubleJump true p
  end.

Definition run (p : Player.t) (cs : list call) : Player.t :=
  fold_left apply cs p.

(** A call of [jump] that takes the double-jump branch. *)
Definition isMidAirJump (p : Player.t) (c : call) : bool :=
  match c with
  | Jump =>
      negb (Player.isOnGround p) &&
      Player.hasDoubleJump p && Player.doubleJumpAvailable p
  | _ => false
  end.

(** A call of [update] that takes the player from airborne to
    grounded. *)
Definition isLanding (p : Player.t) (c : call) : bool :=
  match c with
  | Update _ _ =>
      negb (Player.isOnGround p) && Player.isOnGround (apply p c)
  | _ => false
  end.

(** How many calls of a sequence satisfy [f] in the state they are
    made in. *)
Fixpoint count (f : Player.t -> call -> bool) (p : Player.t)
    (cs : list call) : nat :=
  match cs with
  | [] => 0%nat
  | c :: cs' => ((if f p c then 1 else 0) + count f (apply p c) cs')%nat
  end.

End Calls.

(** ** Health *)

(** The player's health is within [0, maxHealth], and it is 0 exactly
    when the player is inactive. *)
Definition healthy (p : Player.t) : Prop :=
  (0 <= Player.health p <= Player.maxHealth p)%Z /\
  (Player.health p = 0%Z <-> Player.active p = false).

(** The way the orchestrator calls [takeDamage] and [heal]: behind
    [collidesWith], hence on an active player only, and healing by a
    whole, non-negative amount. *)
Definition guarded (p : Player.t) (c : Calls.call) : Prop :=
  match c with
  | Calls.TakeDamage => Player.active p = true
  | Calls.Heal amount => Player.active p = true /\ (0 <= amount)%Z
  | _ => True
  end.

Fixpoint allGuarded (p : Player.t) (cs : list Calls.call) : Prop :=
  match cs with
  | [] => True
  | c :: cs' => guarded p c /\ allGuarded (Calls.apply p c) cs'
  end.

(** ** Configured bounds *)

(** A platform lies within its oscillation range. *)
Definition inRange (pl : Platform.t) : Prop :=
  Platform.startX pl <= Platform.x pl /\
  Platform.x pl <= Platform.startX pl + Platform.moveRange pl.

(** A moving platform is set up so that it oscillates: positive speed,
    a direction of 1 or -1, and a position within its range. *)
Definition oscillates (pl : Platform.t) : Prop :=
  Platform.moving pl = true ->
  0 < Platform.moveSpeed pl /\
  (Platform.direction pl = 1 \/ Platform.direction pl = -1) /\
  inRange pl.

(** An enemy lies within its patrol bounds: its left edge no further
    left than [patrolStart], its right edge no further right than
    [patrolEnd]. *)
Definition inPatrol (e : Enemy.t) : Prop :=
  Enemy.patrolStart e <= Enemy.x e /\
  Enemy.x e <= Enemy.patrolEnd e - Enemy.width e.

(** An enemy is set up so that it patrols. *)
Definition patrols (e : Enemy.t) : Prop :=
  0 < Enemy.velocityX e /\
  (Enemy.direction e = 1 \/ Enemy.direction e = -1) /\
  inPatrol e.

(** ** What holds between ticks *)

(** The defeat bonus of an enemy is marked as paid exactly when the
    enemy is defeated. *)
Definition settled (e : Enemy.t) : Prop :=
  Enemy.scoreGiven e = Enemy.defeated e.

(** A collectible carries the value its constructor gave its type. *)
Definition priced (c : Collectible.t) : Prop :=
  Collectible.value c = Collectible.valueOf (Collectible.type c).

Record sound (g : Game.t) : Prop := {
  sound_platforms : Forall oscillates (Game.platforms g);
  sound_patrols : Forall patrols (Game.enemies g);
  sound_settled : Forall settled (Game.enemies g);
  sound_priced : Forall priced (Game.collectibles g);
  sound_healthy : healthy (Game.player g)
}.

(** ** What the methods leave alone *)

(** The fields of a player that enemy collisions, the bounds check and
    the invincibility countdown never write once the player no longer
    falls: vertical position and speed, the ground flag and the two
    double-jump flags. *)
Definition sameJumpState (p q : Player.t) : Prop :=
  Player.isOnGround q = Player.isOnGround p /\
  Player.doubleJumpAvailable q = Player.doubleJumpAvailable p /\
  Player.hasDoubleJump q = Player.hasDoubleJump p.


(** The stomp test of [checkEnemyCollisions] and the landing test of
    [checkPlatformCollisions], for a player overlapping a box whose top
    edge is at [top]: the player falls and its bottom edge before this
    step's displacement was no lower than [top] plus the tolerance. *)
Definition fellOnto (tolerance : Q) (p : Player.t) (top : Q) : Prop :=
  0 < Player.velocityY p /\
  Player.y p + Player.height p - Player.velocityY p <= top + tolerance.

(** Health, its ceiling and the active flag. *)
Definition sameVitals (p q : Player.t) : Prop :=
  Player.health q = Player.health p /\
  Player.maxHealth q = Player.maxHealth p /\
  Player.active q = Player.active p.

(** In the middle of a tick an enemy can be defeated and not yet paid,
    never paid and not defeated. *)
Definition paidOnlyIfDefeated (e : Enemy.t) : Prop :=
  Enemy.scoreGiven e = true -> Enemy.defeated e = true.

(** ** Runs between resets *)

(** The events that rebuild the level: the reset button and the R
    key. *)
Definition resets (e : Game.event) : bool :=
  match e with
  | Game.ResetButton => true
  | Game.KeyDown key => String.eqb key "r" || String.eqb key "R"
  | _ => false
  end.

Definition resetFree (events : list Game.event) : Prop :=
  Forall (fun e => resets e = false) events.

(** ** The ledger of defeat bonuses *)

(** What the enemy loop of a tick adds to the score for one enemy. *)
Definition bonusFor (e : Enemy.t) : Z := fst (Game.awardDefeat 0 e).

Definition sumZ (l : list Z) : Z := fold_right Z.add 0%Z l.

Section Ledger.

Variable Math_sin : Q -> Q.

(** The state of a tick when its enemy loop starts. *)
Definition beforeScoring (g : Game.t) : Game.t :=
  Game.updateCollectibles Math_sin
    (Game.updateEnemies
       (Game.updatePlatforms (Game.updatePlayer (Game.handleInput g)))).

(** The bonus a tick pays, enemy by enemy; nothing when the tick is
    cut short. *)
Definition tickBonuses (g : Game.t) : list Z :=
  if Game.gameOver g || Game.gameWon g
  then map (fun _ => 0%Z) (Game.enemies g)
  else map bonusFor (Game.enemies (beforeScoring g)).

(** The bonus an event pays, enemy by enemy: that of the tick it
    runs, if it runs one. *)
Definition stepBonuses (g : Game.t) (e : Game.event) : list Z :=
  match e with
  | Game.Frame =>
      if Game.isRunning g then tickBonuses g
      else map (fun _ => 0%Z) (Game.enemies g)
  | Game.StartButton =>
      if Game.isRunning g then map (fun _ => 0%Z) (Game.enemies g)
      else tickBonuses (Game.with_isRunning true g)
  | _ => map (fun _ => 0%Z) (Game.enemies g)
  end.

(** The bonus a run of events pays in total for the enemy at index
    [i]. *)
Fixpoint bonusPaid (i : nat) (g : Game.t) (events : list Game.event)
  : Z :=
  match events with
  | [] => 0%Z
  | e :: events' =>
      (nth i (stepBonuses g e) 0 +
       bonusPaid i (Game.step Math_sin g e) events')%Z
  end.

End Ledger.

(** ** The terminal flags *)

(** [gameOver] says that the player is inactive, [gameWon] that it is
    beyond x = 2250. *)
Definition flagsReflect (g : Game.t) : Prop :=
  Game.gameOver g = negb (Player.active (Game.player g)) /\
  Game.gameWon g = Qlt_bool 2250 (Player.x (Game.player g)).

(** The level as [reset] rebuilds it, before the tick that [start]
    runs on it: a new player, new collections, score 0, both flags
    cleared; the high score, the keys held and the canvas are those of
    the game that is reset. *)
Definition rebuilt (g : Game.t) : Game.t :=
  {| Game.canvas_width := Game.canvas_width g;
     Game.canvas_height := Game.canvas_height g;
     Game.cameraX := 0;
     Game.levelWidth := Game.levelWidth g;
     Game.player := Player.new 100 100;
     Game.platforms := Game.createPlatforms;
     Game.enemies := Game.createEnemies;
     Game.collectibles := Game.createCollectibles;
     Game.score := 0;
     Game.highScore := Game.highScore g;
     Game.level := 1;
     Game.keys := Game.keys g;
     Game.isRunning := true;
     Game.gameOver := false;
     Game.gameWon := false |}.

(** A short game in which the player defeats an enemy: the right
    arrow held for the first five ticks carries the falling player
    over the enemy that patrols the platform below the start; the
    player comes down on it in the twentieth tick, and ten more
    frames follow. *)
Definition stompRun : list Game.event :=
  Game.KeyDown "ArrowRight" :: Game.StartButton ::
  repeat Game.Frame 4 ++ Game.KeyUp "ArrowRight" :: repeat Game.Frame 25.

(** A game played to the last step before the goal: the right arrow
    held down almost throughout, two jumps on the way, and four
    collisions with enemies that leave the player one health point.
    After these events the player stands at x = 2248, no longer
    invincible, with the last ground enemy walking into it. *)
Definition approachRun : list Game.event :=
  Game.KeyDown "ArrowRight" :: Game.StartButton ::
  repeat Game.Frame 17 ++
  Game.KeyUp "ArrowRight" :: repeat Game.Frame 6 ++
  Game.KeyDown "ArrowRight" :: repeat Game.Frame 102 ++
  Game.KeyDown " " :: repeat Game.Frame 180 ++
  Game.KeyDown " " :: repeat Game.Frame 24 ++
  Game.KeyUp "ArrowRight" :: repeat Game.Frame 18 ++
  Game.KeyDown "ArrowRight" :: repeat Game.Frame 38 ++
  Game.KeyUp "ArrowRight" :: repeat Game.Frame 51 ++
  [Game.KeyDown "ArrowRight"].

(** ** How states are built

    Every state of the game comes from the constructed one by the
    primitive changes the event handlers are composed of: a tick, a
    write to the key table, a write to the running flag, a jump of the
    player while no flag is set, and the rebuilding of the level with
    score and level number reset. *)
Inductive built (Math_sin : Q -> Q) : Game.t -> Prop :=
| built_new : built Math_sin Game.new
| built_update g :
    built Math_sin g -> built Math_sin (Game.update Math_sin g)
| built_keys g keys :
    built Math_sin g -> built Math_sin (Game.with_keys keys g)
| built_running g b :
    built Math_sin g -> built Math_sin (Game.with_isRunning b g)
| built_jump g :
    built Math_sin g ->
    Game.gameOver g = false ->
    Game.gameWon g = false ->
    built Math_sin (Game.with_player (Player.jump (Game.player g)) g)
| built_level g :
    built Math_sin g ->
    built Math_sin
      (Game.initLevel (Game.with_level 1 (Game.with_score 0 g))).

(** ** The frame of the game *)

(** The player is 40 wide and inside the level, the canvas is 800 wide
    and the level 2400, and the camera is where [updateCamera] puts it
    for the player's position. *)
Definition framed (g : Game.t) : Prop :=
  Player.width (Game.player g) = 40 /\
  0 <= Player.x (Game.player g) /\
  Player.x (Game.player g) + 40 <= 2400 /\
  Game.canvas_width g = 800 /\
  Game.levelWidth g = 2400 /\
  Game.cameraX g =
    Qmax 0 (Qmin (Player.x (Game.player g) - 800 / 3) (2400 - 800)).

(** A call of [update]. *)
Definition isUpdate (c : Calls.call) : bool :=
  match c with
  | Calls.Update _ _ => true
  | _ => false
  end.

(** An enemy updated once per tick, against the platforms of each
    tick. *)
Definition enemyTicks (e : Enemy.t) (platforms : list (list Platform.t))
  : Enemy.t :=
  fold_left (fun e pls => Enemy.update pls e) platforms e.

(** ** Collected and paid *)

(** A collectible is inactive exactly when it has been collected. *)
Definition spent (c : Collectible.t) : Prop :=
  Collectible.collected c = negb (Entity.active (Collectible.entity c)).

(** What a collectible has contributed to the score: its value once
    it is collected. *)
Definition collectedValue (c : Collectible.t) : Z :=
  if Collectible.collected c then Collectible.value c else 0%Z.

(** What an enemy has contributed to the score: 50 once its bonus is
    marked as paid. *)
Definition paidBonus (e : Enemy.t) : Z :=
  if Enemy.scoreGiven e then 50%Z else 0%Z.

(** The score as the entities account for it. *)
Definition earned (g : Game.t) : Z :=
  (sumZ (map collectedValue (Game.collectibles g)) +
   sumZ (map paidBonus (Game.enemies g)))%Z.

(** The score is accounted for, and the level still holds the
    collectibles and enemies it was built with. *)
Definition accounted (g : Game.t) : Prop :=
  Game.score g = earned g /\
  map Collectible.value (Game.collectibles g) =
    map Collectible.value Game.createCollectibles /\
  length (Game.enemies g) = length Game.createEnemies.

(** Once a game has ended its score is on record. *)
Definition recorded (g : Game.t) : Prop :=
  (0 <= Game.highScore g <= 1300)%Z /\
  (Game.gameOver g = true \/ Game.gameWon g = true ->
   (Game.score g <= Game.highScore g)%Z).

(** A collectible that is the double-jump charm and has been
    collected. *)
Definition charmTaken (c : Collectible.t) : bool :=
  match Collectible.type c with
  | Collectible.doublejump => Collectible.collected c
  | _ => false
  end.

(** The player can double jump exactly when a charm of the level has
    been collected, and has the five health points of its
    constructor as maximum. *)
Definition charmed (g : Game.t) : Prop :=
  Player.hasDoubleJump (Game.player g) =
    existsb charmTaken (Game.collectibles g) /\
  Player.maxHealth (Game.player g) = 5%Z.

(** The level as the constructors lay it out: level number 1, and the
    32 platforms, 12 enemies and 40 collectibles of the three
    [create] methods. *)
Definition laidOut (g : Game.t) : Prop :=
  Game.level g = 1%Z /\
  length (Game.platforms g) = 32%nat /\
  length (Game.enemies g) = 12%nat /\
  length (Game.collectibles g) = 40%nat.

(** ** The shape of platforms *)

(** Platform [b] is platform [a] moved sideways at most: everything
    but [x] and [direction] is the same, and a static platform is the
    same altogether. *)
Definition sameShape (a b : Platform.t) : Prop :=
  Platform.y b = Platform.y a /\
  Platform.width b = Platform.width a /\
  Platform.height b = Platform.height a /\
  Entity.active (Platform.entity b) = Entity.active (Platform.entity a) /\
  Platform.moving b = Platform.moving a /\
  Platform.moveRange b = Platform.moveRange a /\
  Platform.moveSpeed b = Platform.moveSpeed a /\
  Platform.startX b = Platform.startX a /\
  (Platform.moving a = false -> b = a).

(** * Properties *)

(** ** Boolean tests on numbers *)

Lemma Qlt_bool_iff (a b : Q) : Qlt_bool a b = true <-> a < b.
Proof. unfold Qlt_bool, Qlt. apply Z.ltb_lt. Qed.

Lemma Qlt_bool_false (a b : Q) : Qlt_bool a b = false <-> b <= a.
Proof. unfold Qlt_bool, Qle. rewrite Z.ltb_ge. reflexivity. Qed.

Lemma Qle_bool_false (a b : Q) : Qle_bool a b = false <-> b < a.
Proof.
  rewrite <- not_true_iff_false, Qle_bool_iff. split; intros H; lra.
Qed.

(** Turn every boolean comparison among the hypotheses into the order
    fact it stands for. *)
Ltac qprop :=
  repeat match goal with
    | H : Qlt_bool _ _ = true |- _ => apply Qlt_bool_iff in H
    | H : Qlt_bool _ _ = false |- _ => apply Qlt_bool_false in H
    | H : Qle_bool _ _ = true |- _ => apply Qle_bool_iff in H
    | H : Qle_bool _ _ = false |- _ => apply Qle_bool_false in H
    end.

(** ** Collision primitive *)

(** The comparison [collidesWith] makes, as a proposition. *)
Lemma collidesWith_overlap (a b : Entity.t) :
  Entity.collidesWith a b = true <->
  Entity.active a = true /\ Entity.active b = true /\
  Entity.x a < Entity.x b + Entity.width b /\
  Entity.x a + Entity.width a > Entity.x b /\
  Entity.y a < Entity.y b + Entity.height b /\
  Entity.y a + Entity.height a > Entity.y b.
Proof.
  unfold Entity.collidesWith.
  rewrite !andb_true_iff, !Qlt_bool_iff. tauto.
Qed.

(** C4.  [collidesWith] is symmetric; it is false as soon as one side
    is inactive; it is true exactly when both sides are active and the
    boxes overlap strictly on both axes, so boxes that only touch along
    an edge do not collide.  The call yields the boolean alone: neither
    entity is changed. *)
Theorem collidesWith_symmetric_strict (a b : Entity.t) :
  Entity.collidesWith a b = Entity.collidesWith b a /\
  (Entity.active a = false \/ Entity.active b = false ->
   Entity.collidesWith a b = false) /\
  (Entity.collidesWith a b = true <->
   Entity.active a = true /\ Entity.active b = true /\
   Entity.x a < Entity.x b + Entity.width b /\
   Entity.x a + Entity.width a > Entity.x b /\
   Entity.y a < Entity.y b + Entity.height b /\
   Entity.y a + Entity.height a > Entity.y b) /\
  (Entity.x a + Entity.width a == Entity.x b \/
   Entity.x b + Entity.width b == Entity.x a \/
   Entity.y a + Entity.height a == Entity.y b \/
   Entity.y b + Entity.height b == Entity.y a ->
   Entity.collidesWith a b = false).
Proof.
  assert (Hiff : Entity.collidesWith a b = true <->
   Entity.active a = true /\ Entity.active b = true /\
   Entity.x a < Entity.x b + Entity.width b /\
   Entity.x a + Entity.width a > Entity.x b /\
   Entity.y a < Entity.y b + Entity.height b /\
   Entity.y a + Entity.height a > Entity.y b).
  { unfold Entity.collidesWith.
    rewrite !andb_true_iff, !Qlt_bool_iff. tauto. }
  split; [| split; [| split]].
  - unfold Entity.collidesWith.
    destruct (Entity.active a), (Entity.active b); simpl; try reflexivity.
    repeat match goal with
      | |- context [Qlt_bool ?u ?v] => destruct (Qlt_bool u v)
      end; reflexivity.
  - intros [H | H]; unfold Entity.collidesWith; rewrite H;
      [reflexivity | now destruct (Entity.active a)].
  - exact Hiff.
  - intros H. apply not_true_iff_false. rewrite Hiff.
    intros (_ & _ & H1 & H2 & H3 & H4).
    destruct H as [H | [H | [H | H]]]; lra.
Qed.

(** ** Loops *)

Lemma forEach_cons {S A : Type} (f : S -> A -> S * A) s a l :
  forEach f s (a :: l) =
  (fst (forEach f (fst (f s a)) l),
   snd (f s a) :: snd (forEach f (fst (f s a)) l)).
Proof.
  simpl. destruct (f s a) as [s1 a1]. simpl.
  destruct (forEach f s1 l). reflexivity.
Qed.

(** What every callback preserves of the captured state, the whole
    loop preserves. *)
Lemma forEach_state {S A : Type} (f : S -> A -> S * A) (P : S -> Prop) :
  (forall s a, P s -> P (fst (f s a))) ->
  forall l s, P s -> P (fst (forEach f s l)).
Proof.
  intros Hf l. induction l as [| a l IH]; intros s Hs; [exact Hs |].
  rewrite forEach_cons. simpl. apply IH, Hf, Hs.
Qed.

Lemma forEach_length {S A : Type} (f : S -> A -> S * A) l s :
  length (snd (forEach f s l)) = length l.
Proof.
  revert s. induction l as [| a l IH]; intros s; [reflexivity |].
  rewrite forEach_cons. simpl. now rewrite IH.
Qed.

(** Each element leaves the loop as its callback left it, from some
    state of the captured variables. *)
Lemma forEach_elements {S A : Type} (f : S -> A -> S * A) l s :
  Forall2 (fun a b => exists s', b = snd (f s' a)) l (snd (forEach f s l)).
Proof.
  revert s. induction l as [| a l IH]; intros s; [constructor |].
  rewrite forEach_cons. simpl. constructor; [now exists s | apply IH].
Qed.

Lemma fold_left_invariant {S A : Type} (f : S -> A -> S) (P : S -> Prop) :
  (forall s a, P s -> P (f s a)) ->
  forall l s, P s -> P (fold_left f l s).
Proof.
  intros Hf l. induction l as [| a l IH]; intros s Hs; [exact Hs |].
  simpl. apply IH, Hf, Hs.
Qed.

(** ** Player: what each method leaves alone *)

Lemma sameJumpState_refl p : sameJumpState p p.
Proof. repeat split. Qed.

Lemma sameJumpState_trans p q r :
  sameJumpState p q -> sameJumpState q r -> sameJumpState p r.
Proof. unfold sameJumpState. intuition congruence. Qed.

Lemma takeDamage_jumpState p : sameJumpState p (Player.takeDamage p).
Proof.
  unfold Player.takeDamage.
  destruct (negb (Player.invincible p)); [| apply sameJumpState_refl].
  cbn. destruct (_ <=? _)%Z; repeat split.
Qed.

Lemma hitEnemy_jumpState p e : sameJumpState p (fst (Player.hitEnemy p e)).
Proof.
  unfold Player.hitEnemy.
  destruct (Entity.collidesWith _ _); [| apply sameJumpState_refl].
  destruct (_ && _); [repeat split | apply takeDamage_jumpState].
Qed.

Lemma checkEnemyCollisions_jumpState p es :
  sameJumpState p (fst (Player.checkEnemyCollisions p es)).
Proof.
  unfold Player.checkEnemyCollisions.
  destruct (Player.invincible p); [apply sameJumpState_refl |].
  apply (forEach_state Player.hitEnemy (sameJumpState p)).
  - intros s a Hs. eapply sameJumpState_trans; [exact Hs |].
    apply hitEnemy_jumpState.
  - apply sameJumpState_refl.
Qed.

Lemma constrainToBounds_jumpState p :
  sameJumpState p (Player.constrainToBounds p).
Proof.
  unfold Player.constrainToBounds.
  repeat match goal with
    | |- context [if ?c then _ else _] => destruct c
    end; repeat split.
Qed.

Lemma tickInvincibility_jumpState p :
  sameJumpState p (Player.tickInvincibility p).
Proof.
  unfold Player.tickInvincibility.
  destruct (Player.invincible p); [| apply sameJumpState_refl].
  cbn. destruct (_ <=? _)%Z; repeat split.
Qed.

Lemma hitPlatform_doubleJump p pl :
  Player.doubleJumpAvailable (Player.hitPlatform p pl) =
    Player.doubleJumpAvailable p /\
  Player.hasDoubleJump (Player.hitPlatform p pl) = Player.hasDoubleJump p.
Proof.
  unfold Player.hitPlatform.
  repeat match goal with
    | |- context [if ?c then _ else _] => destruct c
    end; split; reflexivity.
Qed.

Lemma checkPlatformCollisions_doubleJump p pls :
  Player.doubleJumpAvailable (Player.checkPlatformCollisions p pls) =
    Player.doubleJumpAvailable p /\
  Player.hasDoubleJump (Player.checkPlatformCollisions p pls) =
    Player.hasDoubleJump p.
Proof.
  unfold Player.checkPlatformCollisions.
  apply (fold_left_invariant Player.hitPlatform
           (fun q => Player.doubleJumpAvailable q =
                       Player.doubleJumpAvailable p /\
                     Player.hasDoubleJump q = Player.hasDoubleJump p)).
  - intros s a [H1 H2].
    destruct (hitPlatform_doubleJump s a) as [H3 H4].
    split; congruence.
  - split; reflexivity.
Qed.

(** [update] refills the double-jump charge on the tick that takes the
    player from airborne to grounded, and on no other. *)
Lemma update_doubleJump p pls es :
  let q := fst (Player.update p pls es) in
  Player.doubleJumpAvailable q =
    Player.doubleJumpAvailable p ||
    (negb (Player.isOnGround p) && Player.isOnGround q) /\
  Player.hasDoubleJump q = Player.hasDoubleJump p.
Proof.
  unfold Player.update.
  pose proof (checkEnemyCollisions_jumpState (Player.move p pls) es) as H4.
  destruct (Player.checkEnemyCollisions (Player.move p pls) es)
    as [p4 es'] eqn:E4.
  cbn [fst snd] in *.
  pose proof (constrainToBounds_jumpState p4) as H5.
  pose proof (tickInvincibility_jumpState (Player.constrainToBounds p4))
    as H6.
  pose proof (sameJumpState_trans _ _ _ H4
                (sameJumpState_trans _ _ _ H5 H6)) as (Hg & Hd & Hh).
  rewrite Hg, Hd, Hh. clear.
  unfold Player.move.
  match goal with
  | |- context [Player.checkPlatformCollisions ?p1 pls] =>
      destruct (checkPlatformCollisions_doubleJump p1 pls) as [Hd2 Hh2];
      generalize dependent (Player.checkPlatformCollisions p1 pls)
  end.
  cbn. intros p2 Hd2 Hh2.
  destruct (Player.isOnGround p2) eqn:E2, (Player.isOnGround p); cbn;
    rewrite ?E2, ?Hd2, ?Hh2;
    destruct (Player.doubleJumpAvailable p); split; reflexivity.
Qed.

(** ** Jumping *)

Lemma charge_only_on_landing p c :
  Player.doubleJumpAvailable (Calls.apply p c) = true ->
  Player.doubleJumpAvailable p = true \/ Calls.isLanding p c = true.
Proof.
  destruct c; cbn [Calls.apply Calls.isLanding]; try (cbn; tauto).
  - destruct (update_doubleJump p platforms enemies) as [Hd _].
    cbn zeta in Hd. rewrite Hd, orb_true_iff. tauto.
  - destruct (takeDamage_jumpState p) as (_ & Hd & _).
    rewrite Hd. tauto.
  - unfold Player.jump. destruct (Player.isOnGround p); [cbn; tauto |].
    destruct (_ && _); cbn; [discriminate | tauto].
Qed.

Lemma midAirJump_spends_charge p c :
  Calls.isMidAirJump p c = true ->
  Player.doubleJumpAvailable p = true /\
  Player.doubleJumpAvailable (Calls.apply p c) = false.
Proof.
  destruct c; cbn [Calls.isMidAirJump Calls.apply]; try discriminate.
  rewrite !andb_true_iff, negb_true_iff. intros [[Hg Hh] Hd].
  unfold Player.jump. rewrite Hg, Hh, Hd. split; reflexivity.
Qed.

Lemma jump_count_bound (cs : list Calls.call) : forall p,
  (Calls.count Calls.isMidAirJump p cs <=
   Calls.count Calls.isLanding p cs +
   (if Player.doubleJumpAvailable p then 1 else 0))%nat.
Proof.
  induction cs as [| c cs IH]; intros p; [simpl; lia |].
  cbn [Calls.count]. specialize (IH (Calls.apply p c)).
  pose proof (charge_only_on_landing p c) as Hl.
  pose proof (midAirJump_spends_charge p c) as Hm.
  destruct (Calls.isMidAirJump p c).
  - destruct Hm as [Hd Hd']; [reflexivity |].
    rewrite Hd' in IH. rewrite Hd. lia.
  - destruct (Player.doubleJumpAvailable (Calls.apply p c)).
    + destruct Hl as [Hl | Hl]; [reflexivity | |]; rewrite Hl; lia.
    + lia.
Qed.

(** C7.  [jump] from the ground applies the impulse [-jumpPower],
    clears the ground flag and keeps the double-jump charge; in the air
    with the charm and the charge it applies the same impulse and
    spends the charge; in every other state it changes nothing.  The
    charge is set by [update] exactly on the tick that takes the player
    from airborne to grounded and by no other call, so in any sequence
    of calls the mid-air jumps number at most the landings, plus one if
    the charge was there at the start. *)
Theorem jump_and_double_jump (p : Player.t) :
  (Player.isOnGround p = true ->
   Player.jump p =
     Player.with_isOnGround false
       (Player.with_velocityY (- Player.jumpPower p) p) /\
   Player.velocityY (Player.jump p) = - Player.jumpPower p /\
   Player.isOnGround (Player.jump p) = false /\
   Player.doubleJumpAvailable (Player.jump p) =
     Player.doubleJumpAvailable p) /\
  (Player.isOnGround p = false ->
   Player.hasDoubleJump p = true ->
   Player.doubleJumpAvailable p = true ->
   Player.jump p =
     Player.with_doubleJumpAvailable false
       (Player.with_velocityY (- Player.jumpPower p) p) /\
   Player.velocityY (Player.jump p) = - Player.jumpPower p /\
   Player.doubleJumpAvailable (Player.jump p) = false) /\
  (Player.isOnGround p = false ->
   Player.hasDoubleJump p = false \/ Player.doubleJumpAvailable p = false ->
   Player.jump p = p) /\
  (forall pls es,
     Player.doubleJumpAvailable (fst (Player.update p pls es)) =
       Player.doubleJumpAvailable p ||
       (negb (Player.isOnGround p) &&
        Player.isOnGround (fst (Player.update p pls es)))) /\
  (forall c,
     Player.doubleJumpAvailable (Calls.apply p c) = true ->
     Player.doubleJumpAvailable p = true \/ Calls.isLanding p c = true) /\
  (forall cs,
     (Calls.count Calls.isMidAirJump p cs <=
      Calls.count Calls.isLanding p cs +
      (if Player.doubleJumpAvailable p then 1 else 0))%nat).
Proof.
  repeat apply conj.
  - intros Hg. unfold Player.jump. rewrite Hg. repeat split.
  - intros Hg Hh Hd. unfold Player.jump. rewrite Hg, Hh, Hd.
    repeat split.
  - intros Hg H. unfold Player.jump. rewrite Hg.
    destruct H as [H | H]; rewrite H; [reflexivity |].
    now rewrite andb_false_r.
  - intros pls es. apply (update_doubleJump p pls es).
  - intros c. apply charge_only_on_landing.
  - intros cs. apply jump_count_bound.
Qed.

(** C7 at the freshly built player: grounded, it jumps with impulse
    [-15]; airborne without the charm, [jump] leaves it as it is. *)
Lemma jump_and_double_jump_witness :
  Player.velocityY
    (Player.jump (Player.with_isOnGround true (Player.new 100 510))) = - 15 /\
  Player.jump (Player.new 100 100) = Player.new 100 100.
Proof.
  split.
  - apply (proj1 (jump_and_double_jump
                    (Player.with_isOnGround true (Player.new 100 510)))).
    reflexivity.
  - apply (proj1 (proj2 (proj2 (jump_and_double_jump (Player.new 100 100))))).
    + reflexivity.
    + left. reflexivity.
Defined.

(** ** Standing on a platform *)











(** ** Enemy collisions *)

Lemma hitEnemy_stomp p e :
  Entity.collidesWith (Player.entity p) (Enemy.entity e) = true ->
  fellOnto 10 p (Enemy.y e) ->
  Player.hitEnemy p e = (Player.with_velocityY (-10) p, Enemy.defeat e).
Proof.
  intros Hc [Hv Hb]. unfold Player.hitEnemy. rewrite Hc.
  apply Qlt_bool_iff in Hv. apply Qle_bool_iff in Hb.
  now rewrite Hv, Hb.
Qed.

Lemma hitEnemy_damage p e :
  Entity.collidesWith (Player.entity p) (Enemy.entity e) = true ->
  ~ fellOnto 10 p (Enemy.y e) ->
  Player.hitEnemy p e = (Player.takeDamage p, e).
Proof.
  intros Hc Hn. unfold Player.hitEnemy. rewrite Hc.
  destruct (Qlt_bool 0 _ && Qle_bool _ _) eqn:E; [| reflexivity].
  exfalso. apply Hn. apply andb_true_iff in E. destruct E as [E1 E2].
  split; [now apply Qlt_bool_iff | now apply Qle_bool_iff].
Qed.

Lemma hitPlatform_lands p pl :
  Player.isOnGround p = false ->
  Player.isOnGround (Player.hitPlatform p pl) = true ->
  Entity.collidesWith (Player.entity p) (Platform.entity pl) = true /\
  fellOnto 5 p (Platform.y pl).
Proof.
  intros Hg. unfold Player.hitPlatform.
  destruct (Entity.collidesWith _ _); [| congruence].
  destruct (Qlt_bool 0 _ && Qle_bool _ _) eqn:E.
  - intros _. apply andb_true_iff in E. destruct E as [E1 E2].
    repeat split; [now apply Qlt_bool_iff | now apply Qle_bool_iff].
  - repeat match goal with
      | |- context [if ?c then _ else _] => destruct c
      end; cbn; congruence.
Qed.

(** C3, as the code has it.  Enemy collisions are skipped while the
    player is invincible, and otherwise resolved enemy by enemy.  For
    an overlapping enemy: if the player is falling and its bottom edge
    before this step's displacement was no lower than the enemy's top
    edge plus 10, the enemy is defeated and the player's vertical speed
    becomes -10 (upwards); in every other overlap case [takeDamage] is
    applied; without overlap nothing happens.  The tolerance 10 is
    deeper than the 5 of platform landings: whatever lands on a box
    also stomps an enemy with that box. *)
Theorem enemy_collisions_resolved
    (p : Player.t) (e : Enemy.t) (es : list Enemy.t) :
  (Player.invincible p = true ->
   Player.checkEnemyCollisions p es = (p, es)) /\
  (Player.invincible p = false ->
   Player.checkEnemyCollisions p es = forEach Player.hitEnemy p es) /\
  (Entity.collidesWith (Player.entity p) (Enemy.entity e) = true ->
   fellOnto 10 p (Enemy.y e) ->
   Player.hitEnemy p e = (Player.with_velocityY (-10) p, Enemy.defeat e) /\
   Enemy.defeated (snd (Player.hitEnemy p e)) = true /\
   Player.velocityY (fst (Player.hitEnemy p e)) < 0) /\
  (Entity.collidesWith (Player.entity p) (Enemy.entity e) = true ->
   ~ fellOnto 10 p (Enemy.y e) ->
   Player.hitEnemy p e = (Player.takeDamage p, e)) /\
  (Entity.collidesWith (Player.entity p) (Enemy.entity e) = false ->
   Player.hitEnemy p e = (p, e)) /\
  (forall pl,
     Platform.entity pl = Enemy.entity e ->
     Player.isOnGround p = false ->
     Player.isOnGround (Player.hitPlatform p pl) = true ->
     Enemy.defeated (snd (Player.hitEnemy p e)) = true).
Proof.
  repeat apply conj.
  - intros Hi. unfold Player.checkEnemyCollisions. now rewrite Hi.
  - intros Hi. unfold Player.checkEnemyCollisions. now rewrite Hi.
  - intros Hc Hf. rewrite (hitEnemy_stomp p e Hc Hf). cbn.
    repeat split.
  - apply hitEnemy_damage.
  - intros Hc. unfold Player.hitEnemy. now rewrite Hc.
  - intros pl Hpl Hg Hl.
    destruct (hitPlatform_lands p pl Hg Hl) as [Hc [Hv Hb]].
    rewrite Hpl in Hc. rewrite hitEnemy_stomp; [reflexivity | exact Hc |].
    split; [exact Hv |].
    unfold Platform.y in Hb. rewrite Hpl in Hb. fold (Enemy.y e) in Hb.
    lra.
Qed.

(** C3 on a falling player whose bottom edge was 4 above the top of the
    first ground enemy: the enemy is defeated, the player bounces. *)
Lemma enemy_collisions_resolved_witness :
  let p := Player.with_velocityY 6 (Player.new 200 477) in
  let e := Enemy.new 200 515 0 380 in
  Enemy.defeated (snd (Player.hitEnemy p e)) = true /\
  Player.velocityY (fst (Player.hitEnemy p e)) < 0.
Proof.
  intros p e.
  apply (proj1 (proj2 (proj2 (enemy_collisions_resolved p e [])))).
  - reflexivity.
  - split; [reflexivity | apply Qle_bool_iff; reflexivity].
Defined.

(** C3 as stated fails: the stomp tolerance is not shallower than the
    landing tolerance.  A player falling at speed 6 whose bottom edge
    was 8 below the top of a box does not land on a platform with that
    box, yet defeats an enemy with that box. *)
Lemma stomp_tolerance_counterexample :
  let p := Player.with_velocityY 6 (Player.new 200 489) in
  let e := Enemy.new 200 515 0 380 in
  let pl := Platform.mk (Enemy.entity e) false 0 0 200 1 in
  Player.y p + Player.height p - Player.velocityY p == Enemy.y e + 8 /\
  Entity.collidesWith (Player.entity p) (Enemy.entity e) = true /\
  Player.isOnGround (Player.hitPlatform p pl) = false /\
  Enemy.defeated (snd (Player.hitEnemy p e)) = true /\
  ~ (forall (q : Player.t) (f : Enemy.t) (l : Platform.t),
       Platform.entity l = Enemy.entity f ->
       Enemy.defeated f = false ->
       Enemy.defeated (snd (Player.hitEnemy q f)) = true ->
       Player.isOnGround (Player.hitPlatform q l) = true).
Proof.
  intros p e pl. repeat split.
  intros H. specialize (H p e pl eq_refl eq_refl eq_refl).
  discriminate H.
Qed.

(** ** Patrols and oscillation *)

Lemma forEach_Forall {S A : Type} (f : S -> A -> S * A) (P : A -> Prop) :
  (forall s a, P a -> P (snd (f s a))) ->
  forall l s, Forall P l -> Forall P (snd (forEach f s l)).
Proof.
  intros Hf l. induction l as [| a l IH]; intros s Hl; [constructor |].
  rewrite forEach_cons. simpl. inversion Hl; subst.
  constructor; [now apply Hf | now apply IH].
Qed.

Lemma Forall_map_preserved {A : Type} (f : A -> A) (P : A -> Prop) l :
  (forall a, P a -> P (f a)) -> Forall P l -> Forall P (map f l).
Proof.
  intros Hf Hl. induction Hl; simpl; constructor; auto.
Qed.

(** One [update] of a moving platform whose range is not negative
    leaves it within the range; reaching or passing the far bound
    clamps it there and sends it back, reaching or passing the anchor
    clamps it there and sends it forth; in between it just moves. *)
Lemma Platform_update_clamps (pl : Platform.t) :
  Platform.moving pl = true ->
  0 <= Platform.moveRange pl ->
  let nx := Platform.x pl + Platform.moveSpeed pl * Platform.direction pl in
  let pl' := Platform.update pl in
  inRange pl' /\
  (Platform.startX pl + Platform.moveRange pl <= nx ->
   Platform.x pl' = Platform.startX pl + Platform.moveRange pl /\
   Platform.direction pl' = -1) /\
  (nx < Platform.startX pl + Platform.moveRange pl ->
   nx <= Platform.startX pl ->
   Platform.x pl' = Platform.startX pl /\ Platform.direction pl' = 1) /\
  (nx < Platform.startX pl + Platform.moveRange pl ->
   Platform.startX pl < nx ->
   Platform.x pl' = nx /\ Platform.direction pl' = Platform.direction pl) /\
  Platform.startX pl' = Platform.startX pl /\
  Platform.moveRange pl' = Platform.moveRange pl /\
  Platform.moveSpeed pl' = Platform.moveSpeed pl /\
  Platform.moving pl' = Platform.moving pl.
Proof.
  intros Hm Hr nx pl'. subst pl'. unfold Platform.update. rewrite Hm.
  destruct pl as [[lx ly lw lh lc la] mv mr ms sx dir].
  unfold inRange, Platform.x in *. cbn in *. subst nx.
  destruct (Qle_bool (sx + mr) (lx + ms * dir)) eqn:E1;
    [| destruct (Qle_bool (lx + ms * dir) sx) eqn:E2];
    qprop; cbn; repeat split; intros; try lra; try assumption.
Qed.

(** A platform set up to oscillate stays so, and a clamp reverses its
    direction. *)
Lemma Platform_update_oscillates (pl : Platform.t) :
  oscillates pl ->
  oscillates (Platform.update pl) /\
  (Platform.moving pl = true ->
   Platform.x (Platform.update pl) <>
     Platform.x pl + Platform.moveSpeed pl * Platform.direction pl ->
   Platform.direction (Platform.update pl) == - Platform.direction pl).
Proof.
  intros Hw. unfold oscillates in *.
  destruct (Platform.moving pl) eqn:Hm.
  2:{ unfold Platform.update. rewrite Hm. split; [| discriminate].
      rewrite Hm. discriminate. }
  destruct (Hw eq_refl) as (Hs & Hd & Hlo & Hhi).
  assert (Hr : 0 <= Platform.moveRange pl) by lra.
  destruct (Platform_update_clamps pl Hm Hr)
    as (Hin & Hup & Hdown & Hmid & Hsx & Hmr & Hms & Hmv).
  cbn zeta in *.
  set (nx := Platform.x pl + Platform.moveSpeed pl * Platform.direction pl)
    in *.
  split.
  - intros _. rewrite Hms. repeat split; try apply Hin; try exact Hs.
    destruct (Qlt_le_dec nx (Platform.startX pl + Platform.moveRange pl))
      as [Hlt | Hge].
    + destruct (Qlt_le_dec (Platform.startX pl) nx) as [Hgt | Hle].
      * destruct (Hmid Hlt Hgt) as [_ ->]. exact Hd.
      * destruct (Hdown Hlt Hle) as [_ ->]. now left.
    + destruct (Hup Hge) as [_ ->]. now right.
  - intros _ Hne.
    destruct (Qlt_le_dec nx (Platform.startX pl + Platform.moveRange pl))
      as [Hlt | Hge].
    + destruct (Qlt_le_dec (Platform.startX pl) nx) as [Hgt | Hle].
      * destruct (Hmid Hlt Hgt) as [Hx _]. contradiction.
      * destruct (Hdown Hlt Hle) as [_ ->].
        subst nx. destruct Hd as [Hd | Hd]; rewrite Hd in *;
          [lra | reflexivity].
    + destruct (Hup Hge) as [_ ->].
      subst nx. destruct Hd as [Hd | Hd]; rewrite Hd in *;
        [reflexivity | lra].
Qed.

(** Platforms only ever move an enemy vertically. *)
Lemma Enemy_checkPlatformCollisions_vertical (e : Enemy.t) pls :
  exists y' vy',
    Enemy.checkPlatformCollisions e pls =
    Enemy.with_velocityY vy' (Enemy.with_y y' e).
Proof.
  unfold Enemy.checkPlatformCollisions.
  apply (fold_left_invariant Enemy.landOn
           (fun s => exists y' vy',
                s = Enemy.with_velocityY vy' (Enemy.with_y y' e))).
  - intros s pl (y' & vy' & ->). unfold Enemy.landOn.
    destruct (Entity.collidesWith _ _); [| now exists y', vy'].
    destruct (_ && _); [| now exists y', vy'].
    eexists _, _. reflexivity.
  - exists (Enemy.y e), (Enemy.velocityY e).
    destruct e as [[] ]. reflexivity.
Qed.

(** A defeated enemy only counts frames and finally deactivates. *)
Lemma Enemy_update_defeated (e : Enemy.t) pls :
  Enemy.defeated e = true ->
  Enemy.update pls e =
    (if (30 <? Enemy.defeatTimer e + 1)%Z
     then Enemy.with_active false
            (Enemy.with_defeatTimer (Enemy.defeatTimer e + 1) e)
     else Enemy.with_defeatTimer (Enemy.defeatTimer e + 1) e).
Proof. intros Hd. unfold Enemy.update. now rewrite Hd. Qed.

(** One [update] of an enemy that is not defeated and whose patrol
    bounds leave room for it puts it within the bounds; reaching or
    passing the left bound clamps it there and turns it right, reaching
    or passing the right bound clamps it there and turns it left; in
    between it just moves. *)
Lemma Enemy_update_clamps (e : Enemy.t) pls :
  Enemy.defeated e = false ->
  Enemy.patrolStart e <= Enemy.patrolEnd e - Enemy.width e ->
  let nx := Enemy.x e + Enemy.velocityX e * Enemy.direction e in
  let e' := Enemy.update pls e in
  inPatrol e' /\
  (nx <= Enemy.patrolStart e ->
   Enemy.x e' = Enemy.patrolStart e /\ Enemy.direction e' = 1) /\
  (Enemy.patrolStart e < nx ->
   Enemy.patrolEnd e <= nx + Enemy.width e ->
   Enemy.x e' = Enemy.patrolEnd e - Enemy.width e /\
   Enemy.direction e' = -1) /\
  (Enemy.patrolStart e < nx ->
   nx + Enemy.width e < Enemy.patrolEnd e ->
   Enemy.x e' = nx /\ Enemy.direction e' = Enemy.direction e) /\
  Enemy.patrolStart e' = Enemy.patrolStart e /\
  Enemy.patrolEnd e' = Enemy.patrolEnd e /\
  Enemy.width e' = Enemy.width e /\
  Enemy.velocityX e' = Enemy.velocityX e /\
  Enemy.defeated e' = Enemy.defeated e /\
  Enemy.scoreGiven e' = Enemy.scoreGiven e.
Proof.
  intros Hd Hroom nx e'. subst e'. unfold Enemy.update. rewrite Hd.
  match goal with
  | |- context [Enemy.checkPlatformCollisions ?a pls] =>
      destruct (Enemy_checkPlatformCollisions_vertical a pls)
        as (y' & vy' & ->)
  end.
  destruct e as [[ex ey ew eh ec ea] vx vy g ps pe dir df dt sg].
  unfold inPatrol, Enemy.x, Enemy.width in *. cbn in *. subst nx.
  destruct (Qle_bool (ex + vx * dir) ps) eqn:E1;
    [| destruct (Qle_bool pe (ex + vx * dir + ew)) eqn:E2];
    qprop; cbn; repeat split; intros; try lra; try assumption.
Qed.

(** An enemy set up to patrol stays so, and a clamp reverses its
    direction. *)
Lemma Enemy_update_patrols (e : Enemy.t) pls :
  patrols e ->
  patrols (Enemy.update pls e) /\
  (Enemy.defeated e = false ->
   Enemy.x (Enemy.update pls e) <>
     Enemy.x e + Enemy.velocityX e * Enemy.direction e ->
   Enemy.direction (Enemy.update pls e) == - Enemy.direction e).
Proof.
  intros (Hs & Hdir & Hlo & Hhi).
  destruct (Enemy.defeated e) eqn:Hd.
  { rewrite (Enemy_update_defeated e pls Hd). split; [| discriminate].
    destruct (_ <? _)%Z; repeat split; assumption. }
  assert (Hroom : Enemy.patrolStart e <= Enemy.patrolEnd e - Enemy.width e)
    by lra.
  destruct (Enemy_update_clamps e pls Hd Hroom)
    as (Hin & Hleft & Hright & Hmid & Hps & Hpe & Hw & Hvx & _).
  cbn zeta in *.
  set (nx := Enemy.x e + Enemy.velocityX e * Enemy.direction e) in *.
  split.
  - unfold patrols. rewrite Hvx. repeat split; try apply Hin; try exact Hs.
    destruct (Qlt_le_dec (Enemy.patrolStart e) nx) as [Hgt | Hle].
    + destruct (Qlt_le_dec (nx + Enemy.width e) (Enemy.patrolEnd e))
        as [Hlt | Hge].
      * destruct (Hmid Hgt Hlt) as [_ ->]. exact Hdir.
      * destruct (Hright Hgt Hge) as [_ ->]. now right.
    + destruct (Hleft Hle) as [_ ->]. now left.
  - intros _ Hne.
    destruct (Qlt_le_dec (Enemy.patrolStart e) nx) as [Hgt | Hle].
    + destruct (Qlt_le_dec (nx + Enemy.width e) (Enemy.patrolEnd e))
        as [Hlt | Hge].
      * destruct (Hmid Hgt Hlt) as [Hx _]. contradiction.
      * destruct (Hright Hgt Hge) as [_ ->].
        subst nx. destruct Hdir as [Hdir | Hdir]; rewrite Hdir in *;
          [reflexivity | lra].
    + destruct (Hleft Hle) as [_ ->].
      subst nx. destruct Hdir as [Hdir | Hdir]; rewrite Hdir in *;
        [lra | reflexivity].
Qed.

(** ** One tick, field by field *)

Section TickFields.

Variable Math_sin : Q -> Q.

(** [handleInput] writes the player's horizontal speed, nothing
    else. *)
Lemma handleInput_fields (g : Game.t) :
  exists v,
    Game.handleInput g = Game.with_player
                           (Player.with_velocityX v (Game.player g)) g.
Proof.
  unfold Game.handleInput.
  destruct (Game.gameOver g || Game.gameWon g).
  - exists (Player.velocityX (Game.player g)).
    destruct g as [? ? ? ? [[] ] ]. reflexivity.
  - destruct (Game.pressed _ _); [eexists; reflexivity |].
    destruct (Game.pressed _ _); eexists; reflexivity.
Qed.

(** The state after a tick that is not cut short, in terms of the
    state before: the player as commanded by the keys, run through
    its own [update]; the platforms moved; the enemies as the player
    left them, moved against the new platforms, then marked as paid;
    the collectibles animated and collected; the score after both
    scoring loops; the two terminal flags and the high score from
    the two closing checks. *)
Lemma update_fields (g : Game.t) :
  Game.gameOver g = false ->
  Game.gameWon g = false ->
  let p0 := Game.player (Game.handleInput g) in
  let pu := Player.update p0 (Game.platforms g) (Game.enemies g) in
  let pls := map Platform.update (Game.platforms g) in
  let es := map (Enemy.update pls) (snd pu) in
  let col := forEach (Game.pickUp Math_sin) (fst pu, Game.score g)
               (Game.collectibles g) in
  let aw := forEach Game.awardDefeat (snd (fst col)) es in
  let g' := Game.update Math_sin g in
  let ended :=
    negb (Player.active (Game.player g')) ||
    Qlt_bool 2250 (Player.x (Game.player g')) in
  Game.player g' = fst (fst col) /\
  Game.platforms g' = pls /\
  Game.enemies g' = snd aw /\
  Game.collectibles g' = snd col /\
  Game.score g' = fst aw /\
  Game.gameOver g' = negb (Player.active (Game.player g')) /\
  Game.gameWon g' = Qlt_bool 2250 (Player.x (Game.player g')) /\
  Game.highScore g' =
    (if ended then Z.max (Game.highScore g) (Game.score g')
     else Game.highScore g) /\
  Game.keys g' = Game.keys g /\
  Game.isRunning g' = Game.isRunning g /\
  Game.level g' = Game.level g.
Proof.
  intros Hover Hwon. cbn zeta.
  unfold Game.update. rewrite Hover, Hwon. cbn [orb].
  destruct (handleInput_fields g) as [v ->].
  destruct g as [cw ch cam lw pl pls es cs sc hs lv ks ir go gw].
  cbn in Hover, Hwon. subst go gw.
  unfold Game.updatePlayer, Game.updatePlatforms, Game.updateEnemies,
    Game.updateCollectibles, Game.awardDefeats, Game.updateCamera.
  cbn -[Player.update forEach map Qmax Qmin Qlt_bool Z.max Z.ltb].
  destruct (Player.update _ _ _) as [p es1].
  cbn -[Player.update forEach map Qmax Qmin Qlt_bool Z.max Z.ltb].
  destruct (forEach (Game.pickUp Math_sin) _ _) as [[p' sc1] cs1].
  cbn -[Player.update forEach map Qmax Qmin Qlt_bool Z.max Z.ltb].
  destruct (forEach Game.awardDefeat _ _) as [sc2 es2].
  unfold Game.checkWin, Game.checkGameOver.
  cbn -[Player.update forEach map Qmax Qmin Qlt_bool Z.max Z.ltb].
  destruct (Player.active p') eqn:Ea;
    cbn -[Player.update forEach map Qmax Qmin Qlt_bool Z.max Z.ltb];
    rewrite ?Ea;
    destruct (Qlt_bool 2250 (Player.x p')) eqn:Ex;
    cbn -[Player.update forEach map Qmax Qmin Qlt_bool Z.max Z.ltb];
    repeat match goal with
      | |- context [(?a <? ?b)%Z] =>
          destruct (Z.ltb_spec a b);
          cbn -[Player.update forEach map Qmax Qmin Qlt_bool Z.max Z.ltb]
      end;
    rewrite ?Ea, ?Ex;
    cbn -[Player.update forEach map Qmax Qmin Qlt_bool Z.max Z.ltb];
    repeat split; rewrite ?Ea, ?Ex; cbn [negb orb]; try reflexivity; lia.
Qed.

End TickFields.

(** ** Health *)

Ltac case_ifs :=
  repeat match goal with
    | |- context [if ?c then _ else _] => destruct c
    end.

Lemma sameVitals_healthy p q : sameVitals p q -> healthy p -> healthy q.
Proof.
  unfold sameVitals, healthy. intros (-> & -> & ->). tauto.
Qed.

Lemma hitPlatform_vitals p pl : sameVitals p (Player.hitPlatform p pl).
Proof. unfold Player.hitPlatform. case_ifs; repeat split. Qed.

Lemma move_vitals p pls : sameVitals p (Player.move p pls).
Proof.
  unfold Player.move.
  match goal with
  | |- context [Player.checkPlatformCollisions ?a pls] =>
      assert (H : sameVitals p (Player.checkPlatformCollisions a pls))
  end.
  { unfold Player.checkPlatformCollisions.
    apply (fold_left_invariant Player.hitPlatform (sameVitals p)).
    - intros s a (H1 & H2 & H3).
      destruct (hitPlatform_vitals s a) as (H4 & H5 & H6).
      repeat split; congruence.
    - repeat split. }
  destruct H as (H1 & H2 & H3). case_ifs; repeat split; assumption.
Qed.

Lemma takeDamage_healthy p :
  Player.active p = true -> healthy p -> healthy (Player.takeDamage p).
Proof.
  intros Ha [Hr Hz]. unfold Player.takeDamage.
  destruct (negb (Player.invincible p)); [| now split].
  assert (Player.health p <> 0%Z) by (rewrite Hz; congruence).
  cbn. destruct (Z.leb_spec (Player.health p - 1) 0);
    unfold healthy, Player.active in *; cbn; split; try lia;
    split; intros; try lia; congruence.
Qed.

Lemma heal_healthy p amount :
  Player.active p = true -> (0 <= amount)%Z ->
  healthy p -> healthy (Player.heal amount p).
Proof.
  intros Ha Hn [Hr Hz].
  assert (Player.health p <> 0%Z) by (rewrite Hz; congruence).
  unfold healthy, Player.heal, Player.active in *. cbn.
  split; [lia |]. split; intros; [lia | congruence].
Qed.

Lemma hitEnemy_healthy p e :
  healthy p -> healthy (fst (Player.hitEnemy p e)).
Proof.
  intros Hp. unfold Player.hitEnemy.
  destruct (Entity.collidesWith _ _) eqn:Hc; [| exact Hp].
  apply collidesWith_overlap in Hc. destruct Hc as (Ha & _).
  destruct (_ && _); [exact Hp | now apply takeDamage_healthy].
Qed.

Lemma checkEnemyCollisions_healthy p es :
  healthy p -> healthy (fst (Player.checkEnemyCollisions p es)).
Proof.
  intros Hp. unfold Player.checkEnemyCollisions.
  destruct (Player.invincible p); [exact Hp |].
  apply (forEach_state Player.hitEnemy healthy); [| exact Hp].
  intros s a. apply hitEnemy_healthy.
Qed.

(** The fatal fall: past y = 600 health is forced to 0 and the player
    deactivated; otherwise health and the active flag stay. *)
Lemma constrainToBounds_vitals p :
  let q := Player.constrainToBounds p in
  Player.maxHealth q = Player.maxHealth p /\
  Player.y q = Player.y p /\
  (600 < Player.y p -> Player.health q = 0%Z /\ Player.active q = false) /\
  (~ 600 < Player.y p ->
   Player.health q = Player.health p /\ Player.active q = Player.active p).
Proof.
  unfold Player.constrainToBounds. cbn zeta.
  match goal with
  | |- context [Qlt_bool 600 (Player.y ?a)] =>
      assert (Hy : Player.y a = Player.y p) by (case_ifs; reflexivity);
      assert (Hh : Player.health a = Player.health p)
        by (case_ifs; reflexivity);
      assert (Hm : Player.maxHealth a = Player.maxHealth p)
        by (case_ifs; reflexivity);
      assert (Ha : Player.active a = Player.active p)
        by (case_ifs; reflexivity);
      generalize dependent a
  end.
  intros a Hy Hh Hm Ha. rewrite Hy.
  destruct (Qlt_bool 600 (Player.y p)) eqn:E; qprop; cbn;
    repeat split; intros; try assumption; try lra.
Qed.

Lemma constrainToBounds_healthy p :
  healthy p -> healthy (Player.constrainToBounds p).
Proof.
  intros [Hr Hz].
  destruct (constrainToBounds_vitals p) as (Hm & _ & Hfall & Hstay).
  cbn zeta in *. unfold healthy. rewrite Hm.
  destruct (Qlt_le_dec 600 (Player.y p)) as [Hy | Hy].
  - destruct (Hfall Hy) as [-> ->]. split; [lia | tauto].
  - destruct Hstay as [-> ->]; [lra |]. tauto.
Qed.

Lemma tickInvincibility_vitals p :
  sameVitals p (Player.tickInvincibility p).
Proof.
  unfold Player.tickInvincibility.
  destruct (Player.invincible p); [| repeat split].
  cbn. destruct (_ <=? _)%Z; repeat split.
Qed.

Lemma update_healthy p pls es :
  healthy p -> healthy (fst (Player.update p pls es)).
Proof.
  intros Hp. unfold Player.update.
  pose proof (checkEnemyCollisions_healthy (Player.move p pls) es
                (sameVitals_healthy _ _ (move_vitals p pls) Hp)) as H.
  destruct (Player.checkEnemyCollisions _ _) as [q es']. cbn [fst] in *.
  eapply sameVitals_healthy; [apply tickInvincibility_vitals |].
  now apply constrainToBounds_healthy.
Qed.

(** When [update] deactivates the player: when the enemy collisions
    took its last health point, or it is past the death line. *)
Lemma update_deactivates p pls es :
  healthy p ->
  let q := fst (Player.checkEnemyCollisions (Player.move p pls) es) in
  Player.active (fst (Player.update p pls es)) = false <->
  Player.health q = 0%Z \/ 600 < Player.y q.
Proof.
  intros Hp. cbn zeta. unfold Player.update.
  pose proof (checkEnemyCollisions_healthy (Player.move p pls) es
                (sameVitals_healthy _ _ (move_vitals p pls) Hp)) as [_ Hz].
  destruct (Player.checkEnemyCollisions _ _) as [q es']. cbn [fst] in *.
  destruct (tickInvincibility_vitals (Player.constrainToBounds q))
    as (_ & _ & ->).
  destruct (constrainToBounds_vitals q) as (_ & _ & Hfall & Hstay).
  cbn zeta in *.
  destruct (Qlt_le_dec 600 (Player.y q)) as [Hy | Hy].
  - destruct (Hfall Hy) as [_ ->]. tauto.
  - destruct Hstay as [_ ->]; [lra |]. rewrite <- Hz.
    split; [tauto | intros [H | H]; [exact H | lra]].
Qed.

Lemma apply_healthy p c :
  healthy p -> guarded p c -> healthy (Calls.apply p c).
Proof.
  intros Hp Hg. destruct c; cbn [Calls.apply guarded] in *.
  - now apply update_healthy.
  - now apply takeDamage_healthy.
  - destruct Hg. now apply heal_healthy.
  - unfold Player.jump. case_ifs; exact Hp.
  - exact Hp.
  - exact Hp.
  - exact Hp.
  - exact Hp.
Qed.

(** C2, as the code has it.  From any player whose health is within
    [0, maxHealth] and is 0 exactly when it is inactive, every sequence
    of calls in which [takeDamage] and [heal] are applied only to an
    active player, and [heal] with a non-negative amount, keeps health
    within [0, maxHealth] and 0 exactly when the player is inactive.
    An active player becomes inactive on a call exactly when that call
    is a [takeDamage] that takes the last health point, or an [update]
    in which the enemy collisions take the last health point or that
    finds the player past y = 600. *)
Theorem health_within_bounds (p : Player.t) (cs : list Calls.call) :
  healthy p ->
  allGuarded p cs ->
  healthy (Calls.run p cs) /\
  (forall c,
     Player.active p = true ->
     guarded p c ->
     (Player.active (Calls.apply p c) = false <->
      match c with
      | Calls.TakeDamage =>
          Player.invincible p = false /\ Player.health p = 1%Z
      | Calls.Update pls es =>
          let q := fst (Player.checkEnemyCollisions (Player.move p pls) es) in
          Player.health q = 0%Z \/ 600 < Player.y q
      | _ => False
      end)).
Proof.
  intros Hp Hcs. split.
  - revert p Hp Hcs. induction cs as [| c cs IH]; intros p Hp Hcs;
      [exact Hp |].
    destruct Hcs as [Hc Hcs]. cbn. apply IH; [| exact Hcs].
    now apply apply_healthy.
  - intros c Ha Hc. destruct c; cbn [Calls.apply].
    + now apply update_deactivates.
    + destruct Hp as [Hr Hz].
      assert (Player.health p <> 0%Z) by (rewrite Hz; congruence).
      unfold Player.takeDamage.
      destruct (Player.invincible p); cbn.
      * rewrite Ha. split; [discriminate | intros [? _]; discriminate].
      * destruct (Z.leb_spec (Player.health p - 1) 0);
          unfold Player.active in *; cbn.
        -- split; [intros _; split; [reflexivity | lia] | reflexivity].
        -- rewrite Ha. split; [discriminate | intros [_ ?]; lia].
    + unfold Player.active in *. cbn. rewrite Ha.
      split; [discriminate | contradiction].
    + assert (Hj : Player.active (Player.jump p) = Player.active p)
        by (unfold Player.jump; case_ifs; reflexivity).
      rewrite Hj, Ha. split; [discriminate | contradiction].
    + unfold Player.active in *. cbn. rewrite Ha.
      split; [discriminate | contradiction].
    + unfold Player.active in *. cbn. rewrite Ha.
      split; [discriminate | contradiction].
    + unfold Player.active in *. cbn. rewrite Ha.
      split; [discriminate | contradiction].
    + unfold Player.active in *. cbn. rewrite Ha.
      split; [discriminate | contradiction].
Qed.

(** C2 on the fresh player: damaged once, updated, healed. *)
Lemma health_within_bounds_witness :
  healthy (Calls.run (Player.new 100 100)
             [Calls.TakeDamage; Calls.Update [] []; Calls.Heal 1]).
Proof.
  apply (health_within_bounds (Player.new 100 100)
           [Calls.TakeDamage; Calls.Update [] []; Calls.Heal 1]).
  - split; [cbn; lia | split; discriminate].
  - cbn. repeat split. lia.
Defined.

(** What [heal] and [takeDamage] do to a player that has fallen to its
    death. *)
Lemma fallen_player_calls (p : Player.t) :
  (Player.health p, Player.maxHealth p, Player.active p,
   Player.invincible p) = (0%Z, 5%Z, false, false) ->
  healthy p /\
  Player.active p = false /\
  Player.health (Calls.run p [Calls.Heal 1]) = 1%Z /\
  Player.active (Calls.run p [Calls.Heal 1]) = false /\
  Player.health (Calls.run p [Calls.TakeDamage]) = (-1)%Z /\
  ~ healthy (Calls.run p [Calls.Heal 1]) /\
  ~ healthy (Calls.run p [Calls.TakeDamage]).
Proof.
  intros E. injection E as Eh Em Ea Ei.
  assert (H1 : Player.health (Calls.run p [Calls.Heal 1]) = 1%Z).
  { cbn [Calls.run fold_left Calls.apply]. unfold Player.heal. cbn.
    rewrite Eh, Em. reflexivity. }
  assert (H2 : Player.active (Calls.run p [Calls.Heal 1]) = false)
    by exact Ea.
  assert (H3 : Player.health (Calls.run p [Calls.TakeDamage]) = (-1)%Z).
  { cbn [Calls.run fold_left Calls.apply]. unfold Player.takeDamage.
    rewrite Ei. cbn. rewrite Eh. reflexivity. }
  unfold healthy. rewrite H1, H2, H3, Eh, Em, Ea.
  repeat split; try lia; discriminate.
Qed.

(** C2 as stated fails, for [heal] and [takeDamage] can be called on a
    player that has fallen to its death.  A player built below the
    death line dies in its first [update]; [heal] then gives it health
    1 while it stays inactive, and [takeDamage] gives it health -1.
    The same happens to the player of a game in which the right arrow
    is held from the start: after 61 frames it has fallen into the
    first pit. *)
Lemma health_counterexample :
  (let p := Calls.run (Player.new 100 601) [Calls.Update [] []] in
   healthy p /\
   Player.active p = false /\
   Player.health (Calls.run p [Calls.Heal 1]) = 1%Z /\
   Player.active (Calls.run p [Calls.Heal 1]) = false /\
   Player.health (Calls.run p [Calls.TakeDamage]) = (-1)%Z /\
   ~ healthy (Calls.run p [Calls.Heal 1]) /\
   ~ healthy (Calls.run p [Calls.TakeDamage])) /\
  (let p := Game.player
              (Game.run still Game.new
                 (Game.KeyDown "ArrowRight" :: Game.StartButton ::
                  repeat Game.Frame 61)) in
   healthy p /\
   Player.active p = false /\
   Player.health (Calls.run p [Calls.Heal 1]) = 1%Z /\
   Player.active (Calls.run p [Calls.Heal 1]) = false /\
   Player.health (Calls.run p [Calls.TakeDamage]) = (-1)%Z /\
   ~ healthy (Calls.run p [Calls.Heal 1]) /\
   ~ healthy (Calls.run p [Calls.TakeDamage])).
Proof.
  split; apply fallen_player_calls; vm_compute; reflexivity.
Qed.

(** ** What holds between ticks *)

Lemma Forall2_Forall {A : Type} (R : A -> A -> Prop) (P Q : A -> Prop) l l' :
  Forall2 R l l' ->
  (forall a b, R a b -> P a -> Q b) ->
  Forall P l -> Forall Q l'.
Proof.
  intros HR Hstep. induction HR; intros Hl; [constructor |].
  inversion Hl; subst. constructor; eauto.
Qed.

Lemma Forall_map_step {A : Type} (f : A -> A) (P Q : A -> Prop) l :
  (forall a, P a -> Q (f a)) -> Forall P l -> Forall Q (map f l).
Proof.
  intros Hf Hl. induction Hl; simpl; constructor; auto.
Qed.

Lemma Forall_map_any {A B : Type} (f : A -> B) (P : B -> Prop) l :
  (forall a, P (f a)) -> Forall P (map f l).
Proof. intros Hf. induction l; simpl; constructor; auto. Qed.

Lemma Forall2_same {A : Type} (R : A -> A -> Prop) l :
  (forall a, R a a) -> Forall2 R l l.
Proof. intros HR. induction l; constructor; auto. Qed.

Lemma Forall2_map_r {A : Type} (R : A -> A -> Prop) (f : A -> A) l :
  (forall a, R a (f a)) -> Forall2 R l (map f l).
Proof. intros HR. induction l; simpl; constructor; auto. Qed.

(** The player leaves each enemy as it was, or defeated. *)
Lemma hitEnemy_enemy p e :
  snd (Player.hitEnemy p e) = e \/
  snd (Player.hitEnemy p e) = Enemy.defeat e.
Proof. unfold Player.hitEnemy. case_ifs; cbn; auto. Qed.

Lemma update_enemies p pls es :
  Forall2 (fun e e' => e' = e \/ e' = Enemy.defeat e)
    es (snd (Player.update p pls es)).
Proof.
  unfold Player.update.
  assert (H : Forall2 (fun e e' => e' = e \/ e' = Enemy.defeat e) es
                (snd (Player.checkEnemyCollisions (Player.move p pls) es))).
  { unfold Player.checkEnemyCollisions.
    destruct (Player.invincible _); [apply Forall2_same; auto |].
    eapply Forall2_impl; [apply forEach_elements |].
    intros e e' [s ->]. apply hitEnemy_enemy. }
  destruct (Player.checkEnemyCollisions _ _). exact H.
Qed.

Lemma Enemy_update_flags (e : Enemy.t) pls :
  Enemy.defeated (Enemy.update pls e) = Enemy.defeated e /\
  Enemy.scoreGiven (Enemy.update pls e) = Enemy.scoreGiven e.
Proof.
  destruct (Enemy.defeated e) eqn:Hd.
  - rewrite (Enemy_update_defeated e pls Hd).
    destruct (_ <? _)%Z; cbn; auto.
  - unfold Enemy.update. rewrite Hd.
    match goal with
    | |- context [Enemy.checkPlatformCollisions ?a pls] =>
        destruct (Enemy_checkPlatformCollisions_vertical a pls)
          as (y' & vy' & ->)
    end.
    case_ifs; cbn; auto.
Qed.

Lemma awardDefeat_settles sc e :
  paidOnlyIfDefeated e -> settled (snd (Game.awardDefeat sc e)).
Proof.
  unfold paidOnlyIfDefeated, settled, Game.awardDefeat.
  destruct (Enemy.defeated e) eqn:Hd, (Enemy.scoreGiven e) eqn:Hs;
    cbn; intros H; rewrite ?Hd, ?Hs; auto.
  symmetry. now apply H.
Qed.

Lemma awardDefeats_settle sc l :
  Forall paidOnlyIfDefeated l ->
  Forall settled (snd (forEach Game.awardDefeat sc l)).
Proof.
  revert sc. induction l as [| e l IH]; intros sc Hl; [constructor |].
  rewrite forEach_cons. cbn [snd]. inversion Hl; subst.
  constructor; [now apply awardDefeat_settles | now apply IH].
Qed.

Lemma awardDefeat_patrols sc e :
  patrols e -> patrols (snd (Game.awardDefeat sc e)).
Proof. unfold Game.awardDefeat. case_ifs; auto. Qed.

Section Soundness.

Variable Math_sin : Q -> Q.

(** A collectible leaves the loop animated, and collected or not;
    its type and value stay. *)
Lemma pickUp_collectible s c :
  let c' := snd (Game.pickUp Math_sin s c) in
  Collectible.type c' = Collectible.type c /\
  Collectible.value c' = Collectible.value c.
Proof.
  destruct s as [p sc]. destruct c as [ce ty co ro bo bs va].
  unfold Game.pickUp, Collectible.update. cbn zeta.
  destruct co; cbn -[Entity.collidesWith]; [split; reflexivity |].
  destruct (Entity.collidesWith _ _); cbn; [| split; reflexivity].
  destruct ty; cbn; split; reflexivity.
Qed.

Lemma pickUp_priced s c :
  priced c -> priced (snd (Game.pickUp Math_sin s c)).
Proof.
  unfold priced. destruct (pickUp_collectible s c) as [-> ->]. auto.
Qed.

Lemma pickUp_healthy s c :
  healthy (fst s) -> healthy (fst (fst (Game.pickUp Math_sin s c))).
Proof.
  destruct s as [p sc]. cbn [fst]. intros Hp. unfold Game.pickUp.
  destruct (negb _ && Entity.collidesWith _ _) eqn:E; [| exact Hp].
  apply andb_true_iff in E. destruct E as [_ E].
  apply collidesWith_overlap in E. destruct E as (Ha & _).
  cbn. destruct (Collectible.type _); cbn; try exact Hp.
  apply heal_healthy; [exact Ha | lia | exact Hp].
Qed.

Lemma sound_update g : sound g -> sound (Game.update Math_sin g).
Proof.
  intros [Hpl Hpa Hse Hpr Hh].
  destruct (Game.gameOver g) eqn:Hover;
    [unfold Game.update; rewrite Hover; now constructor |].
  destruct (Game.gameWon g) eqn:Hwon;
    [unfold Game.update; rewrite Hover, Hwon; now constructor |].
  destruct (update_fields Math_sin g Hover Hwon)
    as (Ep & Epl & Ee & Ec & _).
  cbn zeta in *.
  destruct (handleInput_fields g) as [v Hv]. rewrite Hv in *.
  cbn [Game.player Game.with_player] in *.
  constructor.
  - rewrite Epl. apply Forall_map_preserved; [| exact Hpl].
    intros pl. apply Platform_update_oscillates.
  - rewrite Ee. apply forEach_Forall; [intros; now apply awardDefeat_patrols |].
    apply Forall_map_preserved;
      [intros e He; now apply Enemy_update_patrols |].
    eapply Forall2_Forall; [apply update_enemies | | exact Hpa].
    intros a b [-> | ->] Ha; exact Ha.
  - rewrite Ee. apply awardDefeats_settle.
    apply Forall_map_step with (P := paidOnlyIfDefeated).
    + intros e He. unfold paidOnlyIfDefeated.
      destruct (Enemy_update_flags e (map Platform.update (Game.platforms g)))
        as [-> ->].
      exact He.
    + eapply Forall2_Forall; [apply update_enemies | | exact Hse].
      unfold settled, paidOnlyIfDefeated.
      intros a b [-> | ->] Ha; cbn; [congruence | reflexivity].
  - rewrite Ec. apply forEach_Forall; [| exact Hpr].
    intros s c. apply pickUp_priced.
  - rewrite Ep.
    apply (forEach_state (Game.pickUp Math_sin)
             (fun s => healthy (fst s))).
    + intros s c. apply pickUp_healthy.
    + cbn [fst]. apply update_healthy. exact Hh.
Qed.

End Soundness.

(** ** The level as built *)

Ltac qcompute :=
  first [ reflexivity
        | apply Qle_bool_iff; reflexivity
        | apply Qlt_bool_iff; reflexivity ].

Lemma createPlatforms_oscillate : Forall oscillates Game.createPlatforms.
Proof.
  unfold Game.createPlatforms.
  repeat (apply List.Forall_cons;
          [intros Hm; try discriminate Hm;
           (split; [qcompute | split; [left; reflexivity | split; qcompute]])
          |]).
  apply List.Forall_nil.
Qed.

Lemma createEnemies_patrol : Forall patrols Game.createEnemies.
Proof.
  unfold Game.createEnemies.
  repeat (apply List.Forall_cons;
          [split; [qcompute | split; [left; reflexivity | split; qcompute]]
          |]).
  apply List.Forall_nil.
Qed.

Lemma createEnemies_settled : Forall settled Game.createEnemies.
Proof.
  unfold Game.createEnemies.
  repeat (apply List.Forall_cons; [reflexivity |]). apply List.Forall_nil.
Qed.

Lemma createCollectibles_priced : Forall priced Game.createCollectibles.
Proof.
  unfold Game.createCollectibles. apply List.Forall_app. split.
  - apply Forall_map_any. intros i. reflexivity.
  - repeat (apply List.Forall_cons; [reflexivity |]). apply List.Forall_nil.
Qed.

Lemma new_player_healthy x y : healthy (Player.new x y).
Proof. split; [cbn; lia | split; discriminate]. Qed.

(** ** Every reachable state is sound *)

Lemma sound_same (g g' : Game.t) :
  Game.player g' = Game.player g ->
  Game.platforms g' = Game.platforms g ->
  Game.enemies g' = Game.enemies g ->
  Game.collectibles g' = Game.collectibles g ->
  sound g -> sound g'.
Proof.
  intros Hp Hpl He Hc [H1 H2 H3 H4 H5].
  constructor; rewrite ?Hp, ?Hpl, ?He, ?Hc; assumption.
Qed.

Lemma jump_healthy p : healthy p -> healthy (Player.jump p).
Proof. unfold Player.jump. case_ifs; auto. Qed.

(** A key press records the key, lets the player jump when the key is
    the space bar or the up arrow and the game is not over, and then
    resets the game when the key is R. *)
Lemma handleKeyDown_cases (Math_sin : Q -> Q) (key : string) (g : Game.t) :
  exists g',
    (g' = Game.with_keys (<[key := true]> (Game.keys g)) g \/
     g' = Game.with_player (Player.jump (Game.player g))
            (Game.with_keys (<[key := true]> (Game.keys g)) g)) /\
    Game.handleKeyDown Math_sin key g =
      (if resets (Game.KeyDown key) then Game.reset Math_sin g' else g').
Proof.
  unfold Game.handleKeyDown, resets.
  destruct (String.eqb key " " || String.eqb key "ArrowUp");
    destruct (Game.gameOver g) eqn:Hover;
    destruct (Game.gameWon g) eqn:Hwon;
    cbn [andb negb Game.gameOver Game.gameWon Game.with_keys];
    rewrite ?Hover, ?Hwon; cbn [andb negb];
    eexists; (split; [| reflexivity]); auto.
Qed.

Section Reachability.

Variable Math_sin : Q -> Q.

Lemma sound_initLevel g : sound (Game.initLevel g).
Proof.
  constructor; cbn.
  - apply createPlatforms_oscillate.
  - apply createEnemies_patrol.
  - apply createEnemies_settled.
  - apply createCollectibles_priced.
  - apply new_player_healthy.
Qed.

Lemma sound_new : sound Game.new.
Proof.
  constructor; cbn.
  - apply createPlatforms_oscillate.
  - apply createEnemies_patrol.
  - apply createEnemies_settled.
  - apply createCollectibles_priced.
  - apply new_player_healthy.
Qed.

Lemma sound_gameLoop g : sound g -> sound (Game.gameLoop Math_sin g).
Proof.
  intros Hg. unfold Game.gameLoop.
  destruct (negb _); [exact Hg | now apply sound_update].
Qed.

Lemma sound_start g : sound g -> sound (Game.start Math_sin g).
Proof.
  intros Hg. unfold Game.start. destruct (Game.isRunning g); [exact Hg |].
  apply sound_gameLoop. revert Hg. now apply sound_same.
Qed.

Lemma sound_reset g : sound (Game.reset Math_sin g).
Proof. unfold Game.reset. apply sound_start, sound_initLevel. Qed.

Lemma sound_step g e : sound g -> sound (Game.step Math_sin g e).
Proof.
  intros Hg. destruct e; cbn [Game.step].
  - destruct (handleKeyDown_cases Math_sin key g) as (g' & Hg' & ->).
    destruct (resets _); [apply sound_reset |].
    destruct Hg' as [-> | ->]; [revert Hg; now apply sound_same |].
    destruct Hg. constructor; cbn; try assumption.
    now apply jump_healthy.
  - revert Hg. now apply sound_same.
  - now apply sound_gameLoop.
  - now apply sound_start.
  - revert Hg. now apply sound_same.
  - apply sound_reset.
Qed.

Lemma reachable_sound g : Game.reachable Math_sin g -> sound g.
Proof.
  induction 1; [apply sound_new | now apply sound_step].
Qed.

Lemma reachable_run g events :
  Game.reachable Math_sin g ->
  Game.reachable Math_sin (Game.run Math_sin g events).
Proof.
  revert g. induction events as [| e events IH]; intros g Hg;
    [exact Hg |].
  cbn. apply IH. now constructor.
Qed.

End Reachability.

(** ** Bounds of platforms and enemies in the game *)

(** C5, as the code has it.  One [update] of a moving platform whose
    range is not negative puts it within [startX, startX + moveRange]:
    a step that would reach or pass the upper bound sets the position
    to exactly that bound and the direction to -1, one that would
    reach or pass the lower bound sets the position to exactly
    [startX] and the direction to 1, and any other step moves the
    platform by speed times direction and keeps the direction.  For a
    platform set up to oscillate (positive speed, direction 1 or -1,
    within its range) the clamp reverses the direction.  The same
    holds of an enemy that is not defeated and whose patrol interval
    has room for it, between [patrolStart] and [patrolEnd - width].
    In every reachable state all moving platforms and all enemies of
    the game are set up this way and lie within their bounds. *)
Theorem bounds_never_exceeded :
  (forall pl : Platform.t,
     Platform.moving pl = true ->
     0 <= Platform.moveRange pl ->
     let nx := Platform.x pl + Platform.moveSpeed pl * Platform.direction pl in
     let pl' := Platform.update pl in
     inRange pl' /\
     (Platform.startX pl + Platform.moveRange pl <= nx ->
      Platform.x pl' = Platform.startX pl + Platform.moveRange pl /\
      Platform.direction pl' = -1) /\
     (nx < Platform.startX pl + Platform.moveRange pl ->
      nx <= Platform.startX pl ->
      Platform.x pl' = Platform.startX pl /\ Platform.direction pl' = 1) /\
     (nx < Platform.startX pl + Platform.moveRange pl ->
      Platform.startX pl < nx ->
      Platform.x pl' = nx /\ Platform.direction pl' = Platform.direction pl) /\
     (oscillates pl ->
      (Platform.startX pl + Platform.moveRange pl <= nx ->
       Platform.direction pl' == - Platform.direction pl) /\
      (nx <= Platform.startX pl ->
       Platform.x pl' = Platform.startX pl /\
       Platform.direction pl' == - Platform.direction pl))) /\
  (forall (e : Enemy.t) (pls : list Platform.t),
     Enemy.defeated e = false ->
     Enemy.patrolStart e <= Enemy.patrolEnd e - Enemy.width e ->
     let nx := Enemy.x e + Enemy.velocityX e * Enemy.direction e in
     let e' := Enemy.update pls e in
     inPatrol e' /\
     (nx <= Enemy.patrolStart e ->
      Enemy.x e' = Enemy.patrolStart e /\ Enemy.direction e' = 1) /\
     (Enemy.patrolStart e < nx ->
      Enemy.patrolEnd e <= nx + Enemy.width e ->
      Enemy.x e' = Enemy.patrolEnd e - Enemy.width e /\
      Enemy.direction e' = -1) /\
     (Enemy.patrolStart e < nx ->
      nx + Enemy.width e < Enemy.patrolEnd e ->
      Enemy.x e' = nx /\ Enemy.direction e' = Enemy.direction e) /\
     (patrols e ->
      (nx <= Enemy.patrolStart e ->
       Enemy.direction e' == - Enemy.direction e) /\
      (Enemy.patrolEnd e <= nx + Enemy.width e ->
       Enemy.x e' == Enemy.patrolEnd e - Enemy.width e /\
       Enemy.direction e' == - Enemy.direction e))) /\
  (forall (Math_sin : Q -> Q) (g : Game.t),
     Game.reachable Math_sin g ->
     (forall pl,
        In pl (Game.platforms g) ->
        Platform.moving pl = true ->
        0 <= Platform.moveRange pl /\ oscillates pl /\ inRange pl) /\
     (forall e,
        In e (Game.enemies g) ->
        Enemy.patrolStart e <= Enemy.patrolEnd e - Enemy.width e /\
        patrols e /\ inPatrol e)).
Proof.
  split; [| split].
  - intros pl Hm Hrange nx pl'.
    destruct (Platform_update_clamps pl Hm Hrange)
      as (Hin' & Hup & Hdown & Hmid & _).
    cbn zeta in *. fold nx pl' in Hin', Hup, Hdown, Hmid.
    split; [exact Hin' |]. split; [exact Hup |]. split; [exact Hdown |].
    split; [exact Hmid |].
    intros Hosc. destruct (Hosc Hm) as (Hs & Hd & Hlo & Hhi). split.
    + intros Hge. destruct (Hup Hge) as [_ Hdir].
      rewrite Hdir. subst nx.
      destruct Hd as [Hd | Hd]; rewrite Hd in *; [reflexivity | lra].
    + intros Hle.
      assert (Hlt : nx < Platform.startX pl + Platform.moveRange pl).
      { subst nx. destruct Hd as [Hd | Hd]; rewrite Hd in *; lra. }
      destruct (Hdown Hlt Hle) as [Hx Hdir]. split; [exact Hx |].
      rewrite Hdir. subst nx.
      destruct Hd as [Hd | Hd]; rewrite Hd in *; [lra | reflexivity].
  - intros e pls Hdef Hroom nx e'.
    destruct (Enemy_update_clamps e pls Hdef Hroom)
      as (Hin' & Hleft & Hright & Hmid & _).
    cbn zeta in *. fold nx e' in Hin', Hleft, Hright, Hmid.
    split; [exact Hin' |]. split; [exact Hleft |]. split; [exact Hright |].
    split; [exact Hmid |].
    intros (Hs & Hd & Hlo & Hhi). split.
    + intros Hle. destruct (Hleft Hle) as [_ Hdir].
      rewrite Hdir. subst nx.
      destruct Hd as [Hd | Hd]; rewrite Hd in *; [lra | reflexivity].
    + intros Hge.
      destruct (Qlt_le_dec (Enemy.patrolStart e) nx) as [Hgt | Hle].
      * destruct (Hright Hgt Hge) as [Hx Hdir]. rewrite Hx, Hdir.
        split; [reflexivity |]. subst nx.
        destruct Hd as [Hd | Hd]; rewrite Hd in *; [reflexivity | lra].
      * destruct (Hleft Hle) as [Hx Hdir]. rewrite Hx, Hdir. subst nx.
        destruct Hd as [Hd | Hd]; rewrite Hd in *;
          [lra | split; [lra | reflexivity]].
  - intros Math_sin g Hr. apply reachable_sound in Hr.
    destruct Hr as [Hpl Hen _ _ _]. split.
    + intros pl Hin Hm.
      assert (Hosc : oscillates pl)
        by (exact (proj1 (List.Forall_forall _ _) Hpl pl Hin)).
      destruct (Hosc Hm) as (Hs & Hd & Hlo & Hhi).
      split; [lra |]. split; [exact Hosc | split; assumption].
    + intros e Hin.
      assert (Hpat : patrols e)
        by (exact (proj1 (List.Forall_forall _ _) Hen e Hin)).
      destruct Hpat as (Hs & Hd & Hlo & Hhi).
      split; [lra |]. split; [repeat split; assumption | split; assumption].
Qed.

(** C5 at a bound: the first moving platform of the level one step
    short of its upper bound is clamped to it and turned, the first
    enemy one step short of the left end of its patrol likewise; and in
    the freshly built game the first moving platform and the first
    enemy are set up within their bounds. *)
Lemma bounds_never_exceeded_witness :
  (let pl := Platform.with_x 499 (Platform.new 400 350 100 15 true 100 2) in
   Platform.x (Platform.update pl) = Platform.startX pl + Platform.moveRange pl /\
   Platform.direction (Platform.update pl) = -1) /\
  (let e := Enemy.with_direction (-1) (Enemy.with_x 1 (Enemy.new 200 510 0 380)) in
   Enemy.x (Enemy.update [] e) = Enemy.patrolStart e /\
   Enemy.direction (Enemy.update [] e) = 1) /\
  inRange (Platform.new 400 350 100 15 true 100 2) /\
  inPatrol (Enemy.new 200 510 0 380).
Proof.
  destruct bounds_never_exceeded as (Hpl & Hen & Hgame).
  split; [| split].
  - cbn zeta.
    apply (Hpl (Platform.with_x 499 (Platform.new 400 350 100 15 true 100 2))).
    + reflexivity.
    + apply Qle_bool_iff. reflexivity.
    + apply Qle_bool_iff. reflexivity.
  - cbn zeta.
    apply (Hen (Enemy.with_direction (-1)
                  (Enemy.with_x 1 (Enemy.new 200 510 0 380))) []).
    + reflexivity.
    + apply Qle_bool_iff. reflexivity.
    + apply Qle_bool_iff. reflexivity.
  - destruct (Hgame still Game.new (Game.reachable_new _)) as [Hp He].
    split.
    + apply (Hp (Platform.new 400 350 100 15 true 100 2)); [| reflexivity].
      unfold Game.createPlatforms, Game.new, Game.platforms.
      do 28 right. left. reflexivity.
    + apply (He (Enemy.new 200 510 0 380)). left. reflexivity.
Defined.

(** C5 as stated fails for entities the constructors accept.  A moving
    platform with a negative range, [new Platform(10, 0, 50, 10, true,
    -5, 2)], is put at x = 5 by its first update, left of its
    [startX] = 10; an enemy whose patrol interval is narrower than the
    enemy, [new Enemy(0, 0, 0, 20)], is put at x = -15, left of its
    [patrolStart] = 0. *)
Lemma degenerate_bounds_counterexample :
  let pl := Platform.new 10 0 50 10 true (-5) 2 in
  let e := Enemy.new 0 0 0 20 in
  Platform.moving pl = true /\
  Platform.x (Platform.update pl) == 5 /\
  Platform.x (Platform.update pl) < Platform.startX (Platform.update pl) /\
  Enemy.defeated e = false /\
  Enemy.x (Enemy.update [] e) == -15 /\
  Enemy.x (Enemy.update [] e) < Enemy.patrolStart (Enemy.update [] e).
Proof. vm_compute. repeat split. Qed.

(** ** The score *)

Lemma forEach_state_Forall {S A : Type} (f : S -> A -> S * A)
    (P : S -> Prop) (Q : A -> Prop) :
  (forall s a, Q a -> P s -> P (fst (f s a))) ->
  forall l s, Forall Q l -> P s -> P (fst (forEach f s l)).
Proof.
  intros Hf l. induction l as [| a l IH]; intros s Hl Hs; [exact Hs |].
  rewrite forEach_cons. simpl. inversion Hl; subst.
  apply IH; [assumption |]. now apply Hf.
Qed.

(** The enemy loop adds 50 or nothing. *)
Lemma awardDefeat_score sc e :
  fst (Game.awardDefeat sc e) = sc \/
  fst (Game.awardDefeat sc e) = (sc + 50)%Z.
Proof. unfold Game.awardDefeat. case_ifs; cbn; auto. Qed.

Lemma valueOf_cases k :
  Collectible.valueOf k =
    match k with
    | Collectible.coin => 10
    | Collectible.star => 50
    | Collectible.heart => 0
    | Collectible.doublejump => 100
    end%Z /\
  (0 <= Collectible.valueOf k)%Z.
Proof. destruct k; cbn; split; (reflexivity || lia). Qed.

Section Score.

Variable Math_sin : Q -> Q.

(** The collectible loop adds the collectible's value or nothing. *)
Lemma pickUp_score s c :
  snd (fst (Game.pickUp Math_sin s c)) = snd s \/
  snd (fst (Game.pickUp Math_sin s c)) = (snd s + Collectible.value c)%Z.
Proof.
  destruct s as [p sc]. destruct c as [ce ty co ro bo bs va].
  unfold Game.pickUp, Collectible.update. cbn zeta.
  destruct co; cbn -[Entity.collidesWith]; [now left |].
  destruct (Entity.collidesWith _ _); cbn; [| now left].
  destruct ty; cbn; auto.
Qed.

Lemma update_score g :
  sound g -> (Game.score g <= Game.score (Game.update Math_sin g))%Z.
Proof.
  intros [_ _ _ Hpr _].
  destruct (Game.gameOver g) eqn:Hover;
    [unfold Game.update; rewrite Hover; cbn; lia |].
  destruct (Game.gameWon g) eqn:Hwon;
    [unfold Game.update; rewrite Hover, Hwon; cbn; lia |].
  destruct (update_fields Math_sin g Hover Hwon)
    as (_ & _ & _ & _ & -> & _).
  match goal with
  | |- (_ <= fst (forEach _ (snd (fst (forEach _ ?s _))) ?es))%Z =>
      transitivity (snd (fst (forEach (Game.pickUp Math_sin) s
                                (Game.collectibles g))))
  end.
  - apply (forEach_state_Forall (Game.pickUp Math_sin)
             (fun s => Game.score g <= snd s)%Z priced);
      [| exact Hpr | cbn; lia].
    intros s c Hc Hs. unfold priced in Hc.
    destruct (valueOf_cases (Collectible.type c)) as [_ Hv].
    destruct (pickUp_score s c) as [-> | ->]; lia.
  - match goal with
    | |- (?a <= fst (forEach _ ?a ?es))%Z =>
        apply (forEach_state Game.awardDefeat (fun s => a <= s)%Z);
          [| lia]
    end.
    intros s e Hs. destruct (awardDefeat_score s e) as [-> | ->]; lia.
Qed.

Lemma step_score g e :
  sound g -> resets e = false ->
  (Game.score g <= Game.score (Game.step Math_sin g e))%Z.
Proof.
  intros Hg He. destruct e; cbn [Game.step resets] in *;
    try discriminate He.
  - destruct (handleKeyDown_cases Math_sin key g) as (g' & Hg' & ->).
    cbn [resets]. rewrite He. destruct Hg' as [-> | ->]; cbn; lia.
  - cbn. lia.
  - unfold Game.gameLoop. destruct (negb _); [lia |].
    now apply update_score.
  - unfold Game.start, Game.gameLoop.
    destruct (Game.isRunning g); [lia |]. cbn [Game.isRunning
      Game.with_isRunning negb].
    apply (update_score (Game.with_isRunning true g)).
    revert Hg. now apply sound_same.
  - cbn. lia.
Qed.

Lemma run_score events : forall g,
  sound g -> resetFree events ->
  (Game.score g <= Game.score (Game.run Math_sin g events))%Z.
Proof.
  induction events as [| e events IH]; intros g Hg He; [cbn; lia |].
  inversion He; subst. cbn [Game.run fold_left].
  transitivity (Game.score (Game.step Math_sin g e)).
  - now apply step_score.
  - apply IH; [now apply sound_step | assumption].
Qed.

End Score.

(** C10.  In every reachable state a tick does not lower the score,
    nor does any run of events that contains no reset: each visit of
    the collectible loop adds the collectible's value or nothing, that
    value being the 10, 50, 0 or 100 of its type, and each visit of
    the enemy loop adds 50 or nothing. *)
Theorem score_never_decreases (Math_sin : Q -> Q) (g : Game.t) :
  Game.reachable Math_sin g ->
  (Game.score g <= Game.score (Game.update Math_sin g))%Z /\
  (forall events,
     resetFree events ->
     (Game.score g <= Game.score (Game.run Math_sin g events))%Z) /\
  (forall s c,
     In c (Game.collectibles g) ->
     (snd (fst (Game.pickUp Math_sin s c)) = snd s \/
      snd (fst (Game.pickUp Math_sin s c)) =
        (snd s + Collectible.valueOf (Collectible.type c))%Z) /\
     Collectible.valueOf (Collectible.type c) =
       match Collectible.type c with
       | Collectible.coin => 10
       | Collectible.star => 50
       | Collectible.heart => 0
       | Collectible.doublejump => 100
       end%Z) /\
  (forall sc e,
     fst (Game.awardDefeat sc e) = sc \/
     fst (Game.awardDefeat sc e) = (sc + 50)%Z).
Proof.
  intros Hr. apply reachable_sound in Hr. repeat apply conj.
  - now apply update_score.
  - intros events He. now apply run_score.
  - intros s c Hin. destruct Hr as [_ _ _ Hpr _].
    assert (Hc : priced c)
      by (exact (proj1 (List.Forall_forall _ _) Hpr c Hin)).
    unfold priced in Hc. rewrite <- Hc. split; [apply pickUp_score |].
    rewrite Hc. apply valueOf_cases.
  - apply awardDefeat_score.
Qed.

(** C10 in the freshly built game: started and run for three frames,
    its score is not below the initial one. *)
Lemma score_never_decreases_witness :
  (Game.score Game.new <=
   Game.score (Game.run still Game.new
                 [Game.StartButton; Game.Frame; Game.Frame; Game.Frame]))%Z.
Proof.
  apply (score_never_decreases still Game.new (Game.reachable_new _)).
  repeat constructor.
Defined.

(** ** The defeat bonus *)

Lemma nth_error_Forall2 {A : Type} (R : A -> A -> Prop) l l' i a :
  Forall2 R l l' -> nth_error l i = Some a ->
  exists b, nth_error l' i = Some b /\ R a b.
Proof.
  intros H. revert i. induction H as [| x y l l' Hxy _ IH]; intros i Hi.
  - destruct i; discriminate.
  - destruct i as [| i]; cbn in *.
    + injection Hi as ->. eauto.
    + now apply IH.
Qed.

Lemma nth_error_map_Some {A B : Type} (f : A -> B) l i a :
  nth_error l i = Some a -> nth_error (map f l) i = Some (f a).
Proof.
  revert i. induction l as [| x l IH]; intros [| i] Hi; cbn in *;
    try discriminate.
  - now injection Hi as ->.
  - now apply IH.
Qed.

Lemma nth_map_Some {A : Type} (f : A -> Z) l i a :
  nth_error l i = Some a -> nth i (map f l) 0%Z = f a.
Proof.
  revert i. induction l as [| x l IH]; intros [| i] Hi; cbn in *;
    try discriminate.
  - now injection Hi as ->.
  - now apply IH.
Qed.

Lemma awardDefeat_bonus sc e :
  Game.awardDefeat sc e =
  ((sc + bonusFor e)%Z, snd (Game.awardDefeat 0 e)).
Proof.
  unfold bonusFor, Game.awardDefeat. case_ifs; cbn; f_equal; lia.
Qed.

(** The enemy loop adds the bonuses of its enemies, and marks them. *)
Lemma awardDefeats_total sc l :
  forEach Game.awardDefeat sc l =
  ((sc + sumZ (map bonusFor l))%Z,
   map (fun e => snd (Game.awardDefeat 0 e)) l).
Proof.
  revert sc. induction l as [| e l IH]; intros sc.
  - cbn [forEach map]. unfold sumZ. cbn [fold_right]. f_equal. lia.
  - rewrite forEach_cons, awardDefeat_bonus. cbn [fst snd].
    rewrite IH. cbn [map fst snd]. unfold sumZ. cbn [fold_right].
    f_equal. lia.
Qed.

(** Once the bonus of an enemy is marked as paid, the enemy loop
    passes it over. *)
Lemma awardDefeat_paid sc e :
  Enemy.scoreGiven e = true -> Game.awardDefeat sc e = (sc, e).
Proof.
  intros H. unfold Game.awardDefeat. rewrite H.
  now rewrite andb_false_r.
Qed.

Lemma awardDefeat_defeated e :
  Enemy.defeated (snd (Game.awardDefeat 0 e)) = Enemy.defeated e.
Proof. unfold Game.awardDefeat. case_ifs; reflexivity. Qed.

Lemma bonusFor_cases e :
  bonusFor e =
  (if Enemy.defeated e && negb (Enemy.scoreGiven e) then 50 else 0)%Z.
Proof. unfold bonusFor, Game.awardDefeat. case_ifs; reflexivity. Qed.

Section LedgerFacts.

Variable Math_sin : Q -> Q.

Lemma beforeScoring_fields (g : Game.t) :
  let p0 := Game.player (Game.handleInput g) in
  let pu := Player.update p0 (Game.platforms g) (Game.enemies g) in
  let pls := map Platform.update (Game.platforms g) in
  let col := forEach (Game.pickUp Math_sin) (fst pu, Game.score g)
               (Game.collectibles g) in
  Game.enemies (beforeScoring Math_sin g) =
    map (Enemy.update pls) (snd pu) /\
  Game.score (beforeScoring Math_sin g) = snd (fst col).
Proof.
  cbn zeta. unfold beforeScoring.
  destruct (handleInput_fields g) as [v ->].
  destruct g as [cw ch cam lw pl pls es cs sc hs lv ks ir go gw].
  unfold Game.updatePlayer, Game.updatePlatforms, Game.updateEnemies,
    Game.updateCollectibles.
  cbn -[Player.update forEach map].
  destruct (Player.update _ _ _) as [p es1].
  cbn -[Player.update forEach map].
  destruct (forEach (Game.pickUp Math_sin) _ _) as [[p' sc1] cs1].
  cbn -[Player.update forEach map]. split; reflexivity.
Qed.

(** The ledger of a tick is what its enemy loop adds to the score. *)
Lemma tick_pays (g : Game.t) :
  Game.gameOver g = false ->
  Game.gameWon g = false ->
  Game.score (Game.update Math_sin g) =
    (Game.score (beforeScoring Math_sin g) +
     sumZ (tickBonuses Math_sin g))%Z.
Proof.
  intros Hover Hwon.
  destruct (update_fields Math_sin g Hover Hwon)
    as (_ & _ & _ & _ & -> & _).
  destruct (beforeScoring_fields g) as [He Hs]. cbn zeta in *.
  unfold tickBonuses. rewrite Hover, Hwon, He, Hs. cbn [orb].
  now rewrite awardDefeats_total.
Qed.

(** One tick, seen from one enemy. *)
Lemma tick_ledger (g : Game.t) i a :
  settled a ->
  nth_error (Game.enemies g) i = Some a ->
  exists b,
    nth_error (Game.enemies (Game.update Math_sin g)) i = Some b /\
    (Enemy.defeated a = true -> Enemy.defeated b = true) /\
    nth i (tickBonuses Math_sin g) 0%Z =
      (if Enemy.defeated b && negb (Enemy.defeated a) then 50 else 0)%Z.
Proof.
  intros Ha Hi. unfold settled in Ha.
  assert (Hstay :
            Game.update Math_sin g = g ->
            tickBonuses Math_sin g = map (fun _ => 0%Z) (Game.enemies g) ->
            exists b,
              nth_error (Game.enemies (Game.update Math_sin g)) i = Some b /\
              (Enemy.defeated a = true -> Enemy.defeated b = true) /\
              nth i (tickBonuses Math_sin g) 0%Z =
                (if Enemy.defeated b && negb (Enemy.defeated a)
                 then 50 else 0)%Z).
  { intros -> ->. exists a. split; [exact Hi |]. split; [auto |].
    rewrite (nth_map_Some _ _ _ _ Hi).
    now destruct (Enemy.defeated a). }
  destruct (Game.gameOver g) eqn:Hover.
  { apply Hstay; unfold Game.update, tickBonuses;
      now rewrite Hover. }
  destruct (Game.gameWon g) eqn:Hwon.
  { apply Hstay; unfold Game.update, tickBonuses;
      now rewrite Hover, Hwon. }
  clear Hstay.
  destruct (update_fields Math_sin g Hover Hwon)
    as (_ & _ & -> & _).
  destruct (beforeScoring_fields g) as [He _]. cbn zeta in *.
  unfold tickBonuses. rewrite Hover, Hwon, He. cbn [orb].
  rewrite awardDefeats_total. cbn [snd].
  destruct (nth_error_Forall2 _ _ _ i a
              (update_enemies (Game.player (Game.handleInput g))
                 (Game.platforms g) (Game.enemies g)) Hi)
    as (m & Hm & Hma).
  set (pls := map Platform.update (Game.platforms g)) in *.
  pose proof (nth_error_map_Some (Enemy.update pls) _ _ _ Hm) as Hm2.
  exists (snd (Game.awardDefeat 0 (Enemy.update pls m))).
  split;
    [exact (nth_error_map_Some (fun e => snd (Game.awardDefeat 0 e))
              _ _ _ Hm2) |].
  rewrite (nth_map_Some _ _ _ _ Hm2), bonusFor_cases,
    awardDefeat_defeated.
  destruct (Enemy_update_flags m pls) as [-> ->].
  destruct Hma as [-> | ->]; cbn; rewrite ?Ha;
    destruct (Enemy.defeated a); split; auto.
Qed.

(** One event, seen from one enemy. *)
Lemma step_ledger (g : Game.t) e i a :
  settled a -> resets e = false ->
  nth_error (Game.enemies g) i = Some a ->
  exists b,
    nth_error (Game.enemies (Game.step Math_sin g e)) i = Some b /\
    (Enemy.defeated a = true -> Enemy.defeated b = true) /\
    nth i (stepBonuses Math_sin g e) 0%Z =
      (if Enemy.defeated b && negb (Enemy.defeated a) then 50 else 0)%Z.
Proof.
  intros Ha He Hi.
  assert (Hstay : forall g',
            Game.enemies g' = Game.enemies g ->
            exists b,
              nth_error (Game.enemies g') i = Some b /\
              (Enemy.defeated a = true -> Enemy.defeated b = true) /\
              nth i (map (fun _ => 0%Z) (Game.enemies g)) 0%Z =
                (if Enemy.defeated b && negb (Enemy.defeated a)
                 then 50 else 0)%Z).
  { intros g' ->. exists a. split; [exact Hi |]. split; [auto |].
    rewrite (nth_map_Some _ _ _ _ Hi).
    now destruct (Enemy.defeated a). }
  destruct e; cbn [Game.step stepBonuses resets] in *;
    try discriminate He.
  - apply Hstay.
    destruct (handleKeyDown_cases Math_sin key g) as (g' & Hg' & ->).
    cbn [resets]. rewrite He. destruct Hg' as [-> | ->]; reflexivity.
  - apply Hstay. reflexivity.
  - unfold Game.gameLoop. destruct (Game.isRunning g); cbn [negb].
    + now apply tick_ledger.
    + now apply Hstay.
  - unfold Game.start, Game.gameLoop.
    destruct (Game.isRunning g); [now apply Hstay |].
    cbn [Game.isRunning Game.with_isRunning negb].
    now apply tick_ledger.
  - apply Hstay. reflexivity.
Qed.

Lemma run_ledger events : forall (g : Game.t) i a,
  sound g -> resetFree events ->
  nth_error (Game.enemies g) i = Some a ->
  exists b,
    nth_error (Game.enemies (Game.run Math_sin g events)) i = Some b /\
    (Enemy.defeated a = true -> Enemy.defeated b = true) /\
    bonusPaid Math_sin i g events =
      (if Enemy.defeated b && negb (Enemy.defeated a) then 50 else 0)%Z.
Proof.
  induction events as [| e events IH]; intros g i a Hg He Hi.
  - exists a. cbn. split; [exact Hi |]. split; [auto |].
    now destruct (Enemy.defeated a).
  - inversion He as [| ? ? He1 He2]; subst.
    assert (Ha : settled a).
    { destruct Hg as [_ _ Hs _ _].
      eapply (proj1 (List.Forall_forall _ _) Hs), nth_error_In, Hi. }
    destruct (step_ledger g e i a Ha He1 Hi) as (m & Hm & Ham & Hpaid).
    destruct (IH (Game.step Math_sin g e) i m
                (sound_step Math_sin g e Hg) He2 Hm)
      as (b & Hb & Hmb & Hrest).
    exists b. cbn [Game.run fold_left bonusPaid].
    split; [exact Hb |]. split; [auto |].
    rewrite Hpaid, Hrest.
    destruct (Enemy.defeated a), (Enemy.defeated m), (Enemy.defeated b);
      cbn; try reflexivity;
      try (specialize (Ham eq_refl)); try (specialize (Hmb eq_refl));
      discriminate.
Qed.

End LedgerFacts.

(** C6.  Over every run of events without a reset, from any reachable
    state, the enemy loop pays for each enemy 50 in total if the enemy
    was defeated during the run and nothing otherwise, however many
    ticks the run spans after the defeat; an enemy once defeated stays
    defeated.  What the ledger records is what the enemy loop of each
    tick adds to the score, and the loop passes over every enemy
    already marked as paid. *)
Theorem defeat_bonus_paid_once
    (Math_sin : Q -> Q) (g : Game.t) (events : list Game.event)
    (i : nat) (a : Enemy.t) :
  Game.reachable Math_sin g ->
  resetFree events ->
  nth_error (Game.enemies g) i = Some a ->
  (exists b,
     nth_error (Game.enemies (Game.run Math_sin g events)) i = Some b /\
     (Enemy.defeated a = true -> Enemy.defeated b = true) /\
     bonusPaid Math_sin i g events =
       (if Enemy.defeated b && negb (Enemy.defeated a) then 50 else 0)%Z) /\
  Enemy.scoreGiven a = Enemy.defeated a /\
  (forall g',
     Game.gameOver g' = false -> Game.gameWon g' = false ->
     Game.score (Game.update Math_sin g') =
       (Game.score (beforeScoring Math_sin g') +
        sumZ (tickBonuses Math_sin g'))%Z) /\
  (forall sc e,
     Enemy.scoreGiven e = true -> Game.awardDefeat sc e = (sc, e)).
Proof.
  intros Hr He Hi. apply reachable_sound in Hr. repeat apply conj.
  - now apply run_ledger.
  - destruct Hr as [_ _ Hs _ _].
    eapply (proj1 (List.Forall_forall _ _) Hs), nth_error_In, Hi.
  - intros g'. apply tick_pays.
  - apply awardDefeat_paid.
Qed.

(** ** Game over and victory *)

Lemma jump_entity p : Player.entity (Player.jump p) = Player.entity p.
Proof. unfold Player.jump. case_ifs; reflexivity. Qed.

Section Terminal.

Variable Math_sin : Q -> Q.

Lemma update_cut_short g :
  Game.gameOver g = true \/ Game.gameWon g = true ->
  Game.update Math_sin g = g.
Proof.
  intros [H | H]; unfold Game.update; rewrite H;
    [reflexivity | now rewrite orb_true_r].
Qed.

Lemma update_flagsReflect g :
  flagsReflect g -> flagsReflect (Game.update Math_sin g).
Proof.
  intros Hg.
  destruct (Game.gameOver g) eqn:Hover;
    [rewrite update_cut_short; auto |].
  destruct (Game.gameWon g) eqn:Hwon;
    [rewrite update_cut_short; auto |].
  destruct (update_fields Math_sin g Hover Hwon)
    as (_ & _ & _ & _ & _ & H1 & H2 & _).
  split; assumption.
Qed.

Lemma flagsReflect_same (g g' : Game.t) :
  Game.player g' = Game.player g ->
  Game.gameOver g' = Game.gameOver g ->
  Game.gameWon g' = Game.gameWon g ->
  flagsReflect g -> flagsReflect g'.
Proof. unfold flagsReflect. intros -> -> ->. auto. Qed.

Lemma start_flagsReflect g :
  flagsReflect g -> flagsReflect (Game.start Math_sin g).
Proof.
  intros Hg. unfold Game.start, Game.gameLoop.
  destruct (Game.isRunning g); [exact Hg |].
  cbn [Game.isRunning Game.with_isRunning negb].
  apply update_flagsReflect. revert Hg. now apply flagsReflect_same.
Qed.

Lemma reset_flagsReflect g : flagsReflect (Game.reset Math_sin g).
Proof.
  unfold Game.reset. apply start_flagsReflect. split; reflexivity.
Qed.

Lemma step_flagsReflect g e :
  flagsReflect g -> flagsReflect (Game.step Math_sin g e).
Proof.
  intros Hg. destruct e; cbn [Game.step].
  - destruct (handleKeyDown_cases Math_sin key g) as (g' & Hg' & ->).
    destruct (resets _); [apply reset_flagsReflect |].
    destruct Hg' as [-> | ->]; [revert Hg; now apply flagsReflect_same |].
    destruct Hg as [H1 H2]. unfold flagsReflect, Player.active, Player.x.
    cbn. rewrite jump_entity. split; assumption.
  - revert Hg. now apply flagsReflect_same.
  - unfold Game.gameLoop. destruct (negb _); [exact Hg |].
    now apply update_flagsReflect.
  - now apply start_flagsReflect.
  - revert Hg. now apply flagsReflect_same.
  - apply reset_flagsReflect.
Qed.

Lemma reachable_flagsReflect g :
  Game.reachable Math_sin g -> flagsReflect g.
Proof.
  induction 1; [split; reflexivity | now apply step_flagsReflect].
Qed.

End Terminal.

(** C1, as the code has it.  A tick taken with neither flag set ends
    with two separate checks: [gameOver] is set exactly when the player
    is then inactive, and, whether or not that was so, [gameWon] is set
    exactly when the player's x then exceeds 2250; the high score is
    raised to the score when either is set.  A tick taken with a flag
    set changes nothing.  Hence in every reachable state [gameOver]
    holds exactly when the player is inactive and [gameWon] exactly
    when its x exceeds 2250. *)
Theorem terminal_checks (Math_sin : Q -> Q) (g : Game.t) :
  Game.reachable Math_sin g ->
  flagsReflect g /\
  (Game.gameOver g = false ->
   Game.gameWon g = false ->
   let g' := Game.update Math_sin g in
   Game.gameOver g' = negb (Player.active (Game.player g')) /\
   Game.gameWon g' = Qlt_bool 2250 (Player.x (Game.player g')) /\
   Game.highScore g' =
     (if Game.gameOver g' || Game.gameWon g'
      then Z.max (Game.highScore g) (Game.score g')
      else Game.highScore g)) /\
  (Game.gameOver g = true \/ Game.gameWon g = true ->
   Game.update Math_sin g = g).
Proof.
  intros Hr. split; [exact (reachable_flagsReflect Math_sin g Hr) |]. split.
  - intros Hover Hwon.
    destruct (update_fields Math_sin g Hover Hwon)
      as (_ & _ & _ & _ & _ & H1 & H2 & H3 & _).
    cbn zeta in *. repeat split; [exact H1 | exact H2 |].
    rewrite H3, <- H1, <- H2. reflexivity.
  - apply update_cut_short.
Qed.

(** C1 in a game played up to the goal: after [approachRun] neither
    flag is set, and the next tick sets its flags as the two checks
    say; after that tick a flag is set, and a further tick changes
    nothing. *)
Lemma terminal_checks_witness :
  let g := Game.run still Game.new approachRun in
  let g' := Game.update still g in
  let h := Game.step still g Game.Frame in
  (Game.gameOver g' = negb (Player.active (Game.player g')) /\
   Game.gameWon g' = Qlt_bool 2250 (Player.x (Game.player g')) /\
   Game.highScore g' =
     (if Game.gameOver g' || Game.gameWon g'
      then Z.max (Game.highScore g) (Game.score g')
      else Game.highScore g)) /\
  Game.update still h = h.
Proof.
  assert (H : let g := Game.run still Game.new approachRun in
              Game.gameOver g = false /\
              Game.gameWon g = false /\
              Game.gameOver (Game.step still g Game.Frame) = true)
    by (vm_compute; repeat split).
  cbv zeta in H. destruct H as (Hover & Hwon & Hend).
  intros g g' h.
  assert (Hg : Game.reachable still g)
    by apply reachable_run, Game.reachable_new.
  split.
  - exact (proj1 (proj2 (terminal_checks still g Hg)) Hover Hwon).
  - exact (proj2 (proj2 (terminal_checks still h
                           (Game.reachable_step still g Game.Frame Hg)))
             (or_introl Hend)).
Defined.

(** C1 as stated fails in a state the game reaches: the win check is
    not an else-branch of the game-over check.  After [approachRun]
    the game runs with neither flag set; the player, active with one
    health point and no longer invincible, stands on the ground at
    x = 2248, and the last ground enemy overlaps it.  In the next
    frame the player steps to x = 2254, the enemy takes its last
    health point, and the tick sets both [gameOver] and [gameWon] with
    the player inactive. *)
Lemma both_flags_counterexample :
  let g := Game.run still Game.new approachRun in
  let g' := Game.step still g Game.Frame in
  Game.reachable still g' /\
  (Game.isRunning g = true /\
   Game.gameOver g = false /\
   Game.gameWon g = false /\
   Player.active (Game.player g) = true /\
   Player.health (Game.player g) = 1%Z /\
   Player.invincible (Game.player g) = false /\
   Player.x (Game.player g) == 2248) /\
  (Player.active (Game.player g') = false /\
   Player.health (Game.player g') = 0%Z /\
   Player.x (Game.player g') == 2254 /\
   Game.gameOver g' = true /\
   Game.gameWon g' = true).
Proof.
  assert (H : let g := Game.run still Game.new approachRun in
              let g' := Game.step still g Game.Frame in
              (Game.isRunning g = true /\
               Game.gameOver g = false /\
               Game.gameWon g = false /\
               Player.active (Game.player g) = true /\
               Player.health (Game.player g) = 1%Z /\
               Player.invincible (Game.player g) = false /\
               Player.x (Game.player g) == 2248) /\
              (Player.active (Game.player g') = false /\
               Player.health (Game.player g') = 0%Z /\
               Player.x (Game.player g') == 2254 /\
               Game.gameOver g' = true /\
               Game.gameWon g' = true))
    by (vm_compute; repeat split).
  intros g g'. split; [| exact H].
  apply Game.reachable_step, reachable_run, Game.reachable_new.
Qed.

(** ** Reset *)

Lemma handleInput_cases (g : Game.t) :
  Game.gameOver g = false ->
  Game.gameWon g = false ->
  Game.player (Game.handleInput g) = Player.moveLeft (Game.player g) \/
  Game.player (Game.handleInput g) = Player.moveRight (Game.player g) \/
  Game.player (Game.handleInput g) = Player.stop (Game.player g).
Proof.
  intros Hover Hwon. unfold Game.handleInput. rewrite Hover, Hwon.
  cbn [orb]. case_ifs; cbn; auto.
Qed.

Section FirstTick.

Variable Math_sin : Q -> Q.

(** The first tick on a rebuilt level, whichever arrow key is held:
    the player meets no enemy and no collectible, so no enemy is
    defeated, nothing is collected and the score stays 0; the player
    stays active and far from the goal. *)
Lemma first_tick (p0 : Player.t) :
  p0 = Player.moveLeft (Player.new 100 100) \/
  p0 = Player.moveRight (Player.new 100 100) \/
  p0 = Player.stop (Player.new 100 100) ->
  let pu := Player.update p0 Game.createPlatforms Game.createEnemies in
  let pls := map Platform.update Game.createPlatforms in
  let es := map (Enemy.update pls) (snd pu) in
  let col := forEach (Game.pickUp Math_sin) (fst pu, 0%Z)
               Game.createCollectibles in
  let aw := forEach Game.awardDefeat (snd (fst col)) es in
  fst (fst col) = fst pu /\
  snd col = map (Collectible.update Math_sin) Game.createCollectibles /\
  fst aw = 0%Z /\
  snd aw = map (Enemy.update pls) Game.createEnemies /\
  Player.active (fst (fst col)) = true /\
  Qlt_bool 2250 (Player.x (fst (fst col))) = false.
Proof.
  intros [-> | [-> | ->]]; vm_compute; repeat split.
Qed.

End FirstTick.

(** A tick on a level as built, with score 0 and neither flag set. *)
Lemma update_on_built_level (Math_sin : Q -> Q) (g : Game.t) :
  Game.gameOver g = false ->
  Game.gameWon g = false ->
  Game.player g = Player.new 100 100 ->
  Game.platforms g = Game.createPlatforms ->
  Game.enemies g = Game.createEnemies ->
  Game.collectibles g = Game.createCollectibles ->
  Game.score g = 0%Z ->
  let r := Game.update Math_sin g in
  Game.score r = 0%Z /\
  Game.highScore r = Game.highScore g /\
  Game.gameOver r = false /\
  Game.gameWon r = false /\
  Game.isRunning r = Game.isRunning g /\
  Game.level r = Game.level g /\
  Game.platforms r = map Platform.update Game.createPlatforms /\
  Game.enemies r =
    map (Enemy.update (map Platform.update Game.createPlatforms))
        Game.createEnemies /\
  Game.collectibles r =
    map (Collectible.update Math_sin) Game.createCollectibles /\
  Game.player r =
    fst (Player.update (Game.player (Game.handleInput g))
           Game.createPlatforms Game.createEnemies).
Proof.
  intros Hover0 Hwon0 Epl Eps Ees Ecs Esc. cbn zeta.
  destruct (update_fields Math_sin g Hover0 Hwon0)
    as (Hp & Hpl & He & Hc & Hs & Hover & Hwon & Hh & _ & Hrun & Hlv).
  pose proof (handleInput_cases g Hover0 Hwon0) as Hin.
  rewrite Epl in Hin.
  destruct (first_tick Math_sin _ Hin) as (F1 & F2 & F3 & F4 & F5 & F6).
  revert Hp Hpl He Hc Hs Hover Hwon Hh Hrun Hlv F1 F2 F3 F4 F5 F6.
  rewrite Eps, Ees, Ecs, Esc. cbn zeta.
  generalize (Game.update Math_sin g).
  generalize (Player.update (Game.player (Game.handleInput g))
                Game.createPlatforms Game.createEnemies).
  intros pu.
  generalize (forEach (Game.pickUp Math_sin) (fst pu, 0%Z)
                Game.createCollectibles).
  intros col.
  generalize (forEach Game.awardDefeat (snd (fst col))
                (map (Enemy.update (map Platform.update Game.createPlatforms))
                   (snd pu))).
  intros aw r Hp Hpl He Hc Hs Hover Hwon Hh Hrun Hlv F1 F2 F3 F4 F5 F6.
  rewrite Hp in Hover, Hwon, Hh. rewrite F5 in Hover, Hh.
  rewrite F6 in Hwon, Hh. cbn [negb orb] in Hover, Hh.
  repeat split; try assumption; congruence.
Qed.

(** C9.  [reset] rebuilds the level (a new player, the platforms,
    enemies and collectibles as their constructors make them, score 0,
    both flags cleared, the high score untouched) and starts it, which
    runs one tick on the rebuilt level.  After it the score is 0, both
    flags are clear, the game runs, the high score is the one from
    before the reset, and the player and the three collections are
    those of the rebuilt level after their first tick. *)
Theorem reset_keeps_high_score (Math_sin : Q -> Q) (g : Game.t) :
  let r := Game.reset Math_sin g in
  r = Game.update Math_sin (rebuilt g) /\
  Game.score r = 0%Z /\
  Game.highScore r = Game.highScore g /\
  Game.gameOver r = false /\
  Game.gameWon r = false /\
  Game.isRunning r = true /\
  Game.level r = 1%Z /\
  Game.platforms r = map Platform.update Game.createPlatforms /\
  Game.enemies r =
    map (Enemy.update (map Platform.update Game.createPlatforms))
        Game.createEnemies /\
  Game.collectibles r =
    map (Collectible.update Math_sin) Game.createCollectibles /\
  Game.player r =
    fst (Player.update (Game.player (Game.handleInput (rebuilt g)))
           Game.createPlatforms Game.createEnemies).
Proof.
  cbn zeta.
  assert (Hr : Game.reset Math_sin g = Game.update Math_sin (rebuilt g))
    by reflexivity.
  rewrite Hr. split; [reflexivity |].
  exact (update_on_built_level Math_sin (rebuilt g)
           eq_refl eq_refl eq_refl eq_refl eq_refl eq_refl eq_refl).
Qed.

Lemma stompRun_defeats :
  option_map Enemy.defeated
    (nth_error (Game.enemies (Game.run still Game.new stompRun)) 9) =
  Some true.
Proof. vm_compute. reflexivity. Qed.

(** C6 on that game: the enemy at index 9 is defeated in it, and the
    run pays 50 for it in total. *)
Lemma defeat_bonus_paid_once_witness :
  bonusPaid still 9 Game.new stompRun = 50%Z.
Proof.
  destruct (defeat_bonus_paid_once still Game.new stompRun 9
              (Enemy.new 110 260 100 230))
    as ((b & Hb & _ & Hpaid) & _).
  - apply Game.reachable_new.
  - unfold stompRun, resetFree.
    repeat (apply List.Forall_cons; [reflexivity |]). apply List.Forall_nil.
  - reflexivity.
  - pose proof stompRun_defeats as Hd. rewrite Hb in Hd.
    injection Hd as Hd. rewrite Hd in Hpaid. exact Hpaid.
Defined.

(** * Further properties of the game *)

(** ** Platform collisions separate the boxes *)

(** X1.  When the player overlaps a platform and one of the four
    branches of the resolution applies (landing, ceiling, moving right,
    moving left), the player no longer overlaps that platform
    afterwards; when none applies, which needs a horizontal speed of
    exactly 0, the player is left as it is, still overlapping. *)
Theorem hitPlatform_separates (p : Player.t) (pl : Platform.t) :
  Entity.collidesWith (Player.entity p) (Platform.entity pl) = true ->
  (fellOnto 5 p (Platform.y pl) \/
   (Player.velocityY p < 0 /\
    Platform.y pl + Platform.height pl <= Player.y p - Player.velocityY p) \/
   ~ Player.velocityX p == 0 ->
   Entity.collidesWith (Player.entity (Player.hitPlatform p pl))
                       (Platform.entity pl) = false) /\
  (~ fellOnto 5 p (Platform.y pl) ->
   ~ (Player.velocityY p < 0 /\
      Platform.y pl + Platform.height pl <= Player.y p - Player.velocityY p) ->
   Player.velocityX p == 0 ->
   Player.hitPlatform p pl = p).
Proof.
  intros Hc.
  destruct p as [[px py pw ph pc pa] vx vy sp jp g og hp mh inv it dj hdj].
  destruct pl as [[lx ly lw lh lc la] mv mr ms sx dir].
  unfold Player.hitPlatform, fellOnto, Player.x, Player.y, Player.width,
    Player.height, Platform.x, Platform.y, Platform.width, Platform.height
    in *.
  rewrite Hc. cbn in *.
  apply collidesWith_overlap in Hc. cbn in Hc.
  destruct Hc as (-> & -> & H1 & H2 & H3 & H4).
  assert (Hno : forall a b : Entity.t,
            Entity.x a + Entity.width a <= Entity.x b \/
            Entity.x b + Entity.width b <= Entity.x a \/
            Entity.y a + Entity.height a <= Entity.y b \/
            Entity.y b + Entity.height b <= Entity.y a ->
            Entity.collidesWith a b = false).
  { intros a b H. apply not_true_iff_false. intros Hab.
    apply collidesWith_overlap in Hab.
    destruct Hab as (_ & _ & ? & ? & ? & ?). lra. }
  destruct (Qlt_bool 0 vy) eqn:E1; cbn [andb].
  1: destruct (Qle_bool (py + ph - vy) (ly + 5)) eqn:E2.
  all: destruct (Qlt_bool vy 0) eqn:E3; cbn [andb].
  all: try destruct (Qle_bool (ly + lh) (py - vy)) eqn:E4.
  all: destruct (Qlt_bool 0 vx) eqn:E5.
  all: try destruct (Qlt_bool vx 0) eqn:E6.
  all: qprop; split;
    [ intros H; apply Hno; cbn; lra
    | intros Ha Hb Hv; try reflexivity; exfalso; lra ].
Qed.

(** X1 on a player walking right into the side of the first ground
    section from the pit. *)
Lemma hitPlatform_separates_witness :
  Entity.collidesWith
    (Player.entity
       (Player.hitPlatform
          (Player.with_velocityX 6 (Player.new 470 560))
          (Platform.static 500 550 400 50)))
    (Platform.entity (Platform.static 500 550 400 50)) = false.
Proof.
  apply (hitPlatform_separates
           (Player.with_velocityX 6 (Player.new 470 560))
           (Platform.static 500 550 400 50)).
  - reflexivity.
  - right. right. intros H. discriminate H.
Defined.

(** ** Reachable states are built *)

Section Built.

Variable Math_sin : Q -> Q.

Lemma built_gameLoop g :
  built Math_sin g -> built Math_sin (Game.gameLoop Math_sin g).
Proof.
  intros Hg. unfold Game.gameLoop.
  destruct (negb _); [exact Hg | now constructor].
Qed.

Lemma built_start g :
  built Math_sin g -> built Math_sin (Game.start Math_sin g).
Proof.
  intros Hg. unfold Game.start. destruct (Game.isRunning g); [exact Hg |].
  apply built_gameLoop. now constructor.
Qed.

Lemma built_reset g :
  built Math_sin g -> built Math_sin (Game.reset Math_sin g).
Proof.
  intros Hg. unfold Game.reset, Game.stop.
  apply built_start, built_level. now constructor.
Qed.

Lemma built_handleKeyDown key g :
  built Math_sin g -> built Math_sin (Game.handleKeyDown Math_sin key g).
Proof.
  intros Hg. unfold Game.handleKeyDown.
  set (g1 := Game.with_keys _ g).
  assert (H1 : built Math_sin g1) by now constructor.
  assert (H2 : built Math_sin
                 (if (String.eqb key " " || String.eqb key "ArrowUp") &&
                     negb (Game.gameOver g1) && negb (Game.gameWon g1)
                  then Game.with_player (Player.jump (Game.player g1)) g1
                  else g1)).
  { destruct (String.eqb key " " || String.eqb key "ArrowUp");
      [| exact H1].
    destruct (Game.gameOver g1) eqn:Hover; [exact H1 |].
    destruct (Game.gameWon g1) eqn:Hwon; [exact H1 |].
    now constructor. }
  destruct (String.eqb key "r" || String.eqb key "R");
    [now apply built_reset | exact H2].
Qed.

Lemma built_step g e :
  built Math_sin g -> built Math_sin (Game.step Math_sin g e).
Proof.
  intros Hg. destruct e; cbn [Game.step].
  - now apply built_handleKeyDown.
  - unfold Game.handleKeyUp. now constructor.
  - now apply built_gameLoop.
  - now apply built_start.
  - unfold Game.stop. now constructor.
  - now apply built_reset.
Qed.

Lemma reachable_built g :
  Game.reachable Math_sin g -> built Math_sin g.
Proof.
  induction 1; [constructor | now apply built_step].
Qed.

End Built.

(** ** The player stays inside the level *)

(** Width and height of the player. *)
Lemma hitPlatform_size p pl :
  Player.width (Player.hitPlatform p pl) = Player.width p /\
  Player.height (Player.hitPlatform p pl) = Player.height p.
Proof. unfold Player.hitPlatform. case_ifs; split; reflexivity. Qed.

Lemma move_size p pls :
  Player.width (Player.move p pls) = Player.width p /\
  Player.height (Player.move p pls) = Player.height p.
Proof.
  unfold Player.move.
  match goal with
  | |- context [Player.checkPlatformCollisions ?a pls] =>
      assert (H : Player.width (Player.checkPlatformCollisions a pls) =
                    Player.width p /\
                  Player.height (Player.checkPlatformCollisions a pls) =
                    Player.height p)
  end.
  { unfold Player.checkPlatformCollisions.
    apply (fold_left_invariant Player.hitPlatform
             (fun q => Player.width q = Player.width p /\
                       Player.height q = Player.height p)).
    - intros s a [H1 H2]. destruct (hitPlatform_size s a) as [H3 H4].
      split; congruence.
    - split; reflexivity. }
  destruct H as [H1 H2]. case_ifs; split; assumption.
Qed.

Lemma takeDamage_size p :
  Player.width (Player.takeDamage p) = Player.width p /\
  Player.x (Player.takeDamage p) = Player.x p.
Proof.
  unfold Player.takeDamage. destruct (negb _); [| split; reflexivity].
  cbn. destruct (_ <=? _)%Z; split; reflexivity.
Qed.

Lemma checkEnemyCollisions_size p es :
  Player.width (fst (Player.checkEnemyCollisions p es)) = Player.width p.
Proof.
  unfold Player.checkEnemyCollisions.
  destruct (Player.invincible p); [reflexivity |].
  apply (forEach_state Player.hitEnemy
           (fun q => Player.width q = Player.width p)); [| reflexivity].
  intros s e Hs. unfold Player.hitEnemy. case_ifs; cbn; try exact Hs.
  now rewrite (proj1 (takeDamage_size s)).
Qed.

(** [constrainToBounds] puts a player no wider than the level inside
    it. *)
Lemma constrainToBounds_in_level p :
  Player.width p <= 2400 ->
  let q := Player.constrainToBounds p in
  Player.width q = Player.width p /\
  0 <= Player.x q /\
  Player.x q + Player.width q <= 2400.
Proof.
  intros Hw. cbn zeta.
  destruct p as [[px py pw ph pc pa] vx vy sp jp g og hp mh inv it dj hdj].
  unfold Player.constrainToBounds, Player.x, Player.y, Player.width in *.
  cbn in *.
  destruct (Qlt_bool px 0) eqn:E1; cbn;
    match goal with
    | |- context [Qlt_bool 2400 ?a] => destruct (Qlt_bool 2400 a) eqn:E2
    end; cbn;
    destruct (Qlt_bool 600 py); cbn; qprop; repeat split; lra.
Qed.

Lemma tickInvincibility_entity p :
  Player.entity (Player.tickInvincibility p) = Player.entity p.
Proof.
  unfold Player.tickInvincibility. destruct (Player.invincible p);
    [| reflexivity].
  cbn. destruct (_ <=? _)%Z; reflexivity.
Qed.

Lemma update_in_level p pls es :
  Player.width p <= 2400 ->
  let q := fst (Player.update p pls es) in
  Player.width q = Player.width p /\
  0 <= Player.x q /\
  Player.x q + Player.width q <= 2400.
Proof.
  intros Hw. cbn zeta. unfold Player.update.
  pose proof (checkEnemyCollisions_size (Player.move p pls) es) as H1.
  destruct (Player.checkEnemyCollisions _ _) as [q es']. cbn [fst] in *.
  rewrite (proj1 (move_size p pls)) in H1.
  destruct (constrainToBounds_in_level q) as (H2 & H3 & H4);
    [rewrite H1; exact Hw |].
  cbn zeta in *.
  unfold Player.x, Player.width in *. rewrite tickInvincibility_entity.
  repeat split; try assumption. congruence.
Qed.

Section Geometry.

Variable Math_sin : Q -> Q.

(** What a tick does to the camera and to the fixed dimensions. *)
Lemma update_camera (g : Game.t) :
  Game.gameOver g = false ->
  Game.gameWon g = false ->
  let g' := Game.update Math_sin g in
  Game.canvas_width g' = Game.canvas_width g /\
  Game.canvas_height g' = Game.canvas_height g /\
  Game.levelWidth g' = Game.levelWidth g /\
  Game.cameraX g' =
    Qmax 0 (Qmin (Player.x (Game.player g') - Game.canvas_width g / 3)
                 (Game.levelWidth g - Game.canvas_width g)).
Proof.
  intros Hover Hwon. cbn zeta.
  unfold Game.update. rewrite Hover, Hwon. cbn [orb].
  destruct (handleInput_fields g) as [v ->].
  destruct g as [cw ch cam lw pl pls es cs sc hs lv ks ir go gw].
  unfold Game.updatePlayer, Game.updatePlatforms, Game.updateEnemies,
    Game.updateCollectibles, Game.awardDefeats, Game.updateCamera.
  cbn -[Player.update forEach map Qmax Qmin Qlt_bool Z.ltb].
  destruct (Player.update _ _ _) as [p es1].
  cbn -[Player.update forEach map Qmax Qmin Qlt_bool Z.ltb].
  destruct (forEach (Game.pickUp Math_sin) _ _) as [[p' sc1] cs1].
  cbn -[Player.update forEach map Qmax Qmin Qlt_bool Z.ltb].
  destruct (forEach Game.awardDefeat _ _) as [sc2 es2].
  unfold Game.checkWin, Game.checkGameOver.
  cbn -[Player.update forEach map Qmax Qmin Qlt_bool Z.ltb].
  destruct (negb (Player.active p'));
    cbn -[Player.update forEach map Qmax Qmin Qlt_bool Z.ltb];
    repeat match goal with
      | |- context [if ?c then _ else _] =>
          destruct c;
          cbn -[Player.update forEach map Qmax Qmin Qlt_bool Z.ltb]
      end;
    repeat split; reflexivity.
Qed.

End Geometry.

Section Frame.

Variable Math_sin : Q -> Q.

(** Collecting changes health and the double-jump flag of the player,
    never its box. *)
Lemma pickUp_entity s c :
  Player.entity (fst (fst (Game.pickUp Math_sin s c))) =
  Player.entity (fst s).
Proof.
  destruct s as [p sc]. destruct c as [ce ty co ro bo bs va].
  unfold Game.pickUp, Collectible.update. cbn zeta.
  destruct co; cbn -[Entity.collidesWith]; [reflexivity |].
  destruct (Entity.collidesWith _ _); cbn; [| reflexivity].
  destruct ty; reflexivity.
Qed.

Lemma update_player_entity g :
  Game.gameOver g = false ->
  Game.gameWon g = false ->
  Player.entity (Game.player (Game.update Math_sin g)) =
  Player.entity
    (fst (Player.update (Game.player (Game.handleInput g))
            (Game.platforms g) (Game.enemies g))).
Proof.
  intros Hover Hwon.
  destruct (update_fields Math_sin g Hover Hwon) as (-> & _).
  generalize (Game.collectibles g).
  generalize (Player.update (Game.player (Game.handleInput g))
                (Game.platforms g) (Game.enemies g)).
  intros pu cs.
  apply (forEach_state (Game.pickUp Math_sin)
           (fun s => Player.entity (fst s) = Player.entity (fst pu)));
    [| reflexivity].
  intros s c Hs. now rewrite pickUp_entity.
Qed.

Lemma framed_update g : framed g -> framed (Game.update Math_sin g).
Proof.
  intros Hg.
  destruct (Game.gameOver g) eqn:Hover;
    [rewrite update_cut_short; auto |].
  destruct (Game.gameWon g) eqn:Hwon;
    [rewrite update_cut_short; auto |].
  destruct Hg as (Hw & _ & _ & Hcw & Hlw & _).
  destruct (update_camera Math_sin g Hover Hwon) as (Ecw & _ & Elw & Ecam).
  pose proof (update_player_entity g Hover Hwon) as Ee.
  cbn zeta in *.
  destruct (handleInput_fields g) as [v Hv]. rewrite Hv in Ee.
  cbn [Game.player Game.with_player] in Ee.
  destruct (update_in_level (Player.with_velocityX v (Game.player g))
              (Game.platforms g) (Game.enemies g))
    as (H1 & H2 & H3).
  { change (Player.width (Player.with_velocityX v (Game.player g)))
      with (Player.width (Game.player g)).
    rewrite Hw. apply Qle_bool_iff. reflexivity. }
  cbn zeta in *.
  change (Player.width (Player.with_velocityX v (Game.player g)))
    with (Player.width (Game.player g)) in H1.
  unfold framed. rewrite Ecam, Ecw, Elw, Hcw, Hlw.
  unfold Player.x, Player.width in *. rewrite Ee.
  rewrite H1, Hw in H3. rewrite H1, Hw.
  repeat split; assumption.
Qed.

Lemma built_framed g : built Math_sin g -> framed g.
Proof.
  induction 1 as [| g _ IH | g keys _ IH | g b _ IH | g _ IH Hover Hwon
                  | g _ IH].
  - unfold framed. cbn. repeat split;
      apply Qle_bool_iff; reflexivity.
  - now apply framed_update.
  - exact IH.
  - exact IH.
  - unfold framed, Player.x, Player.width in *.
    cbn [Game.player Game.with_player Game.canvas_width Game.levelWidth
         Game.cameraX].
    rewrite jump_entity. exact IH.
  - destruct IH as (_ & _ & _ & Hcw & Hlw & _).
    unfold framed. cbn. repeat split; try assumption;
      apply Qle_bool_iff; reflexivity.
Qed.

End Frame.

(** X2.  In every reachable state the player, 40 wide, lies inside the
    level: its left edge is not left of 0 and its right edge not right
    of 2400. *)
Theorem player_inside_level (Math_sin : Q -> Q) (g : Game.t) :
  Game.reachable Math_sin g ->
  Player.width (Game.player g) = 40 /\
  0 <= Player.x (Game.player g) /\
  Player.x (Game.player g) + Player.width (Game.player g) <= 2400.
Proof.
  intros Hr. apply reachable_built, built_framed in Hr.
  destruct Hr as (Hw & H0 & H1 & _). rewrite Hw. auto.
Qed.

(** X2 for the game in which the player stomps an enemy. *)
Lemma player_inside_level_witness :
  0 <= Player.x (Game.player (Game.run still Game.new stompRun)).
Proof.
  exact (proj1 (proj2 (player_inside_level still _
                         (reachable_run still Game.new stompRun
                            (Game.reachable_new still))))).
Defined.

(** X3.  In every reachable state the camera offset is the clamped
    player position [max 0 (min (x - 800/3) 1600)], hence within
    [0, 1600], and it is 0 as long as the player's x does not exceed
    800/3. *)
Theorem camera_follows_player (Math_sin : Q -> Q) (g : Game.t) :
  Game.reachable Math_sin g ->
  Game.cameraX g =
    Qmax 0 (Qmin (Player.x (Game.player g) - Game.canvas_width g / 3)
                 (Game.levelWidth g - Game.canvas_width g)) /\
  0 <= Game.cameraX g /\
  Game.cameraX g <= 1600 /\
  (Player.x (Game.player g) <= 800 / 3 -> Game.cameraX g == 0).
Proof.
  intros Hr. apply reachable_built, built_framed in Hr.
  destruct Hr as (_ & _ & _ & Hcw & Hlw & Hcam).
  rewrite Hcw, Hlw, Hcam.
  split; [reflexivity |].
  set (t := Player.x (Game.player g) - 800 / 3).
  destruct (Q.max_spec 0 (Qmin t (2400 - 800))) as [[H1 H2] | [H1 H2]];
    destruct (Q.min_spec t (2400 - 800)) as [[H3 H4] | [H3 H4]];
    rewrite H2 in *; rewrite ?H4 in *; subst t;
    repeat split; intros; try lra.
Qed.

(** X3 for the freshly constructed game. *)
Lemma camera_follows_player_witness : Game.cameraX Game.new <= 1600.
Proof.
  exact (proj1 (proj2 (proj2 (camera_follows_player still Game.new
                                (Game.reachable_new still))))).
Defined.

(** ** Damage and invincibility *)

(** Enemy collisions cost at most one health point: the first damage
    makes the player invincible for the rest of the loop. *)
Lemma checkEnemyCollisions_health p es :
  let q := fst (Player.checkEnemyCollisions p es) in
  (Player.invincible p = true -> q = p) /\
  ((Player.invincible q = Player.invincible p /\
    Player.invincibleTimer q = Player.invincibleTimer p /\
    Player.health q = Player.health p) \/
   (Player.invincible p = false /\
    Player.invincible q = true /\
    Player.invincibleTimer q = 90%Z /\
    Player.health q = (Player.health p - 1)%Z)).
Proof.
  cbn zeta. unfold Player.checkEnemyCollisions.
  destruct (Player.invincible p) eqn:Hi; cbn [fst]; [split; auto |].
  split; [discriminate |].
  apply (forEach_state Player.hitEnemy
           (fun q =>
              (Player.invincible q = false /\
               Player.invincibleTimer q = Player.invincibleTimer p /\
               Player.health q = Player.health p) \/
              (false = false /\
               Player.invincible q = true /\
               Player.invincibleTimer q = 90%Z /\
               Player.health q = (Player.health p - 1)%Z)));
    [| left; auto].
  intros s e Hs. unfold Player.hitEnemy.
  destruct (Entity.collidesWith _ _); [| exact Hs].
  destruct (_ && _); [exact Hs |].
  cbn [fst]. unfold Player.takeDamage.
  destruct Hs as [(H1 & H2 & H3) | (_ & H1 & H2 & H3)]; rewrite H1;
    cbn [negb]; [right | right; auto].
  cbn. destruct (_ <=? _)%Z; cbn; rewrite H3; auto.
Qed.

Lemma move_invincible p pls :
  Player.invincible (Player.move p pls) = Player.invincible p /\
  Player.invincibleTimer (Player.move p pls) = Player.invincibleTimer p.
Proof.
  unfold Player.move.
  match goal with
  | |- context [Player.checkPlatformCollisions ?a pls] =>
      assert (H : Player.invincible (Player.checkPlatformCollisions a pls) =
                    Player.invincible p /\
                  Player.invincibleTimer
                    (Player.checkPlatformCollisions a pls) =
                    Player.invincibleTimer p)
  end.
  { unfold Player.checkPlatformCollisions.
    apply (fold_left_invariant Player.hitPlatform
             (fun q => Player.invincible q = Player.invincible p /\
                       Player.invincibleTimer q = Player.invincibleTimer p)).
    - intros s a [H1 H2]. unfold Player.hitPlatform.
      case_ifs; split; assumption.
    - split; reflexivity. }
  destruct H as [H1 H2]. case_ifs; split; assumption.
Qed.

Lemma constrainToBounds_invincible p :
  Player.invincible (Player.constrainToBounds p) = Player.invincible p /\
  Player.invincibleTimer (Player.constrainToBounds p) =
    Player.invincibleTimer p.
Proof. unfold Player.constrainToBounds. case_ifs; split; reflexivity. Qed.

Lemma tickInvincibility_timer p :
  Player.invincible p = true ->
  Player.invincibleTimer (Player.tickInvincibility p) =
    (Player.invincibleTimer p - 1)%Z /\
  Player.invincible (Player.tickInvincibility p) =
    negb (Player.invincibleTimer p - 1 <=? 0)%Z.
Proof.
  intros Hi. unfold Player.tickInvincibility. rewrite Hi. cbn.
  destruct (_ <=? _)%Z; cbn; auto.
Qed.

(** What one [update] can cost in health. *)
Lemma update_health_cost (p : Player.t) pls es :
  let q := fst (Player.update p pls es) in
  (600 < Player.y q ->
   Player.health q = 0%Z /\ Player.active q = false) /\
  (~ 600 < Player.y q ->
   (Player.health q = Player.health p \/
    Player.health q = (Player.health p - 1)%Z) /\
   (Player.invincible p = true -> Player.health q = Player.health p)).
Proof.
  cbn zeta. unfold Player.update.
  destruct (checkEnemyCollisions_health (Player.move p pls) es)
    as [Hskip Hcost].
  cbn zeta in *.
  destruct (Player.checkEnemyCollisions _ _) as [q es']. cbn [fst] in *.
  destruct (move_vitals p pls) as (Hmh & _ & _).
  destruct (move_invincible p pls) as (Hmi & _).
  destruct (tickInvincibility_vitals (Player.constrainToBounds q))
    as (-> & _ & ->).
  assert (Hy : Player.y (Player.tickInvincibility
                           (Player.constrainToBounds q)) = Player.y q).
  { unfold Player.y. rewrite tickInvincibility_entity.
    apply (constrainToBounds_vitals q). }
  rewrite Hy.
  destruct (constrainToBounds_vitals q) as (_ & _ & Hfall & Hstay).
  cbn zeta in *. split; [exact Hfall |].
  intros Hn. destruct (Hstay Hn) as [-> _]. split.
  - destruct Hcost as [(_ & _ & ->) | (_ & _ & _ & ->)];
      rewrite Hmh; auto.
  - intros Hi. rewrite Hskip by congruence. exact Hmh.
Qed.

(** X4.  One [update] lowers the player's health by at most one,
    however many enemies overlap it, and not at all while the player
    is invincible, unless the player ends the update below y = 600, in
    which case health is 0 and the player inactive. *)
Theorem update_costs_at_most_one (p : Player.t) pls es :
  let q := fst (Player.update p pls es) in
  (600 < Player.y q ->
   Player.health q = 0%Z /\ Player.active q = false) /\
  (~ 600 < Player.y q ->
   (Player.health q = Player.health p \/
    Player.health q = (Player.health p - 1)%Z) /\
   (Player.invincible p = true -> Player.health q = Player.health p)).
Proof.
  exact (update_health_cost p pls es).
Qed.

(** One [update] of an invincible player counts the timer down by one,
    ends the invincibility when the timer reaches 0, and lowers health
    only by a fall. *)
Lemma update_while_invincible p pls es :
  Player.invincible p = true ->
  let q := fst (Player.update p pls es) in
  Player.invincibleTimer q = (Player.invincibleTimer p - 1)%Z /\
  Player.invincible q = negb (Player.invincibleTimer p - 1 <=? 0)%Z /\
  (Player.health q = Player.health p \/ Player.health q = 0%Z).
Proof.
  intros Hi. cbn zeta.
  pose proof (update_health_cost p pls es) as [Hfall Hstay].
  cbn zeta in *. revert Hfall Hstay. unfold Player.update.
  destruct (checkEnemyCollisions_health (Player.move p pls) es)
    as [Hskip _].
  cbn zeta in *.
  destruct (move_invincible p pls) as (Hmi & Hmt).
  destruct (Player.checkEnemyCollisions _ _) as [q es']. cbn [fst] in *.
  rewrite Hskip by congruence.
  destruct (constrainToBounds_invincible (Player.move p pls)) as [Hci Hct].
  destruct (tickInvincibility_timer
              (Player.constrainToBounds (Player.move p pls)))
    as [Ht Hinv]; [congruence |].
  rewrite Ht, Hinv, Hct, Hmt. intros Hfall Hstay.
  split; [reflexivity |]. split; [reflexivity |].
  destruct (Qlt_le_dec 600
              (Player.y (Player.tickInvincibility
                           (Player.constrainToBounds (Player.move p pls)))))
    as [H | H].
  - right. now apply Hfall.
  - left. apply Hstay; [lra | exact Hi].
Qed.

Lemma invincible_window (cs : list Calls.call) : forall p (h : Z),
  Forall (fun c => isUpdate c = true) cs ->
  Player.invincible p = true ->
  (Z.of_nat (length cs) < Player.invincibleTimer p)%Z ->
  (Player.health p = h \/ Player.health p = 0%Z) ->
  let q := Calls.run p cs in
  Player.invincible q = true /\
  Player.invincibleTimer q =
    (Player.invincibleTimer p - Z.of_nat (length cs))%Z /\
  (Player.health q = h \/ Player.health q = 0%Z).
Proof.
  induction cs as [| c cs IH]; intros p h Hcs Hi Hlen Hh.
  - cbn. repeat split; [exact Hi | lia | exact Hh].
  - inversion Hcs as [| ? ? Hc Hcs']; subst.
    destruct c; try discriminate Hc.
    cbn [Calls.run fold_left Calls.apply length] in *.
    destruct (update_while_invincible p platforms enemies Hi)
      as (Ht & Hinv & Hhealth).
    cbn zeta in *.
    set (q := fst (Player.update p platforms enemies)) in *.
    destruct (IH q h Hcs') as (H1 & H2 & H3).
    + rewrite Hinv. apply negb_true_iff, Z.leb_gt. lia.
    + lia.
    + destruct Hh as [Hh | Hh]; rewrite Hh in Hhealth; tauto.
    + fold (Calls.run q cs). repeat split; [exact H1 | lia | exact H3].
Qed.

(** X5.  Damage buys 90 updates of invincibility.  After [takeDamage]
    on a player that was not invincible, any 89 or fewer updates,
    against whatever platforms and enemies, leave the player
    invincible and its health at one below what it was, or at 0 if it
    fell below y = 600; the 90th update ends the invincibility. *)
Theorem invincibility_lasts_90_updates (p : Player.t) (cs : list Calls.call) :
  Player.invincible p = false ->
  Forall (fun c => isUpdate c = true) cs ->
  (length cs <= 89)%nat ->
  let q := Calls.run (Player.takeDamage p) cs in
  Player.invincible q = true /\
  (Player.health q = (Player.health p - 1)%Z \/ Player.health q = 0%Z) /\
  (length cs = 89%nat ->
   forall pls es,
     Player.invincible (Calls.apply q (Calls.Update pls es)) = false).
Proof.
  intros Hi Hcs Hlen. cbn zeta.
  assert (Hd : Player.invincible (Player.takeDamage p) = true /\
               Player.invincibleTimer (Player.takeDamage p) = 90%Z /\
               Player.health (Player.takeDamage p) =
                 (Player.health p - 1)%Z).
  { unfold Player.takeDamage. rewrite Hi. cbn.
    destruct (_ <=? _)%Z; cbn; auto. }
  destruct Hd as (Hdi & Hdt & Hdh).
  destruct (invincible_window cs (Player.takeDamage p)
              (Player.health p - 1)%Z Hcs Hdi)
    as (H1 & H2 & H3); [lia | auto |].
  cbn zeta in *. split; [exact H1 |]. split; [exact H3 |].
  intros Hlast pls es. cbn [Calls.apply].
  destruct (update_while_invincible _ pls es H1) as (_ & -> & _).
  rewrite H2, Hdt, Hlast. reflexivity.
Qed.

(** X5 on the fresh player: damaged, then updated three times in mid
    air. *)
Lemma invincibility_lasts_90_updates_witness :
  Player.invincible
    (Calls.run (Player.takeDamage (Player.new 100 100))
       [Calls.Update [] []; Calls.Update [] []; Calls.Update [] []]) = true.
Proof.
  refine (proj1 (invincibility_lasts_90_updates (Player.new 100 100)
                   [Calls.Update [] []; Calls.Update [] []; Calls.Update [] []]
                   eq_refl _ _)).
  - repeat constructor.
  - cbn. lia.
Defined.

(** ** The defeat animation *)

Lemma defeated_ticks (plss : list (list Platform.t)) : forall e,
  Enemy.defeated e = true ->
  let e' := enemyTicks e plss in
  Enemy.x e' = Enemy.x e /\
  Enemy.y e' = Enemy.y e /\
  Enemy.width e' = Enemy.width e /\
  Enemy.height e' = Enemy.height e /\
  Enemy.defeated e' = true /\
  Enemy.scoreGiven e' = Enemy.scoreGiven e /\
  Enemy.defeatTimer e' = (Enemy.defeatTimer e + Z.of_nat (length plss))%Z /\
  Enemy.active e' =
    Enemy.active e &&
    ((length plss =? 0)%nat ||
     (Enemy.defeatTimer e + Z.of_nat (length plss) <=? 30)%Z).
Proof.
  induction plss as [| pls plss IH]; intros e Hd.
  - cbn. repeat split; try assumption; try lia.
    now rewrite andb_true_r.
  - cbn [enemyTicks fold_left length]. fold (enemyTicks (Enemy.update pls e) plss).
    rewrite (Enemy_update_defeated e pls Hd).
    set (e1 := if (30 <? _)%Z then _ else _).
    assert (H1 : Enemy.defeated e1 = true /\
                 Enemy.x e1 = Enemy.x e /\ Enemy.y e1 = Enemy.y e /\
                 Enemy.width e1 = Enemy.width e /\
                 Enemy.height e1 = Enemy.height e /\
                 Enemy.scoreGiven e1 = Enemy.scoreGiven e /\
                 Enemy.defeatTimer e1 = (Enemy.defeatTimer e + 1)%Z /\
                 Enemy.active e1 =
                   Enemy.active e && (Enemy.defeatTimer e + 1 <=? 30)%Z).
    { subst e1. destruct (Z.ltb_spec 30 (Enemy.defeatTimer e + 1));
        destruct (Z.leb_spec (Enemy.defeatTimer e + 1) 30); try lia;
        unfold Enemy.active; cbn; rewrite ?andb_true_r, ?andb_false_r;
        repeat split; assumption. }
    destruct H1 as (Hd1 & Hx & Hy & Hw & Hh & Hs & Ht & Ha).
    destruct (IH e1 Hd1) as (Ix & Iy & Iw & Ih & Id & Is & It & Ia).
    cbn zeta in *.
    rewrite Ix, Iy, Iw, Ih, Id, Is, It, Ia, Hx, Hy, Hw, Hh, Hs, Ht, Ha.
    repeat split; try lia.
    destruct (Enemy.active e); cbn [andb]; [| reflexivity].
    destruct plss as [| pls' plss']; cbn [length Nat.eqb orb].
    + rewrite andb_true_r. f_equal; lia.
    + destruct (Z.leb_spec (Enemy.defeatTimer e + 1) 30);
        destruct (Z.leb_spec (Enemy.defeatTimer e + 1 +
                              Z.of_nat (S (length plss'))) 30);
        destruct (Z.leb_spec (Enemy.defeatTimer e +
                              Z.of_nat (S (S (length plss')))) 30);
        cbn; try reflexivity; lia.
Qed.

(** X6.  A defeated enemy stops where it is and plays its animation
    for 30 ticks: from the defeat (timer 0, still active) it keeps its
    position through any number of updates, stays defeated, counts one
    frame per update, and is active after [n] updates exactly when
    [n <= 30]; the 31st update deactivates it. *)
Theorem defeated_enemy_lasts_30_ticks
    (e : Enemy.t) (plss : list (list Platform.t)) :
  Enemy.defeated e = true ->
  Enemy.active e = true ->
  Enemy.defeatTimer e = 0%Z ->
  let e' := enemyTicks e plss in
  Enemy.x e' = Enemy.x e /\
  Enemy.y e' = Enemy.y e /\
  Enemy.defeated e' = true /\
  Enemy.defeatTimer e' = Z.of_nat (length plss) /\
  Enemy.active e' = (length plss <=? 30)%nat.
Proof.
  intros Hd Ha Ht.
  destruct (defeated_ticks plss e Hd) as (Hx & Hy & _ & _ & Hd' & _ & Ht' & Ha').
  cbn zeta in *. rewrite Hx, Hy, Hd', Ht', Ha', Ha, Ht.
  repeat split. cbn [andb].
  destruct (length plss) as [| n]; [reflexivity |].
  cbn [Nat.eqb orb].
  destruct (Z.leb_spec (0 + Z.of_nat (S n)) 30);
    destruct (Nat.leb_spec (S n) 30); try reflexivity; lia.
Qed.

(** X6 on the first ground enemy, defeated and updated 31 times. *)
Lemma defeated_enemy_lasts_30_ticks_witness :
  Enemy.active
    (enemyTicks (Enemy.defeat (Enemy.new 200 510 0 380)) (repeat [] 31)) =
  false.
Proof.
  exact (proj2 (proj2 (proj2 (proj2
           (defeated_enemy_lasts_30_ticks
              (Enemy.defeat (Enemy.new 200 510 0 380)) (repeat [] 31)
              eq_refl eq_refl eq_refl))))).
Defined.

(** X7.  The player's side of an enemy collision does not look at
    [defeated]: a defeated enemy that is still active treats the player
    as a live one does.  In particular a player that is not invincible
    and touches it without falling onto it loses a health point. *)
Theorem defeated_enemy_still_hurts (p : Player.t) (e : Enemy.t) :
  fst (Player.hitEnemy p (Enemy.defeat e)) = fst (Player.hitEnemy p e) /\
  (Enemy.defeated e = true ->
   Entity.collidesWith (Player.entity p) (Enemy.entity e) = true ->
   ~ fellOnto 10 p (Enemy.y e) ->
   Player.invincible p = false ->
   Player.health (fst (Player.hitEnemy p e)) = (Player.health p - 1)%Z).
Proof.
  split.
  - unfold Player.hitEnemy.
    assert (Hc : Entity.collidesWith (Player.entity p)
                   (Enemy.entity (Enemy.defeat e)) =
                 Entity.collidesWith (Player.entity p) (Enemy.entity e))
      by (destruct e as [[] ]; reflexivity).
    assert (Hy : Enemy.y (Enemy.defeat e) = Enemy.y e)
      by (destruct e as [[] ]; reflexivity).
    rewrite Hc, Hy. case_ifs; reflexivity.
  - intros _ Hc Hn Hi. rewrite (hitEnemy_damage p e Hc Hn). cbn [fst].
    unfold Player.takeDamage. rewrite Hi. cbn.
    destruct (_ <=? _)%Z; reflexivity.
Qed.

(** X7 on a player walking on the ground into the first ground enemy,
    defeated a moment before. *)
Lemma defeated_enemy_still_hurts_witness :
  Player.health
    (fst (Player.hitEnemy (Player.new 230 510)
            (Enemy.defeat (Enemy.new 200 515 0 380)))) = 4%Z.
Proof.
  refine (proj2 (defeated_enemy_still_hurts (Player.new 230 510)
                   (Enemy.defeat (Enemy.new 200 515 0 380)))
            eq_refl eq_refl _ eq_refl).
  intros [H _]. discriminate H.
Defined.

(** X8.  A player that comes down on two enemies at once defeats the
    first of them in the list and is hurt by the second: the bounce of
    the first stomp makes its vertical speed negative, so the second
    overlap is no longer a stomp. *)
Theorem double_stomp_hurts (p : Player.t) (e1 e2 : Enemy.t) :
  Player.invincible p = false ->
  Entity.collidesWith (Player.entity p) (Enemy.entity e1) = true ->
  Entity.collidesWith (Player.entity p) (Enemy.entity e2) = true ->
  fellOnto 10 p (Enemy.y e1) ->
  let r := Player.checkEnemyCollisions p [e1; e2] in
  snd r = [Enemy.defeat e1; e2] /\
  Player.health (fst r) = (Player.health p - 1)%Z /\
  Player.velocityY (fst r) = -10 /\
  Player.invincible (fst r) = true.
Proof.
  intros Hi Hc1 Hc2 Hf. cbn zeta.
  unfold Player.checkEnemyCollisions. rewrite Hi.
  rewrite forEach_cons, (hitEnemy_stomp p e1 Hc1 Hf). cbn [fst snd].
  rewrite forEach_cons. cbn [forEach fst snd].
  rewrite hitEnemy_damage.
  - cbn [fst snd]. unfold Player.takeDamage.
    change (Player.invincible (Player.with_velocityY (-10) p))
      with (Player.invincible p).
    rewrite Hi. cbn. destruct (_ <=? _)%Z; cbn; repeat split.
  - exact Hc2.
  - intros [H _]. cbn in H. apply Qlt_bool_iff in H. discriminate H.
Qed.

(** X8 on a player falling onto two enemies standing in the same
    place. *)
Lemma double_stomp_hurts_witness :
  Player.health
    (fst (Player.checkEnemyCollisions
            (Player.with_velocityY 6 (Player.new 200 477))
            [Enemy.new 200 515 0 380; Enemy.new 210 515 0 380])) = 4%Z.
Proof.
  refine (proj1 (proj2 (double_stomp_hurts
                          (Player.with_velocityY 6 (Player.new 200 477))
                          (Enemy.new 200 515 0 380) (Enemy.new 210 515 0 380)
                          eq_refl eq_refl eq_refl _))).
  split; [reflexivity | apply Qle_bool_iff; reflexivity].
Defined.

(** ** Collectibles *)

Lemma built_sound (Math_sin : Q -> Q) g : built Math_sin g -> sound g.
Proof.
  induction 1 as [| g _ IH | g keys _ IH | g b _ IH | g _ IH Hover Hwon
                  | g _ IH].
  - apply sound_new.
  - now apply sound_update.
  - revert IH. now apply sound_same.
  - revert IH. now apply sound_same.
  - destruct IH. constructor; cbn; try assumption. now apply jump_healthy.
  - apply sound_initLevel.
Qed.

Section Collecting.

Variable Math_sin : Q -> Q.

(** A collected collectible is passed over: neither it nor the player
    nor the score changes. *)
Lemma pickUp_collected s c :
  Collectible.collected c = true -> Game.pickUp Math_sin s c = (s, c).
Proof.
  intros Hc. destruct s as [p sc].
  unfold Game.pickUp, Collectible.update. rewrite Hc. cbn.
  now rewrite Hc.
Qed.

Lemma pickUp_spent s c :
  spent c -> spent (snd (Game.pickUp Math_sin s c)).
Proof.
  unfold spent. intros Hc.
  destruct s as [p sc]. destruct c as [ce ty co ro bo bs va].
  unfold Game.pickUp, Collectible.update. cbn in *.
  destruct co; cbn -[Entity.collidesWith]; [exact Hc |].
  destruct (Entity.collidesWith _ _); cbn; [| exact Hc].
  destruct ty; reflexivity.
Qed.

(** What a visit of the collectible loop adds to the score is what the
    collectible's contribution grows by. *)
Lemma pickUp_accounts s c :
  priced c ->
  (snd (fst (Game.pickUp Math_sin s c)) + collectedValue c)%Z =
  (snd s + collectedValue (snd (Game.pickUp Math_sin s c)))%Z.
Proof.
  unfold priced, collectedValue.
  destruct s as [p sc]. destruct c as [ce ty co ro bo bs va].
  unfold Game.pickUp, Collectible.update. cbn. intros ->.
  destruct co; cbn -[Entity.collidesWith]; [reflexivity |].
  destruct (Entity.collidesWith _ _); cbn; [| reflexivity].
  destruct ty; cbn; lia.
Qed.

Lemma pickUps_account l : forall s,
  Forall priced l ->
  (snd (fst (forEach (Game.pickUp Math_sin) s l)) +
   sumZ (map collectedValue l))%Z =
  (snd s +
   sumZ (map collectedValue (snd (forEach (Game.pickUp Math_sin) s l))))%Z.
Proof.
  induction l as [| c l IH]; intros s Hl; [reflexivity |].
  inversion Hl as [| ? ? Hc Hl']; subst.
  rewrite forEach_cons. cbn [fst snd map]. unfold sumZ in *.
  cbn [fold_right].
  specialize (IH (fst (Game.pickUp Math_sin s c)) Hl').
  pose proof (pickUp_accounts s c Hc). lia.
Qed.

Lemma pickUps_values l : forall s,
  map Collectible.value (snd (forEach (Game.pickUp Math_sin) s l)) =
  map Collectible.value l.
Proof.
  induction l as [| c l IH]; intros s; [reflexivity |].
  rewrite forEach_cons. cbn [snd map]. rewrite IH.
  now rewrite (proj2 (pickUp_collectible Math_sin s c)).
Qed.

End Collecting.

Lemma awardDefeat_accounts sc e :
  (fst (Game.awardDefeat sc e) + paidBonus e)%Z =
  (sc + paidBonus (snd (Game.awardDefeat sc e)))%Z.
Proof.
  unfold Game.awardDefeat, paidBonus.
  destruct (Enemy.defeated e), (Enemy.scoreGiven e) eqn:Hs; cbn;
    rewrite ?Hs; lia.
Qed.

Lemma awardDefeats_account l : forall sc,
  (fst (forEach Game.awardDefeat sc l) + sumZ (map paidBonus l))%Z =
  (sc + sumZ (map paidBonus (snd (forEach Game.awardDefeat sc l))))%Z.
Proof.
  induction l as [| e l IH]; intros sc; [reflexivity |].
  rewrite forEach_cons. cbn [fst snd map]. unfold sumZ in *.
  cbn [fold_right].
  specialize (IH (fst (Game.awardDefeat sc e))).
  pose proof (awardDefeat_accounts sc e). lia.
Qed.

Lemma paidBonus_Forall2 l l' :
  Forall2 (fun a b : Enemy.t => Enemy.scoreGiven b = Enemy.scoreGiven a) l l' ->
  map paidBonus l' = map paidBonus l.
Proof.
  induction 1 as [| a b l l' Hab _ IH]; [reflexivity |].
  cbn. unfold paidBonus at 1 3. now rewrite Hab, IH.
Qed.

Lemma Forall2_length_eq {A : Type} (R : A -> A -> Prop) l l' :
  Forall2 R l l' -> length l' = length l.
Proof. induction 1; cbn; congruence. Qed.

Section Accounting.

Variable Math_sin : Q -> Q.

Lemma accounted_update g :
  sound g -> accounted g -> accounted (Game.update Math_sin g).
Proof.
  intros Hs (Hsc & Hval & Hlen).
  destruct (Game.gameOver g) eqn:Hover;
    [rewrite update_cut_short; [split | ]; auto |].
  destruct (Game.gameWon g) eqn:Hwon;
    [rewrite update_cut_short; [split | ]; auto |].
  destruct (update_fields Math_sin g Hover Hwon)
    as (_ & _ & He & Hc & Hsc' & _).
  cbn zeta in *. unfold accounted, earned in *.
  rewrite He, Hc, Hsc'. clear He Hc Hsc'.
  pose proof (update_enemies (Game.player (Game.handleInput g))
                (Game.platforms g) (Game.enemies g)) as Hes.
  revert Hes.
  generalize (Player.update (Game.player (Game.handleInput g))
                (Game.platforms g) (Game.enemies g)).
  intros pu Hes.
  pose proof (pickUps_account Math_sin (Game.collectibles g)
                (fst pu, Game.score g) (sound_priced g Hs)) as Hcol.
  pose proof (pickUps_values Math_sin (Game.collectibles g)
                (fst pu, Game.score g)) as Hvals.
  revert Hcol Hvals.
  generalize (forEach (Game.pickUp Math_sin) (fst pu, Game.score g)
                (Game.collectibles g)).
  intros col Hcol Hvals. cbn [fst snd] in Hcol.
  set (es := map (Enemy.update (map Platform.update (Game.platforms g)))
               (snd pu)).
  assert (Hpb : map paidBonus es = map paidBonus (Game.enemies g)).
  { apply paidBonus_Forall2. subst es.
    clear - Hes. induction Hes as [| a b l l' Hab _ IH]; cbn;
      constructor; [| exact IH].
    rewrite (proj2 (Enemy_update_flags b _)).
    destruct Hab as [-> | ->]; reflexivity. }
  assert (Hl : length es = length (Game.enemies g)).
  { subst es. rewrite length_map. eapply Forall2_length_eq, Hes. }
  pose proof (awardDefeats_account es (snd (fst col))) as Haw.
  rewrite awardDefeats_total in *. cbn [fst snd] in *.
  rewrite length_map, Hl, Hlen, Hvals, Hval.
  repeat split; try reflexivity. rewrite Hpb in Haw. lia.
Qed.

Lemma built_accounted g : built Math_sin g -> accounted g.
Proof.
  induction 1 as [| g Hb IH | g keys _ IH | g b _ IH | g _ IH Hover Hwon
                  | g _ IH].
  - repeat split.
  - apply accounted_update; [now apply (built_sound Math_sin) | exact IH].
  - exact IH.
  - exact IH.
  - exact IH.
  - repeat split.
Qed.

Lemma spent_update g :
  Forall spent (Game.collectibles g) ->
  Forall spent (Game.collectibles (Game.update Math_sin g)).
Proof.
  intros Hg.
  destruct (Game.gameOver g) eqn:Hover;
    [rewrite update_cut_short; auto |].
  destruct (Game.gameWon g) eqn:Hwon;
    [rewrite update_cut_short; auto |].
  destruct (update_fields Math_sin g Hover Hwon) as (_ & _ & _ & -> & _).
  apply forEach_Forall; [| exact Hg].
  intros s c. apply pickUp_spent.
Qed.

Lemma createCollectibles_spent : Forall spent Game.createCollectibles.
Proof.
  repeat (apply List.Forall_cons; [reflexivity |]). apply List.Forall_nil.
Qed.

Lemma built_spent g :
  built Math_sin g -> Forall spent (Game.collectibles g).
Proof.
  induction 1 as [| g Hb IH | g keys _ IH | g b _ IH | g _ IH Hover Hwon
                  | g _ IH]; try exact IH.
  - exact createCollectibles_spent.
  - now apply spent_update.
  - exact createCollectibles_spent.
Qed.

End Accounting.

(** X9.  In every reachable state a collectible is inactive exactly
    when it has been collected, and the collectible loop of a tick
    passes over a collected one: it changes neither the collectible nor
    the player nor the score, so nothing is collected twice. *)
Theorem collected_is_final (Math_sin : Q -> Q) (g : Game.t)
    (c : Collectible.t) :
  Game.reachable Math_sin g ->
  In c (Game.collectibles g) ->
  Collectible.collected c = negb (Entity.active (Collectible.entity c)) /\
  (Collectible.collected c = true ->
   forall s, Game.pickUp Math_sin s c = (s, c)) /\
  (forall p sc,
     Collectible.collected c = false ->
     Entity.collidesWith (Player.entity p) (Collectible.entity c) = true ->
     Collectible.collected (snd (Game.pickUp Math_sin (p, sc) c)) = true).
Proof.
  intros Hr Hin. apply reachable_built, built_spent in Hr.
  split; [exact (proj1 (List.Forall_forall _ _) Hr c Hin) |]. split.
  - intros Hc s. now apply pickUp_collected.
  - intros p sc Hc Hcol. destruct c as [ce ty co ro bo bs va].
    unfold Game.pickUp, Collectible.update. cbn in *. subst co. cbn.
    rewrite Hcol. cbn. destruct ty; reflexivity.
Qed.

(** X9 for the first coin of the freshly constructed game. *)
Lemma collected_is_final_witness :
  Collectible.collected (Collectible.new 200 500 Collectible.coin) =
  negb (Entity.active
          (Collectible.entity (Collectible.new 200 500 Collectible.coin))).
Proof.
  refine (proj1 (collected_is_final still Game.new
                   (Collectible.new 200 500 Collectible.coin)
                   (Game.reachable_new still) _)).
  left. reflexivity.
Defined.

Lemma sumZ_bound (f g : Collectible.t -> Z) l :
  (forall c, In c l -> 0 <= f c <= g c)%Z ->
  (0 <= sumZ (map f l) <= sumZ (map g l))%Z.
Proof.
  induction l as [| c l IH]; intros H; [cbn; lia |].
  cbn [map]. unfold sumZ in *. cbn [fold_right].
  specialize (H c (or_introl eq_refl)) as Hc.
  assert (forall c0, In c0 l -> (0 <= f c0 <= g c0)%Z)
    by (intros; apply H; now right).
  specialize (IH H0). lia.
Qed.

Lemma paidBonus_bound l :
  (0 <= sumZ (map paidBonus l) <= 50 * Z.of_nat (length l))%Z.
Proof.
  induction l as [| e l IH]; [cbn; lia |].
  cbn [map length]. unfold sumZ in *. cbn [fold_right].
  unfold paidBonus at 1 3. destruct (Enemy.scoreGiven e); lia.
Qed.

Lemma built_score_bounds (Math_sin : Q -> Q) g :
  built Math_sin g -> (0 <= Game.score g <= 1300)%Z.
Proof.
  intros Hr.
  pose proof (built_sound Math_sin g Hr) as Hs.
  destruct (built_accounted Math_sin g Hr) as (Hsc & Hval & Hlen).
  unfold earned in Hsc. rewrite Hsc.
  pose proof (paidBonus_bound (Game.enemies g)) as Hb.
  rewrite Hlen in Hb.
  pose proof (sumZ_bound collectedValue Collectible.value
                (Game.collectibles g)) as Hc.
  rewrite Hval in Hc.
  change (sumZ (map Collectible.value Game.createCollectibles))
    with 700%Z in Hc.
  change (Z.of_nat (length Game.createEnemies)) with 12%Z in Hb.
  assert (Hall : forall c, In c (Game.collectibles g) ->
                   (0 <= collectedValue c <= Collectible.value c)%Z).
  { intros c Hin.
    pose proof (proj1 (List.Forall_forall _ _) (sound_priced g Hs) c Hin)
      as Hp.
    unfold priced in Hp. unfold collectedValue. rewrite Hp.
    destruct (valueOf_cases (Collectible.type c)) as [_ Hv].
    destruct (Collectible.collected c); lia. }
  specialize (Hc Hall). lia.
Qed.

(** X10.  In every reachable state the score is exactly the sum of the
    values of the collected collectibles plus 50 for every enemy whose
    defeat bonus has been paid; it therefore lies between 0 and 1300,
    the value of all 40 collectibles (700) and all 12 enemies (600). *)
Theorem score_is_accounted_for (Math_sin : Q -> Q) (g : Game.t) :
  Game.reachable Math_sin g ->
  Game.score g =
    (sumZ (map collectedValue (Game.collectibles g)) +
     sumZ (map paidBonus (Game.enemies g)))%Z /\
  (0 <= Game.score g <= 1300)%Z.
Proof.
  intros Hr. apply reachable_built in Hr.
  split; [| exact (built_score_bounds Math_sin g Hr)].
  exact (proj1 (built_accounted Math_sin g Hr)).
Qed.

(** X10 for the game in which the player stomps an enemy: its score
    is 50. *)
Lemma score_is_accounted_for_witness :
  (0 <= Game.score (Game.run still Game.new stompRun) <= 1300)%Z.
Proof.
  exact (proj2 (score_is_accounted_for still _
                  (reachable_run still Game.new stompRun
                     (Game.reachable_new still)))).
Defined.

(** ** The high score *)

Section HighScore.

Variable Math_sin : Q -> Q.

Lemma update_highScore g :
  let g' := Game.update Math_sin g in
  (Game.highScore g <= Game.highScore g')%Z /\
  (Game.highScore g' = Game.highScore g \/
   Game.highScore g' = Game.score g') /\
  (Game.gameOver g = false -> Game.gameWon g = false ->
   Game.gameOver g' = true \/ Game.gameWon g' = true ->
   (Game.score g' <= Game.highScore g')%Z).
Proof.
  cbn zeta.
  destruct (Game.gameOver g) eqn:Hover;
    [rewrite update_cut_short by auto; repeat split;
       try lia; auto; discriminate |].
  destruct (Game.gameWon g) eqn:Hwon;
    [rewrite update_cut_short by auto; repeat split;
       try lia; auto; discriminate |].
  destruct (update_fields Math_sin g Hover Hwon)
    as (_ & _ & _ & _ & _ & Ho & Hw & Hh & _).
  cbn zeta in *. rewrite Ho, Hw, Hh.
  destruct (negb _ || Qlt_bool _ _) eqn:E.
  - split; [lia |]. split; [lia |]. intros _ _ _. lia.
  - split; [lia |]. split; [now left |]. intros _ _ [H | H].
    + rewrite H in E. discriminate E.
    + rewrite H, orb_true_r in E. discriminate E.
Qed.

Lemma gameLoop_highScore g :
  (Game.highScore g <= Game.highScore (Game.gameLoop Math_sin g))%Z.
Proof.
  unfold Game.gameLoop. destruct (negb _); [lia |].
  apply update_highScore.
Qed.

Lemma start_highScore g :
  (Game.highScore g <= Game.highScore (Game.start Math_sin g))%Z.
Proof.
  unfold Game.start. destruct (Game.isRunning g); [lia |].
  apply (gameLoop_highScore (Game.with_isRunning true g)).
Qed.

Lemma reset_highScore g :
  (Game.highScore g <= Game.highScore (Game.reset Math_sin g))%Z.
Proof.
  assert (Hr : Game.reset Math_sin g = Game.update Math_sin (rebuilt g))
    by reflexivity.
  rewrite Hr. apply (update_highScore (rebuilt g)).
Qed.

Lemma step_highScore g e :
  (Game.highScore g <= Game.highScore (Game.step Math_sin g e))%Z.
Proof.
  destruct e as [key | key | | | |]; cbn [Game.step].
  - destruct (handleKeyDown_cases Math_sin key g) as (g' & Hg' & ->).
    assert (Hh : Game.highScore g' = Game.highScore g)
      by (destruct Hg' as [-> | ->]; reflexivity).
    rewrite <- Hh. destruct (resets _); [apply reset_highScore | lia].
  - cbn. lia.
  - apply gameLoop_highScore.
  - apply start_highScore.
  - cbn. lia.
  - apply reset_highScore.
Qed.

Lemma built_recorded g : built Math_sin g -> recorded g.
Proof.
  induction 1 as [| g Hb IH | g keys _ IH | g b _ IH | g _ IH Hover Hwon
                  | g _ IH].
  - split; [cbn; lia | intros [H | H]; discriminate H].
  - destruct IH as [Hhs Hrec].
    pose proof (built_score_bounds Math_sin _ (built_update Math_sin g Hb))
      as Hsc.
    destruct (update_highScore g) as (Hle & Hval & Hend). cbn zeta in *.
    split; [destruct Hval as [-> | ->]; lia |].
    destruct (Game.gameOver g) eqn:Hover;
      [rewrite update_cut_short by auto; rewrite Hover; auto |].
    destruct (Game.gameWon g) eqn:Hwon;
      [rewrite update_cut_short by auto; rewrite Hwon; auto |].
    now apply Hend.
  - exact IH.
  - exact IH.
  - destruct IH as [Hhs _]. split; [exact Hhs |]. cbn.
    intros [H | H]; congruence.
  - destruct IH as [Hhs _]. split; [exact Hhs |]. cbn.
    intros [H | H]; discriminate H.
Qed.

End HighScore.

(** X11.  The high score never goes down, whatever the event (a reset
    included), it stays between 0 and 1300, and a game that has ended
    has a score that is on record: no larger than the high score. *)
Theorem high_score_is_a_record (Math_sin : Q -> Q) (g : Game.t)
    (e : Game.event) :
  Game.reachable Math_sin g ->
  (Game.highScore g <= Game.highScore (Game.step Math_sin g e))%Z /\
  (0 <= Game.highScore g <= 1300)%Z /\
  (Game.gameOver g = true \/ Game.gameWon g = true ->
   (Game.score g <= Game.highScore g)%Z).
Proof.
  intros Hr. split; [apply step_highScore |].
  exact (built_recorded Math_sin g (reachable_built Math_sin g Hr)).
Qed.

(** X11 for a reset of the game in which the player stomped an
    enemy. *)
Lemma high_score_is_a_record_witness :
  (Game.highScore (Game.run still Game.new stompRun) <=
   Game.highScore
     (Game.step still (Game.run still Game.new stompRun)
        Game.ResetButton))%Z.
Proof.
  exact (proj1 (high_score_is_a_record still _ Game.ResetButton
                  (reachable_run still Game.new stompRun
                     (Game.reachable_new still)))).
Defined.

(** ** After the end of a game *)

(** X12.  Once the game is over or won, no event other than a reset
    changes anything but the key table and the running flag: frames,
    the start and stop buttons and every key (the jump keys included)
    leave the player, the platforms, the enemies, the collectibles, the
    score, the high score, the camera, the level and both flags as they
    are. *)
Theorem ended_game_is_frozen (Math_sin : Q -> Q) (g : Game.t)
    (e : Game.event) :
  Game.gameOver g = true \/ Game.gameWon g = true ->
  resets e = false ->
  let g' := Game.step Math_sin g e in
  Game.player g' = Game.player g /\
  Game.platforms g' = Game.platforms g /\
  Game.enemies g' = Game.enemies g /\
  Game.collectibles g' = Game.collectibles g /\
  Game.score g' = Game.score g /\
  Game.highScore g' = Game.highScore g /\
  Game.cameraX g' = Game.cameraX g /\
  Game.level g' = Game.level g /\
  Game.gameOver g' = Game.gameOver g /\
  Game.gameWon g' = Game.gameWon g.
Proof.
  intros Hend Hres. cbn zeta.
  destruct e as [key | key | | | |]; cbn [Game.step].
  - unfold Game.handleKeyDown. unfold resets in Hres. rewrite Hres.
    assert (Hno : negb (Game.gameOver g) && negb (Game.gameWon g) = false)
      by (destruct Hend as [-> | ->]; cbn;
          [reflexivity | apply andb_false_r]).
    cbn [Game.gameOver Game.gameWon Game.with_keys].
    rewrite <- andb_assoc, Hno, andb_false_r.
    repeat split.
  - repeat split.
  - unfold Game.gameLoop. destruct (negb _); [repeat split |].
    rewrite update_cut_short by exact Hend. repeat split.
  - unfold Game.start. destruct (Game.isRunning g); [repeat split |].
    unfold Game.gameLoop. cbn [Game.isRunning Game.with_isRunning negb].
    rewrite update_cut_short by exact Hend. repeat split.
  - repeat split.
  - discriminate Hres.
Qed.

(** X12 for a jump key pressed on a game that is over. *)
Lemma ended_game_is_frozen_witness :
  Game.player
    (Game.step still (Game.with_gameOver true Game.new)
       (Game.KeyDown " ")) =
  Game.player (Game.with_gameOver true Game.new).
Proof.
  exact (proj1 (ended_game_is_frozen still
                  (Game.with_gameOver true Game.new) (Game.KeyDown " ")
                  (or_introl eq_refl) eq_refl)).
Defined.

(** ** The key table *)

Section Keys.

Variable Math_sin : Q -> Q.

Lemma update_keys g : Game.keys (Game.update Math_sin g) = Game.keys g.
Proof.
  destruct (Game.gameOver g) eqn:Hover;
    [now rewrite update_cut_short by auto |].
  destruct (Game.gameWon g) eqn:Hwon;
    [now rewrite update_cut_short by auto |].
  destruct (update_fields Math_sin g Hover Hwon)
    as (_ & _ & _ & _ & _ & _ & _ & _ & Hk & _).
  exact Hk.
Qed.

Lemma update_isRunning g :
  Game.isRunning (Game.update Math_sin g) = Game.isRunning g.
Proof.
  destruct (Game.gameOver g) eqn:Hover;
    [now rewrite update_cut_short by auto |].
  destruct (Game.gameWon g) eqn:Hwon;
    [now rewrite update_cut_short by auto |].
  destruct (update_fields Math_sin g Hover Hwon)
    as (_ & _ & _ & _ & _ & _ & _ & _ & _ & Hk & _).
  exact Hk.
Qed.

Lemma start_keys g : Game.keys (Game.start Math_sin g) = Game.keys g.
Proof.
  unfold Game.start, Game.gameLoop. destruct (Game.isRunning g);
    [reflexivity |].
  cbn [Game.isRunning Game.with_isRunning negb]. now rewrite update_keys.
Qed.

Lemma reset_keys g : Game.keys (Game.reset Math_sin g) = Game.keys g.
Proof.
  assert (Hr : Game.reset Math_sin g = Game.update Math_sin (rebuilt g))
    by reflexivity.
  rewrite Hr, update_keys. reflexivity.
Qed.

End Keys.

(** X13.  Only key events write the key table: a key press marks its
    key as down, a release as up, and frames, the buttons and the reset
    that the R key triggers leave every entry as it is.  So a key held
    across a reset is still down in the new game, and after R is
    pressed the table says R is down. *)
Theorem only_key_events_write_keys (Math_sin : Q -> Q) (g : Game.t)
    (e : Game.event) :
  Game.keys (Game.step Math_sin g e) =
    match e with
    | Game.KeyDown key => <[key := true]> (Game.keys g)
    | Game.KeyUp key => <[key := false]> (Game.keys g)
    | _ => Game.keys g
    end /\
  (forall key,
     Game.pressed (Game.keys (Game.step Math_sin g (Game.KeyDown key))) key =
     true) /\
  (forall key,
     Game.pressed (Game.keys (Game.step Math_sin g (Game.KeyUp key))) key =
     false).
Proof.
  assert (Hdown : forall key,
            Game.keys (Game.handleKeyDown Math_sin key g) =
            <[key := true]> (Game.keys g)).
  { intros key.
    destruct (handleKeyDown_cases Math_sin key g) as (g' & Hg' & ->).
    assert (Hk : Game.keys g' = <[key := true]> (Game.keys g))
      by (destruct Hg' as [-> | ->]; reflexivity).
    destruct (resets _); [now rewrite reset_keys | exact Hk]. }
  split; [| split].
  - destruct e as [key | key | | | |]; cbn [Game.step].
    + apply Hdown.
    + reflexivity.
    + unfold Game.gameLoop. destruct (negb _); [reflexivity |].
      apply update_keys.
    + apply start_keys.
    + reflexivity.
    + apply reset_keys.
  - intros key. cbn [Game.step]. rewrite Hdown. unfold Game.pressed.
    now rewrite lookup_insert_eq.
  - intros key. cbn [Game.step]. unfold Game.handleKeyUp, Game.pressed.
    cbn. now rewrite lookup_insert_eq.
Qed.

(** ** Starting and stopping *)

(** X14.  Starting a game leaves it running, starting a running game
    changes nothing (no second loop, no extra tick), so starting twice
    is starting once; and a frame that arrives while the game is
    stopped does nothing. *)
Theorem start_is_idempotent (Math_sin : Q -> Q) (g : Game.t) :
  Game.isRunning (Game.start Math_sin g) = true /\
  Game.start Math_sin (Game.start Math_sin g) = Game.start Math_sin g /\
  (Game.isRunning g = true -> Game.start Math_sin g = g) /\
  Game.gameLoop Math_sin (Game.stop g) = Game.stop g /\
  (Game.isRunning g = false ->
   Game.start Math_sin g =
   Game.update Math_sin (Game.with_isRunning true g)).
Proof.
  assert (Hrun : Game.isRunning (Game.start Math_sin g) = true).
  { unfold Game.start, Game.gameLoop. destruct (Game.isRunning g) eqn:E;
      [exact E |].
    cbn [Game.isRunning Game.with_isRunning negb].
    now rewrite update_isRunning. }
  split; [exact Hrun |]. split; [| split; [| split]].
  - unfold Game.start at 1. now rewrite Hrun.
  - intros E. unfold Game.start. now rewrite E.
  - reflexivity.
  - intros E. unfold Game.start, Game.gameLoop. rewrite E. reflexivity.
Qed.

(** ** Hearts *)

(** X15.  A heart that the player touches is used up and heals one
    health point, capped at the maximum: at full health the heart is
    consumed without effect.  A heart never changes the score. *)
Theorem heart_heals_one (Math_sin : Q -> Q) (p : Player.t) (sc : Z)
    (c : Collectible.t) :
  Collectible.type c = Collectible.heart ->
  Collectible.collected c = false ->
  Entity.collidesWith (Player.entity p) (Collectible.entity c) = true ->
  let r := Game.pickUp Math_sin (p, sc) c in
  Collectible.collected (snd r) = true /\
  Entity.active (Collectible.entity (snd r)) = false /\
  snd (fst r) = sc /\
  Player.health (fst (fst r)) =
    Z.min (Player.maxHealth p) (Player.health p + 1) /\
  (Player.health p = Player.maxHealth p ->
   Player.health (fst (fst r)) = Player.health p).
Proof.
  intros Hty Hco Hcol. cbn zeta.
  destruct c as [ce ty co ro bo bs va]. cbn in Hty, Hco, Hcol.
  subst ty co.
  unfold Game.pickUp, Collectible.update. cbn -[Entity.collidesWith Z.min].
  rewrite Hcol. cbn -[Z.min].
  repeat split. intros ->. lia.
Qed.

(** X15 for a heart at the spot where the player starts, at full
    health. *)
Lemma heart_heals_one_witness :
  Player.health
    (fst (fst (Game.pickUp still (Player.new 100 100, 0%Z)
                 (Collectible.new 100 100 Collectible.heart)))) = 5%Z /\
  Collectible.collected
    (snd (Game.pickUp still (Player.new 100 100, 0%Z)
            (Collectible.new 100 100 Collectible.heart))) = true.
Proof.
  pose proof (heart_heals_one still (Player.new 100 100) 0
                (Collectible.new 100 100 Collectible.heart)
                eq_refl eq_refl eq_refl) as H.
  cbn zeta in H. split; [apply H; reflexivity | apply H].
Defined.

(** ** The double-jump charm *)

Lemma jump_charm p :
  Player.hasDoubleJump (Player.jump p) = Player.hasDoubleJump p /\
  Player.maxHealth (Player.jump p) = Player.maxHealth p.
Proof. unfold Player.jump. case_ifs; split; reflexivity. Qed.

Lemma update_maxHealth p pls es :
  Player.maxHealth (fst (Player.update p pls es)) = Player.maxHealth p.
Proof.
  unfold Player.update.
  assert (H : Player.maxHealth
                (fst (Player.checkEnemyCollisions (Player.move p pls) es)) =
              Player.maxHealth p).
  { rewrite <- (proj1 (proj2 (move_vitals p pls))).
    unfold Player.checkEnemyCollisions.
    destruct (Player.invincible _); [reflexivity |].
    apply (forEach_state Player.hitEnemy
             (fun q => Player.maxHealth q =
                       Player.maxHealth (Player.move p pls)));
      [| reflexivity].
    intros s e Hs. unfold Player.hitEnemy. case_ifs; cbn; try exact Hs.
    unfold Player.takeDamage. destruct (negb _); [| exact Hs].
    cbn. destruct (_ <=? _)%Z; exact Hs. }
  destruct (Player.checkEnemyCollisions _ _) as [q es']. cbn [fst] in *.
  rewrite (proj1 (proj2 (tickInvincibility_vitals _))).
  rewrite (proj1 (constrainToBounds_vitals q)). exact H.
Qed.

Section Charm.

Variable Math_sin : Q -> Q.

(** One visit of the collectible loop, seen from the charm. *)
Lemma pickUp_charm s c :
  let r := Game.pickUp Math_sin s c in
  Player.hasDoubleJump (fst (fst r)) || charmTaken c =
    Player.hasDoubleJump (fst s) || charmTaken (snd r) /\
  (Player.hasDoubleJump (fst s) = true ->
   Player.hasDoubleJump (fst (fst r)) = true) /\
  (charmTaken c = true -> charmTaken (snd r) = true) /\
  Player.maxHealth (fst (fst r)) = Player.maxHealth (fst s).
Proof.
  destruct s as [p sc]. destruct c as [ce ty co ro bo bs va].
  unfold Game.pickUp, Collectible.update, charmTaken. cbn zeta.
  destruct co; cbn -[Entity.collidesWith]; [repeat split; auto |].
  destruct (Entity.collidesWith _ _); cbn; [| repeat split; auto].
  destruct ty; cbn; repeat split; auto;
    rewrite ?orb_false_r, ?orb_true_r; reflexivity.
Qed.

Lemma pickUps_charm l : forall s,
  let r := forEach (Game.pickUp Math_sin) s l in
  Player.hasDoubleJump (fst (fst r)) || existsb charmTaken l =
    Player.hasDoubleJump (fst s) || existsb charmTaken (snd r) /\
  (Player.hasDoubleJump (fst s) = true ->
   Player.hasDoubleJump (fst (fst r)) = true) /\
  (existsb charmTaken l = true -> existsb charmTaken (snd r) = true) /\
  Player.maxHealth (fst (fst r)) = Player.maxHealth (fst s).
Proof.
  induction l as [| c l IH]; intros s; cbn zeta.
  - cbn. repeat split; auto.
  - rewrite forEach_cons. cbn [fst snd existsb].
    destruct (pickUp_charm s c) as (A1 & A2 & A3 & A4).
    destruct (IH (fst (Game.pickUp Math_sin s c))) as (B1 & B2 & B3 & B4).
    cbn zeta in *.
    revert A1 A2 A3 A4 B1 B2 B3 B4.
    generalize (forEach (Game.pickUp Math_sin)
                  (fst (Game.pickUp Math_sin s c)) l).
    generalize (Game.pickUp Math_sin s c).
    intros r1 r A1 A2 A3 A4 B1 B2 B3 B4.
    split; [| split; [| split]].
    + destruct (Player.hasDoubleJump (fst (fst r))),
        (Player.hasDoubleJump (fst (fst r1))),
        (Player.hasDoubleJump (fst s)),
        (charmTaken c), (charmTaken (snd r1)),
        (existsb charmTaken l), (existsb charmTaken (snd r));
        cbn in *; auto; try discriminate;
        try (specialize (A2 eq_refl)); try (specialize (A3 eq_refl));
        try (specialize (B2 eq_refl)); try (specialize (B3 eq_refl));
        try discriminate.
    + auto.
    + intros H. apply orb_true_iff in H. apply orb_true_iff.
      destruct H; auto.
    + congruence.
Qed.

Lemma charmed_update g : charmed g -> charmed (Game.update Math_sin g).
Proof.
  intros [Hg Hm].
  destruct (Game.gameOver g) eqn:Hover;
    [rewrite update_cut_short by auto; now split |].
  destruct (Game.gameWon g) eqn:Hwon;
    [rewrite update_cut_short by auto; now split |].
  destruct (update_fields Math_sin g Hover Hwon)
    as (Hp & _ & _ & Hc & _).
  cbn zeta in *. unfold charmed. rewrite Hp, Hc. clear Hp Hc.
  pose proof (update_doubleJump (Game.player (Game.handleInput g))
                (Game.platforms g) (Game.enemies g)) as [_ Hd].
  pose proof (update_maxHealth (Game.player (Game.handleInput g))
                (Game.platforms g) (Game.enemies g)) as Hmh.
  cbn zeta in Hd.
  destruct (handleInput_fields g) as [v Hv]. rewrite Hv in *.
  cbn [Game.player Game.with_player] in *.
  change (Player.hasDoubleJump (Player.with_velocityX v (Game.player g)))
    with (Player.hasDoubleJump (Game.player g)) in Hd.
  change (Player.maxHealth (Player.with_velocityX v (Game.player g)))
    with (Player.maxHealth (Game.player g)) in Hmh.
  revert Hd Hmh.
  generalize (Player.update (Player.with_velocityX v (Game.player g))
                (Game.platforms g) (Game.enemies g)).
  intros pu Hd Hmh.
  destruct (pickUps_charm (Game.collectibles g) (fst pu, Game.score g))
    as (B1 & B2 & B3 & B4).
  cbn zeta in *. cbn [fst] in *. rewrite Hd in B1, B2.
  revert B1 B2 B3 B4.
  generalize (forEach (Game.pickUp Math_sin) (fst pu, Game.score g)
                (Game.collectibles g)).
  intros r B1 B2 B3 B4. split; [| congruence].
  rewrite Hg in B1, B2.
  destruct (existsb charmTaken (Game.collectibles g)).
  - rewrite B2, B3; reflexivity.
  - rewrite orb_false_r in B1. exact B1.
Qed.

Lemma built_charmed g : built Math_sin g -> charmed g.
Proof.
  induction 1 as [| g Hb IH | g keys _ IH | g b _ IH | g _ IH Hover Hwon
                  | g _ IH].
  - split; reflexivity.
  - now apply charmed_update.
  - exact IH.
  - exact IH.
  - destruct IH as [IH1 IH2]. split; cbn.
    + now rewrite (proj1 (jump_charm _)).
    + now rewrite (proj2 (jump_charm _)).
  - split; reflexivity.
Qed.

End Charm.

Lemma fresh_charm (Math_sin : Q -> Q) l :
  Forall (fun c => Collectible.collected c = false) l ->
  existsb charmTaken (map (Collectible.update Math_sin) l) = false.
Proof.
  induction 1 as [| c l Hc _ IH]; [reflexivity |].
  cbn [map existsb]. rewrite IH, orb_false_r.
  destruct c as [ce ty co ro bo bs va]. cbn in Hc. subst co.
  unfold charmTaken, Collectible.update. cbn. now destruct ty.
Qed.

Lemma createCollectibles_fresh :
  Forall (fun c => Collectible.collected c = false) Game.createCollectibles.
Proof.
  repeat (apply List.Forall_cons; [reflexivity |]). apply List.Forall_nil.
Qed.

Lemma reset_collectibles_fresh (Math_sin : Q -> Q) g :
  existsb charmTaken (Game.collectibles (Game.reset Math_sin g)) = false.
Proof.
  assert (Hreset : Game.reset Math_sin g =
                   Game.update Math_sin (rebuilt g)) by reflexivity.
  rewrite Hreset.
  pose proof (update_on_built_level Math_sin (rebuilt g)
                eq_refl eq_refl eq_refl eq_refl eq_refl eq_refl eq_refl)
    as (_ & _ & _ & _ & _ & _ & _ & _ & Hc & _).
  revert Hc. generalize (Game.update Math_sin (rebuilt g)).
  intros r ->. apply fresh_charm, createCollectibles_fresh.
Qed.

(** X16.  In every reachable state the player can double jump exactly
    when the double-jump charm of the level has been collected; a reset
    takes the ability away again. *)
Theorem double_jump_iff_charm (Math_sin : Q -> Q) (g : Game.t) :
  Game.reachable Math_sin g ->
  Player.hasDoubleJump (Game.player g) =
    existsb charmTaken (Game.collectibles g) /\
  Player.hasDoubleJump (Game.player (Game.reset Math_sin g)) = false.
Proof.
  intros Hr. apply reachable_built in Hr. split.
  - exact (proj1 (built_charmed Math_sin g Hr)).
  - pose proof (built_charmed Math_sin _ (built_reset Math_sin g Hr))
      as [Hch _].
    rewrite Hch. apply reset_collectibles_fresh.
Qed.

(** X16 for the game in which the player stomps an enemy: no charm
    collected, no double jump. *)
Lemma double_jump_iff_charm_witness :
  Player.hasDoubleJump (Game.player (Game.run still Game.new stompRun)) =
  existsb charmTaken (Game.collectibles (Game.run still Game.new stompRun)).
Proof.
  exact (proj1 (double_jump_iff_charm still _
                  (reachable_run still Game.new stompRun
                     (Game.reachable_new still)))).
Defined.

(** ** The heads-up display *)

Lemma percent_of_level (x : Q) : x / 2400 * 100 == x * (1 # 24).
Proof. field. Qed.

(** X17.  In every reachable state [renderUI] can build its row of
    hearts without a [RangeError]: the player's health lies between 0
    and the maximum of 5, so the row has as many full hearts as health
    points and five hearts in all.  The progress it prints lies between
    0 and 98 percent, and is at least 93 once the game is won. *)
Theorem hud_never_throws (Math_sin : Q -> Q) (g : Game.t) :
  Game.reachable Math_sin g ->
  (exists full empty,
     Game.hearts g = Some (full, empty) /\
     Z.of_nat full = Player.health (Game.player g) /\
     (full + empty = 5)%nat) /\
  (0 <= Game.progress g <= 98)%Z /\
  (Game.gameWon g = true -> (93 <= Game.progress g)%Z).
Proof.
  intros Hr.
  pose proof (reachable_sound Math_sin g Hr) as Hs.
  pose proof (reachable_flagsReflect Math_sin g Hr) as [_ Hwon].
  apply reachable_built in Hr.
  destruct (built_charmed Math_sin g Hr) as [_ Hmax].
  destruct (built_framed Math_sin g Hr) as (_ & Hx0 & Hx1 & _ & Hlw & _).
  destruct (sound_healthy g Hs) as [Hh _]. rewrite Hmax in Hh.
  split; [| split].
  - exists (Z.to_nat (Player.health (Game.player g))),
      (Z.to_nat (5 - Player.health (Game.player g))).
    unfold Game.hearts, Game.String_repeat. rewrite Hmax.
    destruct (Z.ltb_spec (Player.health (Game.player g)) 0); [lia |].
    destruct (Z.ltb_spec (5 - Player.health (Game.player g)) 0); [lia |].
    repeat split; lia.
  - unfold Game.progress. rewrite Hlw, percent_of_level. split.
    + change 0%Z with (Qfloor 0). apply Qfloor_resp_le. lra.
    + change 98%Z with (Qfloor ((2400 - 40) * (1 # 24))).
      apply Qfloor_resp_le. lra.
  - intros Hw. rewrite Hw in Hwon. symmetry in Hwon.
    apply Qlt_bool_iff in Hwon.
    unfold Game.progress. rewrite Hlw, percent_of_level.
    change 93%Z with (Qfloor (2250 * (1 # 24))).
    apply Qfloor_resp_le. lra.
Qed.

(** X17 for the freshly constructed game. *)
Lemma hud_never_throws_witness :
  (0 <= Game.progress Game.new <= 98)%Z.
Proof.
  exact (proj1 (proj2 (hud_never_throws still Game.new
                         (Game.reachable_new still)))).
Defined.

(** ** The layout of the level *)

Lemma built_laidOut (Math_sin : Q -> Q) g : built Math_sin g -> laidOut g.
Proof.
  induction 1 as [| g Hb IH | g keys _ IH | g b _ IH | g _ IH Hover Hwon
                  | g _ IH]; try exact IH.
  - repeat split.
  - destruct IH as (Hl & Hp & He & Hc).
    destruct (Game.gameOver g) eqn:Hover;
      [rewrite update_cut_short by auto; repeat split; assumption |].
    destruct (Game.gameWon g) eqn:Hwon;
      [rewrite update_cut_short by auto; repeat split; assumption |].
    destruct (update_fields Math_sin g Hover Hwon)
      as (_ & Epl & Ee & Ec & _ & _ & _ & _ & _ & _ & El).
    cbn zeta in *. unfold laidOut. rewrite Epl, Ee, Ec, El.
    rewrite !forEach_length, !length_map.
    rewrite (Forall2_length_eq _ _ _
               (update_enemies (Game.player (Game.handleInput g))
                  (Game.platforms g) (Game.enemies g))).
    repeat split; assumption.
  - repeat split.
Qed.

(** X18.  The layout of the level never changes: in every reachable
    state the level number is 1 and the game holds 32 platforms, 12
    enemies and 40 collectibles.  Defeated enemies and collected
    collectibles are switched off, never removed from their arrays. *)
Theorem level_layout_is_fixed (Math_sin : Q -> Q) (g : Game.t) :
  Game.reachable Math_sin g ->
  Game.level g = 1%Z /\
  length (Game.platforms g) = 32%nat /\
  length (Game.enemies g) = 12%nat /\
  length (Game.collectibles g) = 40%nat.
Proof.
  intros Hr. exact (built_laidOut Math_sin g (reachable_built Math_sin g Hr)).
Qed.

(** X18 for the game in which the player stomps an enemy. *)
Lemma level_layout_is_fixed_witness :
  length (Game.enemies (Game.run still Game.new stompRun)) = 12%nat.
Proof.
  exact (proj1 (proj2 (proj2 (level_layout_is_fixed still _
                  (reachable_run still Game.new stompRun
                     (Game.reachable_new still)))))).
Defined.

(** ** Keys and the direction of the player *)

(** X19.  While the game is on, the left arrow wins over the right
    one: once it is pressed [handleInput] sends the player left at its
    speed whether or not the right arrow is held, and once it is
    released the player goes right if the right arrow is still held
    and stops otherwise. *)
Theorem left_wins_over_right (Math_sin : Q -> Q) (g : Game.t) :
  Game.gameOver g = false ->
  Game.gameWon g = false ->
  let held := Game.step Math_sin g (Game.KeyDown "ArrowLeft") in
  let released := Game.step Math_sin held (Game.KeyUp "ArrowLeft") in
  Player.velocityX (Game.player (Game.handleInput held)) =
    - Player.speed (Game.player g) /\
  Player.velocityX (Game.player (Game.handleInput released)) =
    (if Game.pressed (Game.keys g) "ArrowRight"
     then Player.speed (Game.player g) else 0).
Proof.
  intros Hover Hwon. cbn zeta.
  assert (Hheld : Game.step Math_sin g (Game.KeyDown "ArrowLeft") =
                  Game.with_keys (<["ArrowLeft" := true]> (Game.keys g)) g)
    by reflexivity.
  rewrite Hheld. cbn [Game.step]. unfold Game.handleKeyUp, Game.handleInput.
  cbn [Game.gameOver Game.gameWon Game.keys Game.with_keys Game.player].
  rewrite Hover, Hwon. cbn [orb]. unfold Game.pressed.
  rewrite lookup_insert_eq. cbn [default]. split; [reflexivity |].
  rewrite lookup_insert_eq. cbn [default].
  rewrite !lookup_insert_ne by discriminate.
  destruct (default false (Game.keys g !! "ArrowRight")); reflexivity.
Qed.

(** X19 on the freshly constructed game. *)
Lemma left_wins_over_right_witness :
  Player.velocityX
    (Game.player
       (Game.handleInput
          (Game.step still Game.new (Game.KeyDown "ArrowLeft")))) = - (6).
Proof.
  exact (proj1 (left_wins_over_right still Game.new eq_refl eq_refl)).
Defined.

(** ** The platforms of the level *)

Lemma sameShape_update a b : sameShape a b -> sameShape a (Platform.update b).
Proof.
  intros (H1 & H2 & H3 & H4 & H5 & H6 & H7 & H8 & H9).
  unfold Platform.update.
  destruct (Platform.moving b) eqn:Hm.
  - destruct b as [[bx by0 bw bh bc ba] mv mr ms sx dir].
    unfold sameShape, Platform.y, Platform.width, Platform.height in *.
    cbn in *. subst mv.
    case_ifs; cbn; repeat split; try assumption;
      intros Hs; rewrite Hs in H5; discriminate H5.
  - rewrite (H9 (eq_sym H5)). repeat split.
Qed.

Lemma Forall2_map_step {A : Type} (R : A -> A -> Prop) (f : A -> A) l l' :
  (forall a b, R a b -> R a (f b)) ->
  Forall2 R l l' -> Forall2 R l (map f l').
Proof. intros HR. induction 1; cbn; constructor; auto. Qed.

Lemma built_sameShape (Math_sin : Q -> Q) g :
  built Math_sin g -> Forall2 sameShape Game.createPlatforms (Game.platforms g).
Proof.
  induction 1 as [| g Hb IH | g keys _ IH | g b _ IH | g _ IH Hover Hwon
                  | g _ IH]; try exact IH.
  - apply Forall2_same. intros a. repeat split.
  - destruct (Game.gameOver g) eqn:Hover;
      [rewrite update_cut_short by auto; exact IH |].
    destruct (Game.gameWon g) eqn:Hwon;
      [rewrite update_cut_short by auto; exact IH |].
    destruct (update_fields Math_sin g Hover Hwon) as (_ & -> & _).
    apply Forall2_map_step; [apply sameShape_update | exact IH].
  - apply Forall2_same. intros a. repeat split.
Qed.

(** X20.  Platforms only ever move sideways: in every reachable state
    each platform has the height, width, vertical position and motion
    parameters its constructor call gave it, and each static platform
    is exactly as constructed. *)
Theorem platforms_keep_their_shape (Math_sin : Q -> Q) (g : Game.t) :
  Game.reachable Math_sin g ->
  Forall2 sameShape Game.createPlatforms (Game.platforms g).
Proof.
  intros Hr. apply built_sameShape with (Math_sin := Math_sin).
  now apply reachable_built.
Qed.

(** X20 for the game in which the player stomps an enemy. *)
Lemma platforms_keep_their_shape_witness :
  Forall2 sameShape Game.createPlatforms
    (Game.platforms (Game.run still Game.new stompRun)).
Proof.
  exact (platforms_keep_their_shape still _
           (reachable_run still Game.new stompRun
              (Game.reachable_new still))).
Defined.

(** ** Enemies and platforms *)

(** X21.  Platforms never steer an enemy: where an enemy is
    horizontally after an update, which way it faces and whether it is
    active do not depend on the platforms at all (enemies walk through
    walls and past platform edges; only the patrol bounds turn them),
    and nothing but the defeat animation deactivates one. *)
Theorem enemy_walk_ignores_platforms (e : Enemy.t) (pls : list Platform.t) :
  Enemy.x (Enemy.update pls e) = Enemy.x (Enemy.update [] e) /\
  Enemy.direction (Enemy.update pls e) = Enemy.direction (Enemy.update [] e) /\
  Enemy.active (Enemy.update pls e) = Enemy.active (Enemy.update [] e) /\
  (Enemy.defeated e = false ->
   Enemy.active (Enemy.update pls e) = Enemy.active e).
Proof.
  unfold Enemy.update.
  destruct (Enemy.defeated e) eqn:Hd;
    [repeat split; intros H; discriminate H |].
  match goal with
  | |- context [Enemy.checkPlatformCollisions ?m pls] =>
      destruct (Enemy_checkPlatformCollisions_vertical m pls)
        as (y' & vy' & ->);
      change (Enemy.checkPlatformCollisions m []) with m
  end.
  destruct e as [[ex ey ew eh ec ea] vx vy gr ps pe dir df dt sg].
  unfold Enemy.x, Enemy.width, Enemy.active. cbn.
  case_ifs; cbn; repeat split.
Qed.
